(** * ParseIQ: the resume ranker and the keyword feedback of [app.py]

    A shallow embedding of the computational part of [src/app.py]:
    - [rank_resumes] (lines 51-58): one similarity score per candidate,
      sorted by descending score;
    - [get_resume_feedback] (lines 61-86): keyword overlap statistics and
      the report text;
    - [save_results_to_gsheet] (lines 41-48): the rows appended to the sheet.

    Conventions of the embedding.
    - A Python [str] is a sequence of Unicode code points: [list N].
    - A Python [set] of strings is a [gset str]; the order in which the
      interpreter enumerates a set is an interface ([SetOrder]).
    - A Python [dict] is the list of its items in insertion order, with
      pairwise distinct keys ([dict_wf]).
    - A similarity score is an IEEE 754 binary64 number, which is what
      [tensor.item()] hands to Python: a primitive [float], compared with
      the primitive [<?], [<=?] and [=?].
    - The percentage computed by the feedback is a binary64 number: the
      true division of two [int]s is their quotient rounded to the nearest
      float, and the product with 100 is the primitive multiplication; a
      true division by zero raises [ZeroDivisionError], which is [None].
    - The embedding model ([model.encode], [util.cos_sim]), [str.lower],
      the formatting and rounding of floats and the wall clock belong to
      the Python run time and to third-party packages: they are interfaces
      here, and the file instantiates them only in its examples.

    The first part holds the definitions, the second part the facts. *)

From Stdlib Require Import ZArith QArith Qround Qpower Floats List Permutation Sorted Lia Lqa.
From stdpp Require Import base gmap sets list strings.

(** * Part I: the program *)

(** ** Python strings *)

Module PyStr.

(** A code point, and a string as a sequence of code points. *)
Definition char := N.
Definition str := list char.

(** A literal of the source that is pure ASCII, read byte by byte. *)
Definition lit (s : string) : str :=
  map Ascii.N_of_ascii (String.list_ascii_of_string s).

(** [str.isspace] for one code point: the code points CPython's
    [_PyUnicode_IsWhitespace] accepts (bidirectional type WS, B or S, or
    category Zs). *)
Definition isspace (c : char) : bool :=
  ((9 <=? c) && (c <=? 13) || (28 <=? c) && (c <=? 32)
   || (c =? 133) || (c =? 160) || (c =? 5760)
   || (8192 <=? c) && (c <=? 8202)
   || (c =? 8232) || (c =? 8233) || (c =? 8239) || (c =? 8287)
   || (c =? 12288))%N.

(** [s.split()]: the maximal runs of non-whitespace code points, in order.
    [cur] is the run being read, last code point first. *)
Fixpoint split_from (cur : str) (s : str) : list str :=
  match s with
  | [] => match cur with [] => [] | _ => [rev cur] end
  | c :: s' =>
      if isspace c
      then match cur with
           | [] => split_from [] s'
           | _ => rev cur :: split_from [] s'
           end
      else split_from (c :: cur) s'
  end.

Definition split (s : str) : list str := split_from [] s.

(** [sep.join(parts)]. *)
Fixpoint join (sep : str) (parts : list str) : str :=
  match parts with
  | [] => []
  | [p] => p
  | p :: ps => p ++ sep ++ join sep ps
  end.

(** Lower-casing of the ASCII letters; every other code point is kept.
    It agrees with [str.lower] on ASCII text. *)
Definition ascii_lower (s : str) : str :=
  map (fun c => if ((65 <=? c) && (c <=? 90))%N then (c + 32)%N else c) s.

(** The decimal digits of a natural number, most significant first, and
    the same left-padded with zeros to [width] digits ([%02d], [%04d]). *)
Fixpoint digits_fuel (fuel : nat) (n : N) (acc : str) : str :=
  match fuel with
  | O => acc
  | S fuel' =>
      let acc' := (48 + n mod 10)%N :: acc in
      if (n <? 10)%N then acc' else digits_fuel fuel' (n / 10)%N acc'
  end.

Definition digits (n : N) : str := digits_fuel (S (N.to_nat (N.log2 n))) n [].

Definition zero_pad (width : nat) (n : N) : str :=
  let d := digits n in
  replicate (width - length d) 48%N ++ d.

Definition is_digit (c : char) : bool := ((48 <=? c) && (c <=? 57))%N.

(** [str(n)] for an [int]. *)
Definition str_of_int (n : Z) : str :=
  if (n <? 0)%Z then 45%N :: digits (Z.to_N (- n)) else digits (Z.to_N n).

End PyStr.

Export PyStr.

(** ** Python floats: the comparisons the sort relies on

    Python compares two floats with the IEEE 754 predicates: [x < y] is
    [x <? y], [x >= y] is [y <=? x] and [x == y] is [x =? y]; every
    comparison with a NaN is false. *)

Module Float64.

Definition float_lt (x y : float) : bool := (x <? y)%float.
Definition float_ge (x y : float) : bool := (y <=? x)%float.
Definition float_eq (x y : float) : bool := (x =? y)%float.

End Float64.

Export Float64.

(** ** Binary64 arithmetic

    The floats of Python are the binary64 numbers of IEEE 754, with 53
    bits of precision; [spec_float] is their specification in the
    standard library, to which the primitive floats are tied. *)

Module Binary64.

(** The rational [2^e]. *)
Definition bpow (e : Z) : Q := Qpower 2 e.

(** The value of a finite float; 0 for the others. *)
Definition SF2Q (x : spec_float) : Q :=
  match x with
  | S754_finite s m e =>
      (if s then - (inject_Z (Zpos m) * bpow e) else inject_Z (Zpos m) * bpow e)%Q
  | _ => 0%Q
  end.

Definition float_value (x : float) : Q := SF2Q (Prim2SF x).

(** The place of a scaled value [u] against the integer [m] and the middle
    of [m] and [m + 1]. *)
Definition inbetween (m : Z) (l : location) (u : Q) : Prop :=
  match l with
  | loc_Exact => (u == inject_Z m)%Q
  | loc_Inexact Lt => (inject_Z m < u /\ u < inject_Z m + (1 # 2))%Q
  | loc_Inexact Eq => (u == inject_Z m + (1 # 2))%Q
  | loc_Inexact Gt => (inject_Z m + (1 # 2) < u /\ u < inject_Z m + 1)%Q
  end.

(** [n] is the integer nearest to [u], the even one of two. *)
Definition nearest_even (n : Z) (u : Q) : Prop :=
  (inject_Z n - (1 # 2) <= u <= inject_Z n + (1 # 2))%Q
  /\ ((u == inject_Z n + (1 # 2))%Q \/ (u == inject_Z n - (1 # 2))%Q ->
      Z.even n = true).

(** [n] at exponent [e] is the rounding of the value [v] to binary64:
    [e] is the exponent of the binade of [v], not below the least
    exponent, and [n] is the integer nearest to [v / 2^e]. *)
Definition rounds_to (v : Q) (n e : Z) : Prop :=
  nearest_even n (v / bpow e)
  /\ (0 <= n <= 2 ^ 53)%Z
  /\ (-1074 <= e)%Z
  /\ (v / bpow e < inject_Z (2 ^ 53))%Q
  /\ ((-1074 < e)%Z -> (inject_Z (2 ^ 52) <= v / bpow e)%Q).

(** The float of mantissa [n] at exponent [e], for [0 <= n <= 2^53]. *)
Definition float_of_mantissa (n e : Z) : spec_float :=
  match n with
  | Zpos p =>
      if (n =? 2 ^ 53)%Z then S754_finite false (2 ^ 52)%positive (e + 1)
      else S754_finite false p e
  | _ => S754_zero false
  end.

(** The quotient [a / b] of two positive integers, rounded to the nearest
    float, the even one of two; [sign] is the sign of the quotient. *)
Definition int_quotient (sign : bool) (a b : positive) : spec_float :=
  let '(mz, ez, lz) := SFdiv_core_binary prec emax (Zpos a) 0 (Zpos b) 0 in
  binary_round_aux prec emax sign mz ez lz.

(** The float 100.0. *)
Definition hundred : spec_float := S754_finite false 7036874417766400 (-46).

End Binary64.

Export Binary64.

(** ** Python numbers of the feedback

    [match_percent] is the [int] 0 on one branch and a [float] on the
    other. *)

Module PyNum.

Inductive pynum : Type :=
  | py_int (n : Z)
  | py_float (x : float).

(** The value of a number; the float is finite. *)
Definition pynum_value (p : pynum) : Q :=
  match p with
  | py_int n => inject_Z n
  | py_float x => float_value x
  end.

(** [a / b] on two [int]s: the quotient rounded to the nearest float
    ([long_true_divide]); [None] stands for [ZeroDivisionError] when [b]
    is zero and for [OverflowError] when the quotient is too large for a
    float. *)
Definition truediv (a b : Z) : option float :=
  if decide (b = 0%Z) then None
  else
    let sign := xorb (a <? 0)%Z (b <? 0)%Z in
    match Z.abs a, Z.abs b with
    | Zpos pa, Zpos pb =>
        match int_quotient sign pa pb with
        | S754_infinity _ => None
        | q => Some (SF2Prim q)
        end
    | _, _ => Some (SF2Prim (S754_zero sign))
    end.

End PyNum.

Export PyNum.

(** ** Python dictionaries *)

Module PyDict.

(** The items of a dictionary, in insertion order. *)
Definition dict (K V : Type) := list (K * V).

(** No key occurs twice. *)
Definition dict_wf {K V : Type} (d : dict K V) : Prop := NoDup (d.*1).

Definition items {K V : Type} (d : dict K V) : list (K * V) := d.
Definition keys {K V : Type} (d : dict K V) : list K := d.*1.

(** [d[k] = v]: the value of an existing key is replaced where the key
    stands, a new key is added at the end. *)
Fixpoint setitem {K V : Type} `{EqDecision K} (k : K) (v : V) (d : dict K V)
  : dict K V :=
  match d with
  | [] => [(k, v)]
  | (k', v') :: d' =>
      if decide (k = k') then (k, v) :: d' else (k', v') :: setitem k v d'
  end.

End PyDict.

Export PyDict.

(** ** [sorted(iterable, key=..., reverse=...)]

    [list.sort] is a stable merge sort that compares keys with [<] only;
    a list of fewer than 64 elements is sorted by binary insertion alone:
    a new element goes behind every element of the sorted run that is not
    greater than it.  With [reverse=True] the list is reversed, sorted,
    and reversed again.

    Where [<] orders the keys, which for floats means that no key is a
    NaN, every stable sort returns the same list, and [list_sort] computes
    it by insertion.  With a NaN among the keys [list.sort] still returns
    a permutation of its input, but the arrangement depends on which
    pairs it happens to compare, and this model does not predict it. *)

Module PySort.

Section Sort.
Context {A : Type} (key : A -> float).

(** Insertion of [x] into a sorted run held last element first. *)
Fixpoint insert_run (x : A) (run : list A) : list A :=
  match run with
  | [] => [x]
  | e :: run' =>
      if float_lt (key x) (key e) then e :: insert_run x run'
      else x :: e :: run'
  end.

Definition list_sort (l : list A) : list A :=
  rev (fold_left (fun run x => insert_run x run) l []).

Definition sorted (l : list A) (reverse : bool) : list A :=
  if reverse then rev (list_sort (rev l)) else list_sort l.

(** A list whose keys never increase from left to right. *)
Definition descending (l : list A) : Prop :=
  StronglySorted (fun a b => float_ge (key a) (key b) = true) l.

End Sort.

End PySort.

Export PySort.

(** ** The similarity ranker: [rank_resumes] *)

(** The sentence-embedding model and the similarity of two embeddings:
    [model.encode(text, convert_to_tensor=True)] and
    [util.cos_sim(a, b).item()]. *)
Class Embedder := {
  tensor : Type;
  encode : str -> tensor;
  cos_sim : tensor -> tensor -> float
}.

Section Ranker.
Context {provider : Embedder}.

(** The list [rankings] when the loop of [rank_resumes] ends. *)
Definition rankings (job_description : str) (resume_texts : dict str str)
  : list (str * float) :=
  let job_embed := encode job_description in
  fold_left
    (fun rankings '(name, text) =>
       let resume_embed := encode text in
       let score := cos_sim job_embed resume_embed in
       rankings ++ [(name, score)])
    (items resume_texts) [].

Definition rank_resumes (job_description : str) (resume_texts : dict str str)
  : list (str * float) :=
  sorted snd (rankings job_description resume_texts) true.

End Ranker.

(** ** The keyword feedback: [get_resume_feedback] *)

(** What the feedback asks of the Python run time: [s.lower()], and
    [str(round(x, 1))] for a float [x]. *)
Class StrRuntime := {
  lower : str -> str;
  str_round1 : float -> str
}.

(** [list(s)] for a set [s]: the elements of [s], each once, in the order
    in which the interpreter walks the hash table.  The order depends on
    the hashes of the strings, which change from one interpreter process
    to the next. *)
Class SetOrder := {
  set_list : gset str -> list str;
  set_list_perm : forall s, set_list s ≡ₚ elements s
}.

(** The three lines of the report that start with an emoji. *)
Definition matches_prefix : str := 0x2705%N :: lit " Resume matches about ".
Definition missing_prefix : str :=
  0x1F50D%N :: lit " Missing keywords (skills or terms): ".
Definition all_present : str :=
  0x1F3AF%N :: lit " All job description keywords are present in the resume!".

Section Feedback.
Context {rt : StrRuntime} {order : SetOrder}.

Definition jd_keywords (job_description : str) : gset str :=
  list_to_set (split (lower job_description)).

Definition resume_words (resume_text : str) : gset str :=
  list_to_set (split (lower resume_text)).

Definition missing (resume_text job_description : str) : gset str :=
  jd_keywords job_description ∖ resume_words resume_text.

Definition match_count (resume_text job_description : str) : nat :=
  size (jd_keywords job_description ∩ resume_words resume_text).

Definition total (job_description : str) : nat :=
  size (jd_keywords job_description).

(** [(match_count / total) * 100 if total > 0 else 0] *)
Definition match_percent (resume_text job_description : str) : option pynum :=
  if decide (0 < total job_description)
  then
    ratio ← truediv (Z.of_nat (match_count resume_text job_description))
                    (Z.of_nat (total job_description));
    Some (py_float (ratio * 100)%float)
  else Some (py_int 0).

(** [str(round(match_percent, 1))]: rounding an [int] to one decimal
    returns the [int]. *)
Definition str_of_round1 (p : pynum) : str :=
  match p with
  | py_int n => str_of_int n
  | py_float x => str_round1 x
  end.

(** [list(missing)[:20]]: the missing keywords the report lists. *)
Definition missing_listed (resume_text job_description : str) : list str :=
  take 20 (set_list (missing resume_text job_description)).

(** The list [lines] when [get_resume_feedback] returns. *)
Definition lines (resume_text job_description : str) : option (list str) :=
  percent ← match_percent resume_text job_description;
  let lines := [] in
  let lines :=
    lines ++ [matches_prefix ++ str_of_round1 percent
              ++ lit "% of the job description keywords."] in
  let lines :=
    if decide (missing resume_text job_description ≠ ∅)
    then lines ++ [missing_prefix
                   ++ join (lit ", ") (missing_listed resume_text job_description)
                   ++ lit "."]
    else lines ++ [all_present] in
  let lines := lines ++ [lit ""] in
  let lines := lines ++ [lit "Suggestions:"] in
  let lines := lines ++ [lit "- Add relevant keywords from the job description."] in
  let lines :=
    lines ++ [lit "- Clearly highlight matching skills, tools, and achievements."] in
  let lines :=
    lines ++ [lit "- Use consistent formatting and standard section headers (e.g., Experience, Projects)."] in
  let lines := lines ++ [lit "- Keep it concise, clean, and professional."] in
  Some lines.

Definition get_resume_feedback (resume_text job_description : str) : option str :=
  join [10%N] <$> lines resume_text job_description.

End Feedback.

(** ** The results logger: [save_results_to_gsheet] *)

Module Sheet.

(** A cell holds text or a number; a row is a list of cells. *)
Inductive cell : Type :=
  | cell_str (s : str)
  | cell_num (x : float).

Definition row := list cell.

Record datetime := mk_datetime {
  year : N; month : N; day : N; hour : N; minute : N; second : N
}.

(** A reading of a wall clock: a calendar date with a year of four
    digits, which [%Y] prints as they are on every platform, and a time of
    day. *)
Definition wall_clock (t : datetime) : Prop :=
  (1000 <= year t <= 9999 /\ 1 <= month t <= 12 /\ 1 <= day t <= 31
   /\ hour t <= 23 /\ minute t <= 59 /\ second t <= 59)%N.

(** [t.strftime("%Y-%m-%d %H:%M:%S")] *)
Definition strftime (t : datetime) : str :=
  zero_pad 4 (year t) ++ lit "-" ++ zero_pad 2 (month t) ++ lit "-"
  ++ zero_pad 2 (day t) ++ lit " " ++ zero_pad 2 (hour t) ++ lit ":"
  ++ zero_pad 2 (minute t) ++ lit ":" ++ zero_pad 2 (second t).

(** [s] is an instance of the template [tpl]: a digit stands where the
    template has a letter, and the template's own character elsewhere. *)
Fixpoint matches_template (tpl s : str) : bool :=
  match tpl, s with
  | [], [] => true
  | p :: tpl', c :: s' =>
      (if ((65 <=? p) && (p <=? 90))%N then is_digit c else (c =? p)%N)
      && matches_template tpl' s'
  | _, _ => false
  end.

Definition timestamp_format (s : str) : Prop :=
  matches_template (lit "YYYY-MM-DD HH:MM:SS") s = true.

(** The world outside the program: the rows of the first worksheet of the
    spreadsheet, and how often the clock has been read. *)
Record world := mk_world {
  sheet1 : list row;
  clock_reads : nat
}.

(** The environment: [round(x, ndigits)] on floats and the clock, whose
    [k]-th reading is [now_at k]. *)
Class Env := {
  round_ndigits : float -> Z -> float;
  now_at : nat -> datetime
}.

(** Computations that read and change the world. *)
Definition io (A : Type) : Type := world -> A * world.

#[export] Instance io_ret : MRet io := fun A (a : A) w => (a, w).
#[export] Instance io_bind : MBind io :=
  fun A B (k : A -> io B) (c : io A) w => let (a, w') := c w in k a w'.

(** [for x in l: body(x)] *)
Fixpoint for_each {A : Type} (l : list A) (body : A -> io unit) : io unit :=
  match l with
  | [] => mret tt
  | x :: l' => _ ← body x; for_each l' body
  end.

Section Logger.
Context {env : Env}.

(** The handle of the worksheet; opening it changes nothing. *)
Definition connect_to_gsheet : io unit := mret tt.

(** [sheet.append_row(r)]: one more row below the rows of the sheet. *)
Definition append_row (r : row) : io unit :=
  fun w => (tt, {| sheet1 := sheet1 w ++ [r]; clock_reads := clock_reads w |}).

(** [datetime.now()] *)
Definition datetime_now : io datetime :=
  fun w => (now_at (clock_reads w),
            {| sheet1 := sheet1 w; clock_reads := S (clock_reads w) |}).

(** The row written for one entry of the ranking at the time [t]. *)
Definition logged_row (entry : str * float) (t : datetime) : row :=
  [cell_str entry.1; cell_num (round_ndigits entry.2 4); cell_str (strftime t)].

Definition save_results_to_gsheet (data : list (str * float)) : io unit :=
  sheet ← connect_to_gsheet;
  for_each data (fun row =>
    now ← datetime_now;
    append_row (logged_row row now)).

End Logger.

End Sheet.

Export Sheet.

(** ** Instances used by the examples *)

Module Fixture.

(** [str(round(x, 1))] for a finite float [0 <= x < 1e16]: the value of
    [x] rounded to one decimal, ties to even. *)
Definition round1_text (x : float) : str :=
  let y := (float_value x * 10)%Q in
  let f := Qfloor y in
  let tenths :=
    match (y - inject_Z f ?= 1 # 2)%Q with
    | Lt => f
    | Gt => (f + 1)%Z
    | Eq => if Z.even f then f else (f + 1)%Z
    end in
  digits (Z.to_N (tenths / 10)) ++ lit "." ++ digits (Z.to_N (tenths mod 10)).

(** [float(a) / float(b)]: the division of [a / b] when both [int]s are
    below [2^53]. *)
Definition float_division (a b : Z) : float :=
  (of_uint63 (Uint63.of_Z a) / of_uint63 (Uint63.of_Z b))%float.

Definition ascii_runtime : StrRuntime :=
  {| lower := ascii_lower; str_round1 := round1_text |}.

(** Two enumeration orders: the one of [elements], and its reverse. *)
Definition forward_order : SetOrder :=
  {| set_list := elements;
     set_list_perm := fun s => Permutation_refl (elements s) |}.

Definition backward_order : SetOrder :=
  {| set_list := fun s => rev (elements s);
     set_list_perm := fun s => Permutation_sym (Permutation_rev (elements s)) |}.

(** A provider for tests: a text is embedded as its number of words, and
    two embeddings are the more similar the closer the numbers are. *)
Definition word_count_embedder : Embedder :=
  {| tensor := nat;
     encode := fun text => length (split text);
     cos_sim := fun a b =>
       match (a - b) + (b - a) with
       | 0 => 1%float
       | 1 => 0.5%float
       | 2 => 0.25%float
       | _ => 0%float
       end |}.

(** An environment for tests: the scores of the examples have at most four
    decimals, and the clock advances by one second per reading. *)
Definition test_now (k : nat) : datetime :=
  {| year := 2024; month := 5; day := 17; hour := 9; minute := 30;
     second := N.of_nat k mod 60 |}.

Definition test_env : Env :=
  {| round_ndigits := fun x _ => x; now_at := test_now |}.

(** The texts of the scenario of the specification. *)
Definition reference : str := lit "python developer with sql experience".
Definition candidates : dict str str :=
  [(lit "A", lit "experienced python developer");
   (lit "B", lit "java backend engineer");
   (lit "C", lit "python developer with sql skills")].

End Fixture.

(** ** The rest of [app.py]

    What follows embeds the code around the three operations above: the
    text extraction from a PDF (lines 20-22), the pagination of a report
    (lines 90-104 and 199-211), and the part of the script that reads the
    uploads and walks the ranking (lines 129-179). *)

(** *** More of the Python run time *)

Module PyMore.

(** [s.split(sep)] for a separator [sep] of one code point: the pieces
    between the occurrences of [sep], empty pieces included.  [cur] is the
    piece being read, last code point first. *)
Fixpoint split_on_from (sep : char) (cur : str) (s : str) : list str :=
  match s with
  | [] => [rev cur]
  | c :: s' =>
      if (c =? sep)%N then rev cur :: split_on_from sep [] s'
      else split_on_from sep (c :: cur) s'
  end.

Definition split_on (sep : char) (s : str) : list str := split_on_from sep [] s.

(** [s.startswith(prefix)] and [s.endswith(suffix)]. *)
Fixpoint startswith (s prefix : str) : bool :=
  match prefix, s with
  | [], _ => true
  | p :: prefix', c :: s' => (c =? p)%N && startswith s' prefix'
  | _ :: _, [] => false
  end.

Definition endswith (s suffix : str) : bool := startswith (rev s) (rev suffix).

(** The truth value of a string: it is not empty. *)
Definition str_truthy (s : str) : bool :=
  match s with [] => false | _ :: _ => true end.

(** A word: a string that is not empty and holds no whitespace. *)
Definition word (t : str) : Prop :=
  t <> [] /\ Forall (fun c => isspace c = false) t.

(** [d[k]]: [None] stands for [KeyError]. *)
Fixpoint getitem {K V : Type} `{EqDecision K} (k : K) (d : dict K V) : option V :=
  match d with
  | [] => None
  | (k', v) :: d' => if decide (k = k') then Some v else getitem k d'
  end.

End PyMore.

Export PyMore.

(** *** Text extraction *)

(** What the libraries read in an uploaded file: [page.extract_text()] for
    each page of a PDF ([None] or the empty string for a page without
    text), [docx2txt.process] and the UTF-8 text of a plain file. *)
Class Readers := {
  content : Type;
  pdf_page_texts : content -> list (option str);
  docx2txt_process : content -> str;
  utf8_text : content -> str
}.

Module Documents.

Section Extractors.
Context {readers : Readers}.

(** The pages that pass [if page.extract_text()], with their text. *)
Definition pages_with_text (file : content) : list str :=
  flat_map (fun page =>
              match page with
              | Some text => if str_truthy text then [text] else []
              | None => []
              end)
           (pdf_page_texts file).

Definition extract_text_from_pdf (file : content) : str :=
  join (lit " ") (pages_with_text file).

Definition extract_text_from_docx (file : content) : str := docx2txt_process file.

Definition extract_text_from_txt (file : content) : str := utf8_text file.

End Extractors.

End Documents.

Export Documents.

(** *** Pagination *)

Module Pdf.

(** What is sent to a canvas.  Coordinates are points; the page size
    [letter] is 612 by 792, and every coordinate of the program is an
    integer that binary64 holds exactly. *)
Inductive canvas_op : Type :=
  | SetFont (font : str) (size : Z)
  | DrawString (x y : Z) (text : str)
  | ShowPage
  | Save.

Definition height : Z := 792.

(** One turn of the loop over the lines (lines 96-101 and 205-210): a new
    page is started when the cursor [y] is below 40, then the line is
    drawn and the cursor moves down by 15. *)
Definition draw_line (y_top : Z) (state : Z * list canvas_op) (line : str)
  : Z * list canvas_op :=
  let '(y, ops) := state in
  let '(y, ops) :=
    if (y <? 40)%Z then (y_top, ops ++ [ShowPage]) else (y, ops) in
  ((y - 15)%Z, ops ++ [DrawString 50 y line]).

(** The operations that produce the document of [generate_pdf]. *)
Definition generate_pdf (feedback_text : str) : list canvas_op :=
  let lines := split_on 10%N feedback_text in
  let y := (height - 50)%Z in
  let '(_, ops) := fold_left (draw_line (height - 50)) lines (y, []) in
  ops ++ [Save].

(** The section of one candidate in the combined document (lines
    199-211): a heading in bold, the lines of the feedback, a page break. *)
Definition feedback_section (ops : list canvas_op) (name feedback : str)
  : list canvas_op :=
  let y_start := (height - 50)%Z in
  let lines := split_on 10%N feedback in
  let y := y_start in
  let ops := ops ++ [SetFont (lit "Helvetica-Bold") 12] in
  let ops := ops ++ [DrawString 50 y (lit "Feedback for " ++ name)] in
  let y := (y - 20)%Z in
  let ops := ops ++ [SetFont (lit "Helvetica") 11] in
  let '(_, ops) := fold_left (draw_line y_start) lines (y, ops) in
  ops ++ [ShowPage].

(** The layout of [generate_pdf] in closed form: line number [i], counted
    from 0, stands in row [i mod 47] of its page, and a page break comes
    before the first line of every page but the first.  [cursor_after n]
    is the cursor when [n] lines have been drawn. *)
Definition line_ops (i : nat) (line : str) : list canvas_op :=
  (if decide (0 < i /\ i mod 47 = 0) then [ShowPage] else [])
  ++ [DrawString 50 (742 - 15 * Z.of_nat (i mod 47)) line].

Definition cursor_after (n : nat) : Z :=
  match n with
  | O => 742
  | S m => 742 - 15 * (Z.of_nat (m mod 47) + 1)
  end.

(** A section of the combined document whose lines fit below the heading
    on one page. *)
Definition section_ops (name : str) (lines : list str) : list canvas_op :=
  [SetFont (lit "Helvetica-Bold") 12;
   DrawString 50 742 (lit "Feedback for " ++ name);
   SetFont (lit "Helvetica") 11]
  ++ imap (fun i line => DrawString 50 (722 - 15 * Z.of_nat i) line) lines
  ++ [ShowPage].

(** What a document shows: the pages of a document are the runs of
    operations between two [ShowPage]. *)
Definition is_draw (op : canvas_op) : bool :=
  match op with DrawString _ _ _ => true | _ => false end.

Definition is_show_page (op : canvas_op) : bool :=
  match op with ShowPage => true | _ => false end.

Definition drawn_text (ops : list canvas_op) : list str :=
  flat_map (fun op => match op with DrawString _ _ text => [text] | _ => [] end) ops.

End Pdf.

Export Pdf.

(** *** The script: uploads, ranking, feedback of every candidate *)

Module App.

(** An uploaded file. *)
Record upload {readers : Readers} := mk_upload {
  file_name : str;
  file_content : content
}.

Section Script.
Context {readers : Readers} {rt : StrRuntime} {order : SetOrder}
  {provider : Embedder}.

(** Lines 130-141: the job description comes from the uploaded file, read
    according to the end of its name, or from the text area when no file
    is uploaded. *)
Definition job_description_text (jd_file : option upload) (pasted : str) : str :=
  let job_description_text := lit "" in
  match jd_file with
  | Some jd_file =>
      if endswith (file_name jd_file) (lit ".txt")
      then extract_text_from_txt (file_content jd_file)
      else if endswith (file_name jd_file) (lit ".pdf")
      then extract_text_from_pdf (file_content jd_file)
      else if endswith (file_name jd_file) (lit ".docx")
      then extract_text_from_docx (file_content jd_file)
      else job_description_text
  | None => pasted
  end.

(** Lines 149-154: the text of one uploaded resume. *)
Definition resume_text (file : upload) : str :=
  if endswith (file_name file) (lit ".pdf")
  then extract_text_from_pdf (file_content file)
  else if endswith (file_name file) (lit ".docx")
  then extract_text_from_docx (file_content file)
  else lit "".

(** Lines 145-155: the dictionary [resume_texts] after the loop. *)
Definition resume_texts (resume_files : list upload) : dict str str :=
  fold_left (fun resume_texts file =>
               setitem (file_name file) (resume_text file) resume_texts)
            resume_files [].

(** Line 158: [if job_description_text and resume_texts]. *)
Definition ready (job_description_text : str) (resume_texts : dict str str) : bool :=
  str_truthy job_description_text
  && match resume_texts with [] => false | _ :: _ => true end.

(** Lines 173-179: the feedback of every candidate of the ranking, in the
    order of the ranking.  [None] stands for an exception: a [KeyError] of
    [resume_texts[name]] or an error of [get_resume_feedback]. *)
Definition feedbacks (job_description_text : str) (resume_texts : dict str str)
  (ranked : list (str * float)) : option (list (str * str)) :=
  mapM (fun '(name, score) =>
          text ← getitem name resume_texts;
          feedback ← get_resume_feedback text job_description_text;
          Some (name, feedback))
       ranked.

(** Lines 168-214: the combined document, one section per candidate. *)
Definition combined_feedback (named_feedbacks : list (str * str))
  : list canvas_op :=
  fold_left (fun ops '(name, feedback) => feedback_section ops name feedback)
            named_feedbacks []
  ++ [Save].

End Script.

End App.

(** *** Instances used by the examples of this part *)

Module Sample.

(** Two candidates with different scores against the reference text of
    the fixture, in two insertion orders. *)
Definition two_candidates : dict str str :=
  [(lit "A", lit "experienced python developer");
   (lit "C", lit "python developer with sql skills")].

Definition two_candidates_swapped : dict str str :=
  [(lit "C", lit "python developer with sql skills");
   (lit "A", lit "experienced python developer")].

(** Files for tests: the content of a file is the list of its page texts;
    read as a word-processor or plain file it is the pages on one line
    each. *)
Definition page_readers : Readers :=
  {| content := list (option str);
     pdf_page_texts := fun pages => pages;
     docx2txt_process := fun pages => join [10%N] (default [] <$> pages);
     utf8_text := fun pages => join [10%N] (default [] <$> pages) |}.

(** Three uploads, two of them under the same name. *)
Definition uploads : list (@App.upload page_readers) :=
  [ @App.mk_upload page_readers (lit "a.pdf")
      [Some (lit "java backend"); None; Some (lit "engineer")];
    @App.mk_upload page_readers (lit "b.docx")
      [Some (lit "python developer")];
    @App.mk_upload page_readers (lit "a.pdf")
      [Some (lit "experienced python developer")] ].

End Sample.

(** * Part II: the facts *)

(** ** The order of the floats *)

Section FloatOrder.

(** Case analysis on the comparisons of exponents and mantissas inside
    [SFcompare]. *)
Ltac sf_cmp :=
  repeat match goal with
  | |- context [Z.compare ?a ?b] => destruct (Z.compare_spec a b)
  | Hc : context [Z.compare ?a ?b] |- _ => destruct (Z.compare_spec a b)
  | |- context [Pos.compare_cont Eq ?a ?b] =>
      change (Pos.compare_cont Eq a b) with (Pos.compare a b);
      destruct (Pos.compare_spec a b)
  | Hc : context [Pos.compare_cont Eq ?a ?b] |- _ =>
      change (Pos.compare_cont Eq a b) with (Pos.compare a b) in Hc;
      destruct (Pos.compare_spec a b)
  end; simpl in *; try congruence; try lia.

Ltac sf_forms a := destruct a as [[]|[]| |[] ? ?].

Lemma SFleb_trans (a b c : spec_float) :
  SFleb a b = true -> SFleb b c = true -> SFleb a c = true.
Proof.
  unfold SFleb, SFcompare. sf_forms a; sf_forms b; sf_forms c;
    simpl; try congruence; intros; sf_cmp.
Qed.

Lemma SFltb_SFleb (a b : spec_float) : SFltb a b = true -> SFleb a b = true.
Proof. unfold SFltb, SFleb. destruct (SFcompare a b) as [[]|]; congruence. Qed.

Lemma SFltb_false_SFleb (a b : spec_float) :
  a <> S754_nan -> b <> S754_nan -> SFltb a b = false -> SFleb b a = true.
Proof.
  unfold SFleb, SFltb, SFcompare. sf_forms a; sf_forms b;
    simpl; try congruence; intros; sf_cmp.
Qed.

Lemma SFeqb_SFltb (a b k : spec_float) :
  SFeqb a k = true -> SFeqb b k = true -> SFltb a b = false.
Proof.
  unfold SFeqb, SFltb, SFcompare. sf_forms a; sf_forms b; sf_forms k;
    simpl; try congruence; intros; sf_cmp.
Qed.

Lemma is_nan_spec (x : float) : is_nan x = false -> Prim2SF x <> S754_nan.
Proof.
  unfold is_nan. rewrite FloatAxioms.eqb_spec. intros Hx E.
  rewrite E in Hx. discriminate.
Qed.

(** The same facts on the primitive floats. *)
Lemma float_ge_trans (x y z : float) :
  float_ge x y = true -> float_ge y z = true -> float_ge x z = true.
Proof.
  unfold float_ge. rewrite !FloatAxioms.leb_spec. intros Hxy Hyz.
  exact (SFleb_trans _ _ _ Hyz Hxy).
Qed.

Lemma float_lt_ge (x y : float) : float_lt x y = true -> float_ge y x = true.
Proof.
  unfold float_lt, float_ge. rewrite FloatAxioms.ltb_spec, FloatAxioms.leb_spec.
  apply SFltb_SFleb.
Qed.

Lemma float_not_lt_ge (x y : float) :
  is_nan x = false -> is_nan y = false ->
  float_lt x y = false -> float_ge x y = true.
Proof.
  unfold float_lt, float_ge. rewrite FloatAxioms.ltb_spec, FloatAxioms.leb_spec.
  intros Hx Hy. apply SFltb_false_SFleb; now apply is_nan_spec.
Qed.

Lemma float_eq_not_lt (x y k : float) :
  float_eq x k = true -> float_eq y k = true -> float_lt x y = false.
Proof.
  unfold float_eq, float_lt. rewrite !FloatAxioms.eqb_spec, FloatAxioms.ltb_spec.
  apply SFeqb_SFltb.
Qed.

End FloatOrder.

(** ** Dictionaries: an assignment keeps the keys distinct *)

Section DictFacts.
Context {K V : Type} `{EqDecision K}.

Lemma setitem_keys (k : K) (v : V) (d : dict K V) :
  keys (setitem k v d) = if decide (k ∈ keys d) then keys d else keys d ++ [k].
Proof.
  unfold keys. induction d as [|[k' v'] d IH]; csimpl.
  - done.
  - destruct (decide (k = k')) as [->|Hne]; csimpl.
    + clear IH. case_decide; [done | set_solver].
    + rewrite IH.
      destruct (decide (k ∈ d.*1)) as [Hin|Hin],
        (decide (k ∈ k' :: d.*1)) as [Hin'|Hin']; try done.
      * exfalso. apply Hin'. apply elem_of_cons. by right.
      * exfalso. apply elem_of_cons in Hin' as [?|?]; done.
Qed.

Lemma setitem_wf (k : K) (v : V) (d : dict K V) :
  dict_wf d -> dict_wf (setitem k v d).
Proof.
  unfold dict_wf. intros Hd. fold (keys (setitem k v d)). rewrite setitem_keys.
  destruct (decide (k ∈ keys d)) as [|Hk]; [exact Hd |].
  unfold keys in *. apply NoDup_app. split; [exact Hd |]. split.
  - intros x Hx Hx'. apply list_elem_of_singleton in Hx'. subst. contradiction.
  - apply NoDup_singleton.
Qed.

(** A dictionary filled by assignments, as [resume_texts] is (line 155),
    has distinct keys. *)
Lemma assignments_wf (updates : list (K * V)) (d : dict K V) :
  dict_wf d -> dict_wf (fold_left (fun d '(k, v) => setitem k v d) updates d).
Proof.
  revert d. induction updates as [|[k v] updates IH]; intros d Hd; simpl.
  - exact Hd.
  - apply IH. now apply setitem_wf.
Qed.

End DictFacts.

(** ** The sort: a stable permutation, descending when no key is a NaN *)

Section SortFacts.
Context {A : Type} (key : A -> float).

Lemma sorted_reverse (l : list A) :
  sorted key l true = foldr (insert_run key) [] l.
Proof.
  unfold sorted, list_sort. rewrite rev_involutive.
  rewrite <- fold_left_rev_right. now rewrite rev_involutive.
Qed.

Lemma insert_run_perm (x : A) (run : list A) : insert_run key x run ≡ₚ x :: run.
Proof.
  induction run as [|e run IH]; simpl; [done |].
  destruct (float_lt (key x) (key e)); [| done].
  rewrite IH. apply Permutation_swap.
Qed.

Lemma foldr_insert_run_perm (l : list A) : foldr (insert_run key) [] l ≡ₚ l.
Proof.
  induction l as [|x l IH]; simpl; [done |].
  rewrite insert_run_perm. now rewrite IH.
Qed.

Lemma list_sort_perm (l : list A) : list_sort key l ≡ₚ l.
Proof.
  unfold list_sort. rewrite <- fold_left_rev_right, <- Permutation_rev.
  change (foldr (insert_run key) [] (rev l) ≡ₚ l).
  rewrite foldr_insert_run_perm. symmetry. apply Permutation_rev.
Qed.

Lemma sorted_perm (l : list A) (reverse : bool) : sorted key l reverse ≡ₚ l.
Proof.
  destruct reverse; [| apply list_sort_perm].
  rewrite sorted_reverse. apply foldr_insert_run_perm.
Qed.

(** Insertion keeps a descending run descending when no key is a NaN. *)
Lemma insert_run_descending (x : A) (run : list A) :
  is_nan (key x) = false ->
  Forall (fun e => is_nan (key e) = false) run ->
  descending key run -> descending key (insert_run key x run).
Proof.
  intros Hx. unfold descending.
  induction run as [|e run IH]; simpl; intros Hnan Hsorted.
  - repeat constructor.
  - apply Forall_cons in Hnan as [He Hnan].
    apply StronglySorted_inv in Hsorted as [Hrun Hge].
    destruct (float_lt (key x) (key e)) eqn:Hlt.
    + constructor; [now apply IH |].
      rewrite insert_run_perm.
      constructor; [now apply float_lt_ge | exact Hge].
    + assert (Hxe : float_ge (key x) (key e) = true)
        by now apply float_not_lt_ge.
      constructor; [now constructor |].
      constructor; [exact Hxe |].
      eapply Forall_impl; [exact Hge |]. simpl. intros b Hb.
      now apply float_ge_trans with (key e).
Qed.

Lemma sorted_reverse_descending (l : list A) :
  Forall (fun e => is_nan (key e) = false) l -> descending key (sorted key l true).
Proof.
  rewrite sorted_reverse. induction l as [|x l IH]; simpl; intros Hnan.
  - constructor.
  - apply Forall_cons in Hnan as [Hx Hnan].
    apply insert_run_descending; [exact Hx | | now apply IH].
    now rewrite foldr_insert_run_perm.
Qed.

(** In a descending list an earlier position holds the greater key. *)
Lemma descending_lookup (l : list A) (i j : nat) (a b : A) :
  descending key l -> i < j -> l !! i = Some a -> l !! j = Some b ->
  float_ge (key a) (key b) = true.
Proof.
  unfold descending. intros Hs. revert i j.
  induction Hs as [|x l Hs IH Hx]; intros i j Hij Hi Hj; [done |].
  destruct j as [|j]; [lia |]. simpl in Hj. destruct i as [|i]; simpl in Hi.
  - injection Hi as <-. rewrite Forall_forall in Hx. apply Hx.
    eapply list_elem_of_lookup_2. exact Hj.
  - apply (IH i j); [lia | done | done].
Qed.

(** Stability: the elements whose key equals [k] keep their order. *)
Lemma insert_run_stable (k : float) (x : A) (run : list A) :
  List.filter (fun a => float_eq (key a) k) (insert_run key x run)
  = List.filter (fun a => float_eq (key a) k) (x :: run).
Proof.
  induction run as [|e run IH]; [done |].
  cbn [insert_run]. destruct (float_lt (key x) (key e)) eqn:Hlt; [| done].
  cbn [List.filter] in *. rewrite IH.
  destruct (float_eq (key x) k) eqn:Hxk, (float_eq (key e) k) eqn:Hek; try done.
  rewrite (float_eq_not_lt _ _ _ Hxk Hek) in Hlt. discriminate.
Qed.

Lemma sorted_reverse_stable (k : float) (l : list A) :
  List.filter (fun a => float_eq (key a) k) (sorted key l true)
  = List.filter (fun a => float_eq (key a) k) l.
Proof.
  rewrite sorted_reverse. induction l as [|x l IH]; [done |].
  cbn [foldr]. rewrite insert_run_stable. cbn [List.filter]. now rewrite IH.
Qed.

End SortFacts.

(** ** The ranker *)

Section RankerFacts.
Context {provider : Embedder}.

(** The loop maps every item to its name and score, in insertion order. *)
Lemma rankings_fmap (job_description : str) (resume_texts : dict str str) :
  rankings job_description resume_texts
  = (fun e => (e.1, cos_sim (encode job_description) (encode e.2)))
      <$> items resume_texts.
Proof.
  unfold rankings, items. cbv zeta.
  set (f := fun e : str * str =>
              (e.1, cos_sim (encode job_description) (encode e.2))).
  enough (Hgen : forall acc,
    fold_left (fun rankings '(name, text) =>
                 rankings ++ [(name, cos_sim (encode job_description) (encode text))])
      resume_texts acc = acc ++ (f <$> resume_texts)) by apply (Hgen []).
  induction resume_texts as [|[name text] d IH]; intros acc; simpl.
  - now rewrite app_nil_r.
  - rewrite IH, <- app_assoc. reflexivity.
Qed.

Lemma rankings_names (job_description : str) (resume_texts : dict str str) :
  (rankings job_description resume_texts).*1 = keys resume_texts.
Proof.
  rewrite rankings_fmap. unfold keys, items.
  rewrite <- list_fmap_compose. reflexivity.
Qed.

(** The ranking holds the entries of [rankings], each once: a name comes
    with the score of its own text. *)
Lemma rank_resumes_perm (job_description : str) (resume_texts : dict str str) :
  rank_resumes job_description resume_texts
  ≡ₚ rankings job_description resume_texts.
Proof. apply sorted_perm. Qed.

(** An entry of the ranking is a candidate's name with the similarity of
    the candidate's text to the reference text, as the provider returned
    it: the ranker neither clamps nor replaces a score. *)
Lemma rank_resumes_entry
  (job_description : str) (resume_texts : dict str str)
  (name : str) (score : float) :
  (name, score) ∈ rank_resumes job_description resume_texts
  <-> exists text,
        (name, text) ∈ items resume_texts
        /\ score = cos_sim (encode job_description) (encode text).
Proof.
  rewrite rank_resumes_perm, rankings_fmap, list_elem_of_fmap. split.
  - intros ([name' text] & Heq & Hin). injection Heq as -> ->.
    now exists text.
  - intros (text & Hin & ->). now exists (name, text).
Qed.

(** C1. For every reference text and every mapping of candidate names to
    texts, the names of the ranking are a permutation of the names of the
    mapping: the ranking is as long as the mapping, it holds no name
    twice, and a name is in it exactly when it is a key of the mapping. *)
Theorem rank_resumes_permutation
  (job_description : str) (resume_texts : dict str str) :
  dict_wf resume_texts ->
  (rank_resumes job_description resume_texts).*1 ≡ₚ keys resume_texts
  /\ length (rank_resumes job_description resume_texts) = length resume_texts
  /\ NoDup (rank_resumes job_description resume_texts).*1
  /\ forall name,
       name ∈ (rank_resumes job_description resume_texts).*1
       <-> name ∈ keys resume_texts.
Proof.
  intros Hwf.
  assert (Hnames :
    (rank_resumes job_description resume_texts).*1 ≡ₚ keys resume_texts).
  { rewrite rank_resumes_perm. now rewrite rankings_names. }
  split; [exact Hnames |]. split; [| split].
  - rewrite <- (length_fmap fst), Hnames. unfold keys. apply length_fmap.
  - rewrite Hnames. exact Hwf.
  - intros name. now rewrite Hnames.
Qed.

(** C2. When no score is a NaN, the ranking is in non-increasing order of
    score: the entry at an earlier position has a score [>=] the score of
    the entry at a later position. *)
Theorem rank_resumes_sorted_descending
  (job_description : str) (resume_texts : dict str str) :
  Forall (fun e => is_nan e.2 = false) (rankings job_description resume_texts) ->
  forall (i j : nat) (name_i name_j : str) (score_i score_j : float),
    i < j ->
    rank_resumes job_description resume_texts !! i = Some (name_i, score_i) ->
    rank_resumes job_description resume_texts !! j = Some (name_j, score_j) ->
    float_ge score_i score_j = true.
Proof.
  intros Hnan i j name_i name_j score_i score_j Hij Hi Hj.
  apply (descending_lookup snd (rank_resumes job_description resume_texts)
           i j (name_i, score_i) (name_j, score_j)); try assumption.
  now apply sorted_reverse_descending.
Qed.

(** C6. When no score is a NaN, candidates with equal scores keep the
    insertion order of the mapping: for every score [k], the entries of
    the ranking whose score equals [k] are the items of the mapping whose
    score equals [k], in the order of the mapping.  (The hypothesis is the
    domain on which [sorted] is [list.sort]; the insertion sort itself is
    stable on all keys.) *)
Theorem rank_resumes_stable
  (job_description : str) (resume_texts : dict str str) (k : float) :
  Forall (fun e => is_nan e.2 = false) (rankings job_description resume_texts) ->
  List.filter (fun e => float_eq e.2 k) (rank_resumes job_description resume_texts)
  = List.filter (fun e => float_eq e.2 k)
      ((fun e => (e.1, cos_sim (encode job_description) (encode e.2)))
         <$> items resume_texts).
Proof.
  intros _. unfold rank_resumes.
  rewrite (sorted_reverse_stable snd), rankings_fmap. reflexivity.
Qed.

End RankerFacts.

(** The ranking of the three candidates of the fixture: C comes first, and
    A stays before B, which has the same score. *)
Example rank_resumes_fixture :
  @rank_resumes Fixture.word_count_embedder Fixture.reference Fixture.candidates
  = [(lit "C", 1%float); (lit "A", 0.25%float); (lit "B", 0.25%float)].
Proof. vm_compute. reflexivity. Qed.

(** C1 at the three candidates of the fixture. *)
Lemma rank_resumes_permutation_witness :
  (@rank_resumes Fixture.word_count_embedder
     Fixture.reference Fixture.candidates).*1 ≡ₚ keys Fixture.candidates
  /\ length (@rank_resumes Fixture.word_count_embedder
               Fixture.reference Fixture.candidates)
     = length Fixture.candidates
  /\ NoDup (@rank_resumes Fixture.word_count_embedder
              Fixture.reference Fixture.candidates).*1
  /\ forall name,
       name ∈ (@rank_resumes Fixture.word_count_embedder
                 Fixture.reference Fixture.candidates).*1
       <-> name ∈ keys Fixture.candidates.
Proof.
  apply (@rank_resumes_permutation Fixture.word_count_embedder).
  unfold dict_wf. refine (bool_decide_unpack _ _). vm_compute. exact I.
Defined.

(** C2 at the first two positions of the ranking of the fixture. *)
Lemma rank_resumes_sorted_descending_witness :
  float_ge 1%float 0.25%float = true.
Proof.
  apply (@rank_resumes_sorted_descending Fixture.word_count_embedder
           Fixture.reference Fixture.candidates)
    with (i := 0) (j := 1) (name_i := lit "C") (name_j := lit "A").
  - vm_compute. repeat constructor.
  - lia.
  - vm_compute. reflexivity.
  - vm_compute. reflexivity.
Defined.

(** C6 at the candidates of the fixture and the score 0.25, which A and B
    share: A stays before B. *)
Lemma rank_resumes_stable_witness :
  List.filter (fun e => float_eq e.2 0.25%float)
    (@rank_resumes Fixture.word_count_embedder
       Fixture.reference Fixture.candidates)
  = [(lit "A", 0.25%float); (lit "B", 0.25%float)].
Proof.
  rewrite (@rank_resumes_stable Fixture.word_count_embedder).
  - vm_compute. reflexivity.
  - vm_compute. repeat constructor.
Defined.

(** Why C2 and C6 ask for scores that are numbers: a NaN is neither below
    nor above any float, so it has no place in an order.  Here the sort
    finds the two keys in order as they stand ([list.sort] does the same)
    and leaves the NaN in front of a greater score. *)
Remark sorted_nan_unordered :
  sorted (fun x : float => x) [nan; 1%float] true = [nan; 1%float]
  /\ float_ge nan 1%float = false.
Proof. split; vm_compute; reflexivity. Qed.

(** ** Binary64 arithmetic

    The division and the multiplication of floats round the exact result
    to the nearest float, the one with an even mantissa of two; the facts
    below follow the rounding of [binary_round_aux] through the two
    operations of the percentage. *)

Section Binary64Facts.
Local Open Scope Q_scope.

Lemma bpow_pos (e : Z) : 0 < bpow e.
Proof. apply Qpower_0_lt. reflexivity. Qed.

Lemma bpow_add (a b : Z) : bpow (a + b) == bpow a * bpow b.
Proof. apply Qpower_plus. discriminate. Qed.

Lemma bpow_succ (e : Z) : bpow (e + 1) == 2 * bpow e.
Proof. rewrite bpow_add. change (bpow 1) with (2 # 1). ring. Qed.

Lemma bpow_le (a b : Z) : (a <= b)%Z -> bpow a <= bpow b.
Proof. intros H. apply Qpower_le_compat_l; [exact H | discriminate]. Qed.

Lemma bpow_Z (e : Z) : (0 <= e)%Z -> bpow e == inject_Z (2 ^ e).
Proof. intros H. unfold bpow. now rewrite Zpower_Qpower. Qed.

Lemma div_bpow_add (v : Q) (a k : Z) : v / bpow (a + k) == v / bpow a / bpow k.
Proof.
  rewrite bpow_add. field.
  split; apply Qnot_eq_sym, Qlt_not_eq, bpow_pos.
Qed.

Lemma digits2_pos_bounds (p : positive) :
  (2 ^ (Zpos (digits2_pos p) - 1) <= Zpos p < 2 ^ Zpos (digits2_pos p))%Z.
Proof.
  induction p as [p IH|p IH|]; cbn [digits2_pos].
  - rewrite Pos2Z.inj_succ, Z.pow_succ_r by lia.
    replace (Z.succ (Zpos (digits2_pos p)) - 1)%Z
      with (Z.succ (Zpos (digits2_pos p) - 1)) by lia.
    rewrite Z.pow_succ_r by lia. lia.
  - rewrite Pos2Z.inj_succ, Z.pow_succ_r by lia.
    replace (Z.succ (Zpos (digits2_pos p)) - 1)%Z
      with (Z.succ (Zpos (digits2_pos p) - 1)) by lia.
    rewrite Z.pow_succ_r by lia. lia.
  - simpl. lia.
Qed.

Lemma Zdigits2_bounds (m : Z) :
  (0 < m)%Z -> (2 ^ (Zdigits2 m - 1) <= m < 2 ^ Zdigits2 m)%Z /\ (0 < Zdigits2 m)%Z.
Proof.
  destruct m as [|p|p]; try lia. intros _. simpl. split; [apply digits2_pos_bounds | lia].
Qed.

Lemma Zdigits2_le (m k : Z) : (0 <= m < 2 ^ k)%Z -> (0 <= k)%Z -> (Zdigits2 m <= k)%Z.
Proof.
  intros [H0 Hk] Hk0. destruct (Z.eq_dec m 0%Z) as [->|Hne]; [simpl; lia |].
  destruct (Zdigits2_bounds m) as [[Hlo _] Hd]; [lia |].
  destruct (Z.le_gt_cases (Zdigits2 m) k) as [|Hgt]; [assumption |].
  assert (2 ^ k <= 2 ^ (Zdigits2 m - 1))%Z by (apply Z.pow_le_mono_r; lia). lia.
Qed.

Lemma Zdigits2_ge (m k : Z) : (2 ^ k <= m)%Z -> (0 <= k)%Z -> (k + 1 <= Zdigits2 m)%Z.
Proof.
  intros Hk Hk0.
  assert (0 < 2 ^ k)%Z by (apply Z.pow_pos_nonneg; lia).
  destruct (Zdigits2_bounds m) as [[_ Hhi] Hd]; [lia |].
  destruct (Z.le_gt_cases (k + 1) (Zdigits2 m)) as [|Hgt]; [assumption |].
  assert (2 ^ Zdigits2 m <= 2 ^ k)%Z by (apply Z.pow_le_mono_r; lia). lia.
Qed.

Lemma fexp_eq (e : Z) : fexp prec emax e = Z.max (e - 53) (-1074).
Proof. reflexivity. Qed.



Lemma inbetween_ext (m : Z) (l : location) (u u' : Q) :
  u == u' -> inbetween m l u -> inbetween m l u'.
Proof.
  intros E. destruct l as [|[]]; simpl; rewrite E; tauto.
Qed.

Lemma loc_of_shr_record_of_loc (m : Z) (l : location) :
  loc_of_shr_record (shr_record_of_loc m l) = l
  /\ shr_m (shr_record_of_loc m l) = m.
Proof. destruct l as [|[]]; split; reflexivity. Qed.

Lemma shr_1_inbetween (mrs : shr_record) (u : Q) :
  (0 <= shr_m mrs)%Z ->
  inbetween (shr_m mrs) (loc_of_shr_record mrs) u ->
  (0 <= shr_m (shr_1 mrs))%Z
  /\ inbetween (shr_m (shr_1 mrs)) (loc_of_shr_record (shr_1 mrs)) (u / 2).
Proof.
  destruct mrs as [m r s]. cbn [shr_m]. intros Hm Hu.
  enough (Hgoal : (0 <= shr_m (shr_1 {| shr_m := m; shr_r := r; shr_s := s |}))%Z
    /\ inbetween (shr_m (shr_1 {| shr_m := m; shr_r := r; shr_s := s |}))
         (loc_of_shr_record (shr_1 {| shr_m := m; shr_r := r; shr_s := s |}))
         (u * (1 # 2))).
  { destruct Hgoal as [H1 H2]. split; [exact H1 |].
    eapply inbetween_ext; [| exact H2]. field. }
  destruct m as [|[p|p|]|p]; try lia.
  - change (inject_Z 0) with 0 in *.
    destruct r, s; cbn [inbetween loc_of_shr_record shr_1 shr_m orb] in Hu |- *;
      change (inject_Z 0) with 0 in *; split; try lia; lra.
  - assert (E : inject_Z (Zpos p~1) == 2 * inject_Z (Zpos p) + 1).
    { rewrite Pos2Z.inj_xI, inject_Z_plus, inject_Z_mult. reflexivity. }
    destruct r, s; cbn [inbetween loc_of_shr_record shr_1 shr_m orb] in Hu |- *; rewrite E in Hu; split; try lia; lra.
  - assert (E : inject_Z (Zpos p~0) == 2 * inject_Z (Zpos p)).
    { rewrite Pos2Z.inj_xO, inject_Z_mult. reflexivity. }
    destruct r, s; cbn [inbetween loc_of_shr_record shr_1 shr_m orb] in Hu |- *; rewrite E in Hu; split; try lia; lra.
  - destruct r, s; cbn [inbetween loc_of_shr_record shr_1 shr_m orb] in Hu |- *;
      change (inject_Z 0) with 0 in *; change (inject_Z 1) with 1 in *;
      split; try lia; lra.
Qed.

Lemma iter_shr_1_inbetween (p : positive) (mrs : shr_record) (u : Q) :
  (0 <= shr_m mrs)%Z ->
  inbetween (shr_m mrs) (loc_of_shr_record mrs) u ->
  (0 <= shr_m (SpecFloat.iter_pos shr_1 p mrs))%Z
  /\ inbetween (shr_m (SpecFloat.iter_pos shr_1 p mrs))
       (loc_of_shr_record (SpecFloat.iter_pos shr_1 p mrs)) (u / bpow (Zpos p)).
Proof.
  revert mrs u. induction p as [p IH|p IH|]; intros mrs u Hm Hu; cbn [SpecFloat.iter_pos].
  - destruct (shr_1_inbetween mrs u Hm Hu) as [Hm1 Hu1].
    destruct (IH _ _ Hm1 Hu1) as [Hm2 Hu2].
    destruct (IH _ _ Hm2 Hu2) as [Hm3 Hu3].
    split; [exact Hm3 |]. eapply inbetween_ext; [| exact Hu3].
    rewrite Pos2Z.inj_xI. replace (2 * Zpos p + 1)%Z with (1 + Zpos p + Zpos p)%Z by lia.
    rewrite !div_bpow_add. reflexivity.
  - destruct (IH _ _ Hm Hu) as [Hm2 Hu2].
    destruct (IH _ _ Hm2 Hu2) as [Hm3 Hu3].
    split; [exact Hm3 |]. eapply inbetween_ext; [| exact Hu3].
    rewrite Pos2Z.inj_xO. replace (2 * Zpos p)%Z with (Zpos p + Zpos p)%Z by lia.
    rewrite !div_bpow_add. reflexivity.
  - apply shr_1_inbetween; assumption.
Qed.

(** Shifting a mantissa to a larger exponent keeps the place of the
    value. *)
Lemma shr_inbetween (mrs : shr_record) (e n : Z) (v : Q) :
  (0 <= shr_m mrs)%Z ->
  inbetween (shr_m mrs) (loc_of_shr_record mrs) (v / bpow e) ->
  let '(mrs', e') := shr mrs e n in
  e' = (e + Z.max n 0)%Z
  /\ (0 <= shr_m mrs')%Z
  /\ inbetween (shr_m mrs') (loc_of_shr_record mrs') (v / bpow e').
Proof.
  intros Hm Hv. destruct n as [|p|p]; cbn [shr].
  - split; [lia |]. now split.
  - split; [lia |].
    destruct (iter_shr_1_inbetween p mrs _ Hm Hv) as [Hm1 Hv1].
    split; [exact Hm1 |]. eapply inbetween_ext; [| exact Hv1].
    now rewrite div_bpow_add.
  - split; [lia |]. now split.
Qed.

Lemma round_nearest_even_spec (m : Z) (l : location) (u : Q) :
  (0 <= m)%Z -> inbetween m l u ->
  nearest_even (round_nearest_even m l) u
  /\ (m <= round_nearest_even m l <= m + 1)%Z.
Proof.
  intros Hm Hu. unfold nearest_even.
  assert (Hs : inject_Z (m + 1) == inject_Z m + 1) by (rewrite inject_Z_plus; reflexivity).
  destruct l as [|[]]; cbn in Hu |- *.
  - split; [| lia]. split; [lra |]. intros [E|E]; lra.
  - destruct (Z.even m) eqn:Hev.
    + split; [| lia]. split; [lra |]. intros _. exact Hev.
    + split; [| lia]. rewrite Hs. split; [lra |]. intros _.
      rewrite Z.even_add, Hev. reflexivity.
  - split; [| lia]. split; [lra |]. intros [E|E]; lra.
  - split; [| lia]. rewrite Hs. split; [lra |]. intros [E|E]; lra.
Qed.

Lemma inbetween_bounds (m : Z) (l : location) (u : Q) :
  inbetween m l u -> inject_Z m <= u < inject_Z m + 1.
Proof. destruct l as [|[]]; simpl; lra. Qed.

Lemma Qmult_div_bpow (u : Q) (e : Z) : u / bpow e * bpow e == u.
Proof. field. apply Qnot_eq_sym, Qlt_not_eq, bpow_pos. Qed.

Lemma Qdiv_bpow_lt (v : Q) (a e : Z) : v < bpow a -> v / bpow e < bpow (a - e).
Proof.
  intros H. apply Qlt_shift_div_r; [apply bpow_pos |].
  rewrite <- bpow_add. now replace (a - e + e)%Z with a by lia.
Qed.

Lemma Qdiv_bpow_le (v : Q) (a e : Z) : bpow a <= v -> bpow (a - e) <= v / bpow e.
Proof.
  intros H. apply Qle_shift_div_l; [apply bpow_pos |].
  rewrite <- bpow_add. now replace (a - e + e)%Z with a by lia.
Qed.

(** The binade of a value given by a mantissa and its place. *)
Lemma inbetween_magnitude (mx ex : Z) (lx : location) (v : Q) :
  (0 <= mx)%Z -> inbetween mx lx (v / bpow ex) ->
  v < bpow (Zdigits2 mx + ex)
  /\ ((0 < mx)%Z -> bpow (Zdigits2 mx - 1 + ex) <= v).
Proof.
  intros Hm Hv. apply inbetween_bounds in Hv. destruct Hv as [Hlo Hhi].
  pose proof (Qmult_div_bpow v ex) as Ev. pose proof (bpow_pos ex) as Hb.
  assert (Hdig : (mx + 1 <= 2 ^ Zdigits2 mx)%Z
                 /\ ((0 < mx)%Z -> (2 ^ (Zdigits2 mx - 1) <= mx)%Z)
                 /\ (0 <= Zdigits2 mx)%Z
                 /\ ((0 < mx)%Z -> (0 <= Zdigits2 mx - 1)%Z)).
  { destruct (Z.eq_dec mx 0%Z) as [->|Hne]; [simpl; lia |].
    destruct (Zdigits2_bounds mx) as [[H1 H2] H3]; lia. }
  destruct Hdig as (Hd1 & Hd2 & Hd3 & Hd4). split.
  - rewrite bpow_add, (bpow_Z (Zdigits2 mx)) by exact Hd3.
    rewrite <- Ev. apply Qmult_lt_compat_r; [exact Hb |].
    eapply Qlt_le_trans; [exact Hhi |].
    change 1 with (inject_Z 1). rewrite <- inject_Z_plus, <- Zle_Qle. exact Hd1.
  - intros Hpos. rewrite bpow_add, (bpow_Z (Zdigits2 mx - 1)) by auto.
    rewrite <- Ev. apply Qmult_le_compat_r; [| apply Qlt_le_weak, Hb].
    eapply Qle_trans; [| exact Hlo]. rewrite <- Zle_Qle. auto.
Qed.

Lemma shr_no_shift (mrs : shr_record) (e n : Z) : (n <= 0)%Z -> shr mrs e n = (mrs, e).
Proof. destruct n; [reflexivity | lia | reflexivity]. Qed.

(** The rounding of [binary_round_aux]: the value is brought to the
    exponent of its binade and its mantissa is rounded to the nearest
    integer, the even one of two. *)
Lemma binary_round_aux_spec (mx ex : Z) (lx : location) (v : Q) :
  (0 <= mx)%Z -> inbetween mx lx (v / bpow ex) ->
  (ex <= fexp prec emax (Zdigits2 mx + ex))%Z ->
  (fexp prec emax (Zdigits2 mx + ex) < 971)%Z ->
  exists n e : Z,
    e = fexp prec emax (Zdigits2 mx + ex)
    /\ binary_round_aux prec emax false mx ex lx = float_of_mantissa n e
    /\ nearest_even n (v / bpow e)
    /\ (0 <= n <= 2 ^ 53)%Z
    /\ (-1074 <= e)%Z
    /\ v / bpow e < inject_Z (2 ^ 53)
    /\ ((-1074 < e)%Z -> inject_Z (2 ^ 52) <= v / bpow e).
Proof.
  intros Hm Hv Hex Hmax.
  set (e1 := fexp prec emax (Zdigits2 mx + ex)) in *.
  assert (He1 : e1 = Z.max (Zdigits2 mx + ex - 53) (-1074)) by reflexivity.
  destruct (inbetween_magnitude mx ex lx v Hm Hv) as [Hhi Hlo].
  assert (Hu_hi : v / bpow e1 < inject_Z (2 ^ 53)).
  { rewrite <- bpow_Z by lia. eapply Qlt_le_trans.
    - apply Qdiv_bpow_lt, Hhi.
    - apply bpow_le. lia. }
  assert (Hu_lo : (-1074 < e1)%Z -> inject_Z (2 ^ 52) <= v / bpow e1).
  { intros Hn. rewrite <- bpow_Z by lia.
    assert (Hpos : (0 < mx)%Z).
    { destruct (Z.eq_dec mx 0%Z) as [E|]; [| lia]. subst mx. simpl in He1. lia. }
    eapply Qle_trans; [| apply Qdiv_bpow_le, (Hlo Hpos)].
    apply bpow_le. lia. }
  unfold binary_round_aux, shr_fexp. fold e1.
  destruct (loc_of_shr_record_of_loc mx lx) as [Hl0 Hm0].
  pose proof (shr_inbetween (shr_record_of_loc mx lx) ex (e1 - ex) v) as Hshr.
  rewrite Hl0, Hm0 in Hshr. specialize (Hshr Hm Hv).
  destruct (shr (shr_record_of_loc mx lx) ex (e1 - ex)) as [mrs' e'].
  destruct Hshr as (He' & Hm1 & Hv1).
  assert (Ee : e' = e1) by lia. clear He'. subst e'.
  destruct (round_nearest_even_spec _ _ _ Hm1 Hv1) as [Hn Hnm].
  set (n := round_nearest_even (shr_m mrs') (loc_of_shr_record mrs')) in *.
  apply inbetween_bounds in Hv1. destruct Hv1 as [Hv1lo Hv1hi].
  assert (Hm1hi : (shr_m mrs' < 2 ^ 53)%Z).
  { rewrite Zlt_Qlt. eapply Qle_lt_trans; [exact Hv1lo | exact Hu_hi]. }
  exists n, e1. split; [reflexivity |].
  split; [| split; [exact Hn | split; [lia | split; [lia | split; assumption]]]].
  destruct (Z.eq_dec n (2 ^ 53)%Z) as [E53|Hne53].
  - rewrite E53.
    replace (fexp prec emax (Zdigits2 (2 ^ 53) + e1) - e1)%Z with 1%Z
      by (rewrite fexp_eq; change (Zdigits2 (2 ^ 53)) with 54%Z; lia).
    cbn [shr_record_of_loc shr SpecFloat.iter_pos shr_1 shr_m Z.pow Z.pow_pos Pos.iter Z.mul Pos.mul orb].
    replace (e1 + 1 <=? emax - prec)%Z with true
      by (symmetry; apply Z.leb_le; change (emax - prec)%Z with 971%Z; lia).
    reflexivity.
  - assert (Hdn : (Zdigits2 n <= 53)%Z) by (apply Zdigits2_le; lia).
    rewrite shr_no_shift by (rewrite fexp_eq; lia).
    cbn [shr_record_of_loc shr_m].
    unfold float_of_mantissa. destruct n as [|p|p]; [reflexivity | | lia].
    replace (Zpos p =? 2 ^ 53)%Z with false by (symmetry; apply Z.eqb_neq; exact Hne53).
    replace (e1 <=? emax - prec)%Z with true
      by (symmetry; apply Z.leb_le; change (emax - prec)%Z with 971%Z; lia).
    reflexivity.
Qed.

Lemma float_of_mantissa_value (n e : Z) :
  (0 <= n)%Z -> SF2Q (float_of_mantissa n e) == inject_Z n * bpow e.
Proof.
  intros Hn. unfold float_of_mantissa. destruct n as [|p|p]; [| | lia].
  - simpl. ring.
  - destruct (Z.eqb_spec (Zpos p) (2 ^ 53)) as [E|_]; [| reflexivity].
    rewrite E. cbn [SF2Q]. rewrite bpow_succ.
    change (inject_Z (2 ^ 53)) with (2 * inject_Z (Zpos (2 ^ 52))). ring.
Qed.

Lemma float_of_mantissa_valid (n e : Z) :
  (0 <= n <= 2 ^ 53)%Z -> (-1074 <= e < 971)%Z ->
  ((-1074 < e)%Z -> (2 ^ 52 <= n)%Z) ->
  valid_binary (float_of_mantissa n e) = true.
Proof.
  intros Hn He Hnorm. unfold float_of_mantissa.
  destruct n as [|p|p]; [reflexivity | | reflexivity].
  destruct (Z.eqb_spec (Zpos p) (2 ^ 53)) as [E|Hne].
  - unfold valid_binary, bounded, canonical_mantissa.
    change (Zpos (digits2_pos (2 ^ 52))) with 53%Z. rewrite fexp_eq.
    apply andb_true_intro. split; [apply Z.eqb_eq; lia |].
    apply Z.leb_le. change (emax - prec)%Z with 971%Z. lia.
  - unfold valid_binary, bounded, canonical_mantissa.
    change (Zpos (digits2_pos p)) with (Zdigits2 (Zpos p)). rewrite fexp_eq.
    assert (Hd : (Zdigits2 (Zpos p) <= 53)%Z) by (apply Zdigits2_le; lia).
    apply andb_true_intro. split.
    + apply Z.eqb_eq. destruct (Z.eq_dec e (-1074)%Z) as [->|Hn']; [lia |].
      assert (53 <= Zdigits2 (Zpos p))%Z
        by (apply (Zdigits2_ge (Zpos p) 52); [apply Hnorm |]; lia).
      lia.
    + apply Z.leb_le. change (emax - prec)%Z with 971%Z. lia.
Qed.

Lemma inject_Z_succ (n : Z) : inject_Z (n + 1) == inject_Z n + 1.
Proof. rewrite inject_Z_plus. reflexivity. Qed.

Lemma nearest_even_mono (n1 n2 : Z) (u1 u2 : Q) :
  nearest_even n1 u1 -> nearest_even n2 u2 -> u1 <= u2 -> (n1 <= n2)%Z.
Proof.
  intros [[H1lo H1hi] H1t] [[H2lo H2hi] H2t] Hu.
  destruct (Z.le_gt_cases n1 n2) as [|Hgt]; [assumption | exfalso].
  assert (Hq : inject_Z (n2 + 1) <= inject_Z n1) by (rewrite <- Zle_Qle; lia).
  rewrite inject_Z_succ in Hq.
  assert (E1 : u1 == inject_Z n1 - (1 # 2)) by lra.
  assert (E2 : u2 == inject_Z n2 + (1 # 2)) by lra.
  assert (Hle : inject_Z n1 <= inject_Z (n2 + 1)) by (rewrite inject_Z_succ; lra).
  rewrite <- Zle_Qle in Hle.
  assert (En : n1 = (n2 + 1)%Z) by lia.
  assert (Hev1 : Z.even n1 = true) by (apply H1t; now right).
  assert (Hev2 : Z.even n2 = true) by (apply H2t; now left).
  rewrite En, Z.even_add, Hev2 in Hev1. discriminate Hev1.
Qed.

(** A value on the grid is rounded to itself, and the rounding does not
    cross a point of the grid. *)
Lemma nearest_even_le (n k : Z) (u : Q) :
  nearest_even n u -> u <= inject_Z k -> (n <= k)%Z.
Proof.
  intros [[Hlo Hhi] _] Hu.
  destruct (Z.le_gt_cases n k) as [|Hgt]; [assumption | exfalso].
  assert (Hq : inject_Z (k + 1) <= inject_Z n) by (rewrite <- Zle_Qle; lia).
  rewrite inject_Z_succ in Hq. lra.
Qed.

Lemma nearest_even_ge (n k : Z) (u : Q) :
  nearest_even n u -> inject_Z k <= u -> (k <= n)%Z.
Proof.
  intros [[Hlo Hhi] _] Hu.
  destruct (Z.le_gt_cases k n) as [|Hgt]; [assumption | exfalso].
  assert (Hq : inject_Z (n + 1) <= inject_Z k) by (rewrite <- Zle_Qle; lia).
  rewrite inject_Z_succ in Hq. lra.
Qed.

Lemma Qdiv_bpow_le_compat (v1 v2 : Q) (e : Z) :
  v1 <= v2 -> v1 / bpow e <= v2 / bpow e.
Proof.
  intros H. apply Qmult_le_compat_r; [exact H |].
  apply Qlt_le_weak, Qinv_lt_0_compat, bpow_pos.
Qed.

(** The exponent of the rounding is that of the binade of the value. *)
Lemma rounds_to_exponent_le (v : Q) (n e a : Z) :
  rounds_to v n e -> v < bpow a -> (e <= Z.max (a - 53) (-1074))%Z.
Proof.
  intros (_ & _ & Hemin & _ & Hlo) Hv.
  destruct (Z.eq_dec e (-1074)%Z) as [->|Hne]; [lia |].
  assert (Hn : (-1074 < e)%Z) by lia. specialize (Hlo Hn).
  rewrite <- bpow_Z in Hlo by lia.
  assert (H1 : bpow 52 < bpow (a - e)).
  { eapply Qle_lt_trans; [exact Hlo |]. now apply Qdiv_bpow_lt. }
  apply Qpower_lt_compat_l_inv in H1; [lia | reflexivity].
Qed.

Lemma rounds_to_exponent_ge (v : Q) (n e a : Z) :
  rounds_to v n e -> bpow a <= v -> (a - 52 <= e)%Z.
Proof.
  intros (_ & _ & Hemin & Hhi & _) Hv.
  rewrite <- bpow_Z in Hhi by lia.
  assert (H1 : bpow (a - e) < bpow 53).
  { eapply Qle_lt_trans; [| exact Hhi]. now apply Qdiv_bpow_le. }
  apply Qpower_lt_compat_l_inv in H1; [lia | reflexivity].
Qed.

Lemma rounds_to_normal (v : Q) (n e : Z) :
  rounds_to v n e -> (-1074 < e)%Z -> (2 ^ 52 <= n)%Z.
Proof.
  intros (Hn & _ & _ & _ & Hlo) He. specialize (Hlo He).
  now apply (nearest_even_ge n (2 ^ 52) _ Hn).
Qed.

(** The rounded value is within half a unit of the last place. *)
Lemma rounds_to_error (v : Q) (n e : Z) :
  rounds_to v n e ->
  inject_Z n * bpow e - bpow e * (1 # 2) <= v
  /\ v <= inject_Z n * bpow e + bpow e * (1 # 2).
Proof.
  intros ([[Hlo Hhi] _] & _). pose proof (bpow_pos e) as Hb.
  pose proof (Qmult_div_bpow v e) as Ev.
  split.
  - rewrite <- Ev.
    assert (E : (inject_Z n - (1 # 2)) * bpow e
                == inject_Z n * bpow e - bpow e * (1 # 2)) by ring.
    rewrite <- E.
    apply Qmult_le_compat_r; [exact Hlo | now apply Qlt_le_weak].
  - rewrite <- Ev at 1.
    assert (E : (inject_Z n + (1 # 2)) * bpow e
                == inject_Z n * bpow e + bpow e * (1 # 2)) by ring.
    rewrite <- E.
    apply Qmult_le_compat_r; [exact Hhi | now apply Qlt_le_weak].
Qed.

(** Rounding is monotone. *)
Lemma rounds_to_mono (v1 v2 : Q) (n1 e1 n2 e2 : Z) :
  rounds_to v1 n1 e1 -> rounds_to v2 n2 e2 -> v1 <= v2 ->
  inject_Z n1 * bpow e1 <= inject_Z n2 * bpow e2.
Proof.
  intros H1 H2 Hv.
  pose proof H1 as (Hn1 & Hb1 & Hm1 & Hhi1 & Hlo1).
  pose proof H2 as (Hn2 & Hb2 & Hm2 & Hhi2 & Hlo2).
  destruct (Z.lt_trichotomy e1 e2) as [Hlt|[Heq|Hgt]].
  - assert (H52 : (2 ^ 52 <= n2)%Z) by (apply (rounds_to_normal v2 n2 e2 H2); lia).
    apply Qle_trans with (bpow (53 + e1)).
    + rewrite bpow_add, (bpow_Z 53) by lia.
      apply Qmult_le_compat_r; [| apply Qlt_le_weak, bpow_pos].
      rewrite <- Zle_Qle. lia.
    + apply Qle_trans with (bpow (52 + e2)); [apply bpow_le; lia |].
      rewrite bpow_add, (bpow_Z 52) by lia.
      apply Qmult_le_compat_r; [| apply Qlt_le_weak, bpow_pos].
      rewrite <- Zle_Qle. exact H52.
  - subst e2. apply Qmult_le_compat_r; [| apply Qlt_le_weak, bpow_pos].
    rewrite <- Zle_Qle. apply (nearest_even_mono n1 n2 _ _ Hn1 Hn2).
    now apply Qdiv_bpow_le_compat.
  - exfalso.
    assert (Hn : (-1074 < e1)%Z) by lia. specialize (Hlo1 Hn).
    rewrite <- bpow_Z in Hlo1, Hhi2 by lia.
    assert (Ha : bpow (52 + e1) <= v1).
    { rewrite bpow_add, <- (Qmult_div_bpow v1 e1).
      apply Qmult_le_compat_r; [exact Hlo1 | apply Qlt_le_weak, bpow_pos]. }
    assert (Hb : v2 < bpow (53 + e2)).
    { rewrite bpow_add, <- (Qmult_div_bpow v2 e2).
      apply Qmult_lt_compat_r; [apply bpow_pos | exact Hhi2]. }
    assert (Hc : bpow (53 + e2) <= bpow (52 + e1)) by (apply bpow_le; lia).
    lra.
Qed.

Lemma new_location_spec (b q r : Z) :
  (0 < b)%Z -> (0 <= r < b)%Z ->
  inbetween q (new_location b r) (inject_Z q + inject_Z r / inject_Z b).
Proof.
  intros Hb Hr.
  assert (HB : 0 < inject_Z b) by (change 0 with (inject_Z 0); rewrite <- Zlt_Qlt; lia).
  set (f := inject_Z r / inject_Z b).
  assert (Hf : f * inject_Z b == inject_Z r).
  { unfold f. field. apply Qnot_eq_sym, Qlt_not_eq, HB. }
  assert (H2 : inject_Z (2 * r) == 2 * inject_Z r) by (rewrite inject_Z_mult; reflexivity).
  assert (Hzero : r = 0%Z -> f == 0).
  { intros ->. unfold f. change (inject_Z 0) with 0. field.
    apply Qnot_eq_sym, Qlt_not_eq, HB. }
  assert (Hpos : (0 < r)%Z -> 0 < f).
  { intros H. apply Qlt_shift_div_l; [exact HB |]. rewrite Qmult_0_l.
    change 0 with (inject_Z 0). rewrite <- Zlt_Qlt. exact H. }
  assert (Hlt : (2 * r < b)%Z -> f < 1 # 2).
  { intros H. apply Qlt_shift_div_r; [exact HB |]. rewrite Zlt_Qlt, H2 in H. lra. }
  assert (Heq : (2 * r = b)%Z -> f == 1 # 2).
  { intros H. apply inject_Z_injective in H. rewrite H2 in H.
    apply (Qmult_inj_r _ _ (inject_Z b)); [apply Qnot_eq_sym, Qlt_not_eq, HB |].
    rewrite Hf. lra. }
  assert (Hgt : (b < 2 * r)%Z -> 1 # 2 < f).
  { intros H. apply Qlt_shift_div_l; [exact HB |]. rewrite Zlt_Qlt, H2 in H. lra. }
  assert (Hone : f < 1).
  { apply Qlt_shift_div_r; [exact HB |].
    assert (inject_Z r < inject_Z b) by (rewrite <- Zlt_Qlt; lia). lra. }
  clearbody f.
  unfold new_location, new_location_even, new_location_odd.
  change (IntDef.Z.even b) with (Z.even b).
  destruct (Z.even b) eqn:Hev; cbv beta.
  - change (IntDef.Z.eqb r 0) with (Z.eqb r 0).
    change (IntDef.Z.compare (IntDef.Z.mul 2 r) b) with (Z.compare (2 * r) b).
    destruct (Z.eqb_spec r 0) as [Hr0|Hr0]; cbn [inbetween].
    + specialize (Hzero Hr0). lra.
    + assert (Hrpos : (0 < r)%Z) by lia. specialize (Hpos Hrpos).
      destruct (Z.compare_spec (2 * r) b) as [E|E|E]; cbn [inbetween].
      * specialize (Heq E). lra.
      * specialize (Hlt E). lra.
      * specialize (Hgt E). lra.
  - change (IntDef.Z.eqb r 0) with (Z.eqb r 0).
    change (IntDef.Z.compare (IntDef.Z.add (IntDef.Z.mul 2 r) 1) b)
      with (Z.compare (2 * r + 1) b).
    destruct (Z.eqb_spec r 0) as [Hr0|Hr0]; cbn [inbetween].
    + specialize (Hzero Hr0). lra.
    + assert (Hrpos : (0 < r)%Z) by lia. specialize (Hpos Hrpos).
      assert (Hodd : (2 * r <> b)%Z).
      { intros E. rewrite <- E, Z.even_mul in Hev. discriminate Hev. }
      destruct (Z.compare_spec (2 * r + 1) b) as [E|E|E]; cbn [inbetween].
      * assert (Hl : (2 * r < b)%Z) by lia. specialize (Hlt Hl). lra.
      * assert (Hl : (2 * r < b)%Z) by lia. specialize (Hlt Hl). lra.
      * assert (Hl : (b < 2 * r)%Z) by lia. specialize (Hgt Hl). lra.
Qed.

(** The quotient of two positive integers, the first not above the
    second, as the division of floats prepares it for rounding. *)
Lemma div_core_spec (a b : positive) :
  (Zpos a <= Zpos b)%Z ->
  exists (q e : Z) (l : location),
    SFdiv_core_binary prec emax (Zpos a) 0 (Zpos b) 0 = (q, e, l)
    /\ (0 <= q)%Z
    /\ inbetween q l ((Zpos a # b) / bpow e)
    /\ (e <= fexp prec emax (Zdigits2 q + e))%Z
    /\ (fexp prec emax (Zdigits2 q + e) < 971)%Z.
Proof.
  intros Hab. unfold SFdiv_core_binary.
  set (d1 := Zdigits2 (Zpos a)). set (d2 := Zdigits2 (Zpos b)).
  destruct (Zdigits2_bounds (Zpos a)) as [[Ha1 Ha2] Hd1]; [lia |].
  destruct (Zdigits2_bounds (Zpos b)) as [[Hb1 Hb2] Hd2]; [lia |].
  fold d1 in Ha1, Ha2, Hd1. fold d2 in Hb1, Hb2, Hd2.
  assert (Hd : (d1 <= d2)%Z).
  { destruct (Z.le_gt_cases d1 d2) as [|Hgt]; [assumption | exfalso].
    assert (2 ^ d2 <= 2 ^ (d1 - 1))%Z by (apply Z.pow_le_mono_r; lia). lia. }
  set (e := Z.min (fexp prec emax (d1 + 0 - (d2 + 0))) (0 - 0)).
  assert (He : e = Z.max (d1 - d2 - 53) (-1074)).
  { unfold e. rewrite fexp_eq. lia. }
  set (s := (0 - 0 - e)%Z).
  assert (Hs : (0 < s)%Z) by lia.
  assert (Hm' : match s with
                | Zpos _ => Z.shiftl (Zpos a) s
                | 0%Z => Zpos a
                | Zneg _ => 0%Z
                end = (Zpos a * 2 ^ s)%Z).
  { destruct s as [|p|p] eqn:Es; [lia | | lia]. apply Z.shiftl_mul_pow2. lia. }
  rewrite Hm'.
  pose proof (Z_div_mod (Zpos a * 2 ^ s) (Zpos b) eq_refl) as Hdiv.
  destruct (Z.div_eucl (Zpos a * 2 ^ s) (Zpos b)) as [q r].
  destruct Hdiv as [Hqr Hr].
  assert (H2s : (0 < 2 ^ s)%Z) by (apply Z.pow_pos_nonneg; lia).
  assert (Hq : (0 <= q)%Z) by nia.
  exists q, e, (new_location (Zpos b) r).
  split; [reflexivity |]. split; [exact Hq |]. split; [| split].
  - eapply inbetween_ext; [| apply (new_location_spec (Zpos b) q r); lia].
    assert (HB : ~ inject_Z (Zpos b) == 0) by discriminate.
    assert (Hbp : bpow e * bpow s == 1).
    { rewrite <- bpow_add. replace (e + s)%Z with 0%Z by lia. reflexivity. }
    assert (Hbs : bpow s == inject_Z (2 ^ s)) by (apply bpow_Z; lia).
    assert (Hbe : ~ bpow e == 0) by (apply Qnot_eq_sym, Qlt_not_eq, bpow_pos).
    assert (Hnum : inject_Z (Zpos a) * bpow s
                   == inject_Z (Zpos b) * inject_Z q + inject_Z r).
    { rewrite Hbs, <- !inject_Z_mult, <- inject_Z_plus, Hqr. reflexivity. }
    rewrite (Qmake_Qdiv (Zpos a) b).
    apply (Qmult_inj_r _ _ (inject_Z (Zpos b) * bpow e)).
    { intros E. apply Qmult_integral in E. tauto. }
    transitivity ((inject_Z (Zpos b) * inject_Z q + inject_Z r) * bpow e);
      [field; exact HB |].
    rewrite <- Hnum.
    transitivity (inject_Z (Zpos a) * (bpow e * bpow s)); [ring |].
    rewrite Hbp. field. split; assumption.
  - destruct (Z.eq_dec e (-1074)%Z) as [E|Hne]; [rewrite fexp_eq; lia |].
    assert (Hsd : s = (53 + d2 - d1)%Z) by lia.
    assert (Hq52 : (2 ^ 52 <= q)%Z).
    { assert (Hp : (2 ^ (d1 - 1) * 2 ^ s = 2 ^ 52 * 2 ^ d2)%Z).
      { rewrite <- !Z.pow_add_r by lia. f_equal. lia. }
      assert (0 < 2 ^ d2)%Z by (apply Z.pow_pos_nonneg; lia).
      nia. }
    assert (53 <= Zdigits2 q)%Z by (apply (Zdigits2_ge q 52); lia).
    rewrite fexp_eq. lia.
  - assert (Hqs : (q <= 2 ^ s)%Z) by nia.
    assert (Hdq : (Zdigits2 q <= s + 1)%Z).
    { apply Zdigits2_le; [| lia]. rewrite Z.pow_add_r by lia. lia. }
    rewrite fexp_eq. lia.
Qed.

Lemma rounds_to_ext (v v' : Q) (n e : Z) :
  v == v' -> rounds_to v n e -> rounds_to v' n e.
Proof.
  intros E ([[Hlo Hhi] Ht] & Hn & He & Hu & Hl).
  assert (Eu : v / bpow e == v' / bpow e) by (rewrite E; reflexivity).
  unfold rounds_to, nearest_even. rewrite <- Eu. tauto.
Qed.

Lemma int_quotient_spec (a b : positive) :
  (Zpos a <= Zpos b)%Z ->
  exists n e : Z,
    int_quotient false a b = float_of_mantissa n e
    /\ rounds_to (Zpos a # b) n e
    /\ (e < 971)%Z.
Proof.
  intros Hab. unfold int_quotient.
  destruct (div_core_spec a b Hab) as (q & e & l & -> & Hq & Hin & Hfe & Hmax).
  destruct (binary_round_aux_spec q e l _ Hq Hin Hfe Hmax)
    as (n & e1 & -> & Hr & Hn & Hb & Hmin & Hhi & Hlo).
  exists n, (fexp prec emax (Zdigits2 q + e)).
  split; [exact Hr |]. split; [| exact Hmax].
  repeat split; try tauto; try lia; apply Hn.
Qed.

Lemma float_of_mantissa_shape (n e : Z) :
  (0 <= n <= 2 ^ 53)%Z -> (-1074 <= e)%Z ->
  float_of_mantissa n e = S754_zero false
  \/ exists (m : positive) (e' : Z),
       float_of_mantissa n e = S754_finite false m e'
       /\ (e <= e' <= e + 1)%Z.
Proof.
  intros Hn He. unfold float_of_mantissa. destruct n as [|p|p]; [now left | | now left].
  right. destruct (Zpos p =? 2 ^ 53)%Z; eexists _, _; (split; [reflexivity | lia]).
Qed.

Lemma hundred_value : SF2Q hundred == 100.
Proof. reflexivity. Qed.

(** The product of a float with 100.0. *)
Lemma mul_hundred_spec (x : spec_float) :
  valid_binary x = true ->
  (x = S754_zero false
   \/ exists (m : positive) (e : Z), x = S754_finite false m e /\ (e <= 900)%Z) ->
  exists n e : Z,
    SFmul prec emax x hundred = float_of_mantissa n e
    /\ rounds_to (SF2Q x * 100) n e
    /\ (e < 971)%Z.
Proof.
  intros Hvalid [->|(m & e & -> & He)].
  - exists 0%Z, (-1074)%Z. split; [reflexivity |]. split; [| lia].
    assert (E : SF2Q (S754_zero false) * 100 / bpow (-1074) == 0).
    { cbn [SF2Q]. field. apply Qnot_eq_sym, Qlt_not_eq, bpow_pos. }
    unfold rounds_to, nearest_even. rewrite E. change (inject_Z 0) with 0.
    repeat split; try lra; try lia.
  - cbn [SFmul hundred xorb].
    unfold valid_binary, bounded, canonical_mantissa in Hvalid.
    apply andb_prop in Hvalid. destruct Hvalid as [Hcan _].
    apply Z.eqb_eq in Hcan. rewrite fexp_eq in Hcan.
    change (Zpos (digits2_pos m)) with (Zdigits2 (Zpos m)) in Hcan.
    destruct (Zdigits2_bounds (Zpos m)) as [[Hm1 Hm2] Hdm]; [lia |].
    set (dm := Zdigits2 (Zpos m)) in *.
    set (hm := 7036874417766400%positive).
    assert (Hh : (2 ^ 52 <= Zpos hm < 2 ^ 53)%Z) by (unfold hm; lia).
    assert (Hp1 : (2 ^ (dm + 51) <= Zpos (m * hm))%Z).
    { replace (dm + 51)%Z with ((dm - 1) + 52)%Z by lia.
      rewrite Z.pow_add_r by lia. rewrite Pos2Z.inj_mul.
      assert (0 < 2 ^ (dm - 1))%Z by (apply Z.pow_pos_nonneg; lia). nia. }
    assert (Hp2 : (Zpos (m * hm) < 2 ^ (dm + 53))%Z).
    { rewrite Z.pow_add_r by lia. rewrite Pos2Z.inj_mul.
      assert (0 < 2 ^ dm)%Z by (apply Z.pow_pos_nonneg; lia). nia. }
    assert (Hd1 : (dm + 52 <= Zdigits2 (Zpos (m * hm)))%Z).
    { pose proof (Zdigits2_ge (Zpos (m * hm)) (dm + 51) Hp1). lia. }
    assert (Hd2 : (Zdigits2 (Zpos (m * hm)) <= dm + 53)%Z)
      by (apply Zdigits2_le; lia).
    destruct (binary_round_aux_spec (Zpos (m * hm)) (e + -46) loc_Exact
                (SF2Q (S754_finite false m e) * 100))
      as (n & e1 & -> & Hr & Hn & Hb & Hmin & Hhi & Hlo).
    + lia.
    + cbn [inbetween SF2Q]. rewrite Pos2Z.inj_mul, inject_Z_mult.
      rewrite bpow_add.
      assert (E46 : 100 == inject_Z (Zpos hm) * bpow (-46)) by reflexivity.
      rewrite E46 at 1. field.
      split; apply Qnot_eq_sym, Qlt_not_eq, bpow_pos.
    + rewrite fexp_eq. lia.
    + rewrite fexp_eq. lia.
    + exists n, (fexp prec emax (Zdigits2 (Zpos (m * hm)) + (e + -46))).
      split; [exact Hr |]. split; [| rewrite fexp_eq; lia].
      repeat split; try tauto; try lia; apply Hn.
Qed.

Lemma rounds_to_value_nonneg (v : Q) (n e : Z) :
  rounds_to v n e -> 0 <= inject_Z n * bpow e.
Proof.
  intros (_ & Hn & _). apply Qmult_le_0_compat.
  - change 0 with (inject_Z 0). rewrite <- Zle_Qle. lia.
  - apply Qlt_le_weak, bpow_pos.
Qed.

Lemma grid_point (c t e : Z) :
  (e <= t)%Z -> inject_Z c * bpow t == inject_Z (c * 2 ^ (t - e)) * bpow e.
Proof.
  intros Het. rewrite inject_Z_mult, <- bpow_Z by lia.
  rewrite <- Qmult_assoc, <- bpow_add. now replace (t - e + e)%Z with t by lia.
Qed.

(** The rounding does not cross a float: a value below a float of a
    larger or equal exponent is rounded below it, and likewise above. *)
Lemma rounds_to_le (v : Q) (n e c t : Z) :
  rounds_to v n e -> (e <= t)%Z -> v <= inject_Z c * bpow t ->
  inject_Z n * bpow e <= inject_Z c * bpow t.
Proof.
  intros (Hn & _) Het Hv. rewrite (grid_point c t e Het) in Hv |- *.
  apply Qmult_le_compat_r; [| apply Qlt_le_weak, bpow_pos].
  rewrite <- Zle_Qle. apply (nearest_even_le n _ _ Hn).
  apply Qle_shift_div_r; [apply bpow_pos | exact Hv].
Qed.

Lemma rounds_to_ge (v : Q) (n e c t : Z) :
  rounds_to v n e -> (e <= t)%Z -> inject_Z c * bpow t <= v ->
  inject_Z c * bpow t <= inject_Z n * bpow e.
Proof.
  intros (Hn & _) Het Hv. rewrite (grid_point c t e Het) in Hv |- *.
  apply Qmult_le_compat_r; [| apply Qlt_le_weak, bpow_pos].
  rewrite <- Zle_Qle. apply (nearest_even_ge n _ _ Hn).
  apply Qle_shift_div_l; [apply bpow_pos | exact Hv].
Qed.

(** A float is rounded to itself. *)
Lemma rounds_to_exact (v : Q) (n e c t : Z) :
  rounds_to v n e -> (e <= t)%Z -> v == inject_Z c * bpow t ->
  n = (c * 2 ^ (t - e))%Z.
Proof.
  intros (Hn & _) Het Hv. rewrite (grid_point c t e Het) in Hv.
  assert (Hu : v / bpow e == inject_Z (c * 2 ^ (t - e))).
  { rewrite Hv. field. apply Qnot_eq_sym, Qlt_not_eq, bpow_pos. }
  apply Z.le_antisymm.
  - apply (nearest_even_le n _ _ Hn). rewrite Hu. apply Qle_refl.
  - apply (nearest_even_ge n _ _ Hn). rewrite Hu. apply Qle_refl.
Qed.

Lemma bpow_m52 : bpow (-52) == 1 # 4503599627370496.
Proof. reflexivity. Qed.

Lemma bpow_m53 : bpow (-53) == 1 # 9007199254740992.
Proof. reflexivity. Qed.

Lemma bpow_m46 : bpow (-46) == 1 # 70368744177664.
Proof. reflexivity. Qed.

Lemma bpow_0 : bpow 0 == 1.
Proof. reflexivity. Qed.

Lemma bpow_7 : bpow 7 == 128.
Proof. reflexivity. Qed.

(** The rounding of a value between 0 and 1. *)
Lemma rounds_to_unit (v : Q) (n e : Z) :
  rounds_to v n e -> 0 <= v <= 1 ->
  0 <= inject_Z n * bpow e <= 1
  /\ (e <= -52)%Z
  /\ inject_Z n * bpow e - (1 # 9007199254740992) <= v
  /\ v <= inject_Z n * bpow e + (1 # 9007199254740992).
Proof.
  intros Hr [Hv0 Hv1].
  assert (He : (e <= -52)%Z).
  { assert (Hlt : v < bpow 1) by (change (bpow 1) with 2; lra).
    pose proof (rounds_to_exponent_le v n e 1 Hr Hlt). lia. }
  split; [split; [now apply (rounds_to_value_nonneg v) |] |].
  - assert (H1 : v <= inject_Z 1 * bpow 0)
      by (rewrite bpow_0; change (inject_Z 1) with 1; lra).
    pose proof (rounds_to_le v n e 1 0 Hr ltac:(lia) H1) as H.
    rewrite bpow_0 in H. change (inject_Z 1) with 1 in H. lra.
  - split; [exact He |].
    destruct (rounds_to_error v n e Hr) as [Hlo Hhi].
    assert (Hb : bpow e <= bpow (-52)) by (apply bpow_le; lia).
    rewrite bpow_m52 in Hb. pose proof (bpow_pos e). lra.
Qed.

(** The rounding of a value between 0 and 100. *)
Lemma rounds_to_percent (w : Q) (n e : Z) :
  rounds_to w n e -> 0 <= w <= 100 ->
  0 <= inject_Z n * bpow e <= 100
  /\ (e <= -46)%Z
  /\ inject_Z n * bpow e - (1 # 140737488355328) <= w
  /\ w <= inject_Z n * bpow e + (1 # 140737488355328).
Proof.
  intros Hr [Hw0 Hw1].
  assert (He : (e <= -46)%Z).
  { assert (Hlt : w < bpow 7) by (rewrite bpow_7; lra).
    pose proof (rounds_to_exponent_le w n e 7 Hr Hlt). lia. }
  split; [split; [now apply (rounds_to_value_nonneg w) |] |].
  - assert (H1 : w <= inject_Z 100 * bpow 0)
      by (rewrite bpow_0; change (inject_Z 100) with 100; lra).
    pose proof (rounds_to_le w n e 100 0 Hr ltac:(lia) H1) as H.
    rewrite bpow_0 in H. change (inject_Z 100) with 100 in H. lra.
  - split; [exact He |].
    destruct (rounds_to_error w n e Hr) as [Hlo Hhi].
    assert (Hb : bpow e <= bpow (-46)) by (apply bpow_le; lia).
    rewrite bpow_m46 in Hb. pose proof (bpow_pos e). lra.
Qed.

(** A positive value that is not tiny is rounded to a positive float. *)
Lemma rounds_to_positive (v : Q) (n e : Z) (a : Z) :
  rounds_to v n e -> (-1021 <= a)%Z -> bpow a <= v ->
  bpow a <= inject_Z n * bpow e.
Proof.
  intros Hr Ha Hv.
  pose proof (rounds_to_exponent_ge v n e a Hr Hv) as He.
  assert (Hn : (2 ^ 52 <= n)%Z) by (apply (rounds_to_normal v n e Hr); lia).
  apply Qle_trans with (bpow (52 + e)); [apply bpow_le; lia |].
  rewrite bpow_add, (bpow_Z 52) by lia.
  apply Qmult_le_compat_r; [| apply Qlt_le_weak, bpow_pos].
  rewrite <- Zle_Qle. exact Hn.
Qed.

(** The mantissa of a valid float. *)
Lemma valid_mantissa (m : positive) (e : Z) :
  valid_binary (S754_finite false m e) = true ->
  (Zpos m < 2 ^ 53)%Z /\ (-1074 <= e)%Z /\ ((-1074 < e)%Z -> (2 ^ 52 <= Zpos m)%Z).
Proof.
  unfold valid_binary, bounded, canonical_mantissa. intros Hv.
  apply andb_prop in Hv. destruct Hv as [Hcan _].
  apply Z.eqb_eq in Hcan. rewrite fexp_eq in Hcan.
  change (Zpos (digits2_pos m)) with (Zdigits2 (Zpos m)) in Hcan.
  destruct (Zdigits2_bounds (Zpos m)) as [[Hm1 Hm2] Hdm]; [lia |].
  split; [| split; [lia |]].
  - assert (2 ^ Zdigits2 (Zpos m) <= 2 ^ 53)%Z by (apply Z.pow_le_mono_r; lia). lia.
  - intros He. assert (E : Zdigits2 (Zpos m) = 53%Z) by lia.
    rewrite E in Hm1. exact Hm1.
Qed.

(** The order of the floats is the order of their values. *)
Lemma SFleb_value (x y : spec_float) :
  valid_binary x = true -> valid_binary y = true ->
  (x = S754_zero false \/ exists m e, x = S754_finite false m e) ->
  (y = S754_zero false \/ exists m e, y = S754_finite false m e) ->
  SF2Q x <= SF2Q y -> SFleb x y = true.
Proof.
  intros Hvx Hvy [->|(mx & ex & ->)] [->|(my & ey & ->)] Hle; try reflexivity.
  - exfalso. cbn [SF2Q] in Hle.
    assert (0 < inject_Z (Zpos mx) * bpow ex).
    { apply Qmult_lt_0_compat; [reflexivity | apply bpow_pos]. }
    lra.
  - cbn [SF2Q] in Hle.
    destruct (valid_mantissa mx ex Hvx) as (Hx1 & Hx2 & Hx3).
    destruct (valid_mantissa my ey Hvy) as (Hy1 & Hy2 & Hy3).
    unfold SFleb, SFcompare.
    destruct (Z.compare_spec ex ey) as [E|E|E]; [| reflexivity |].
    + subst ey.
      assert (Hm : (Zpos mx <= Zpos my)%Z).
      { rewrite Zle_Qle. apply (Qmult_le_r _ _ (bpow ex)); [apply bpow_pos | exact Hle]. }
      rewrite Pos.compare_cont_spec.
      destruct (Pos.compare_spec mx my); [reflexivity | reflexivity | lia].
    + exfalso.
      assert (H1 : bpow (53 + ey) <= inject_Z (Zpos mx) * bpow ex).
      { apply Qle_trans with (bpow (52 + ex)); [apply bpow_le; lia |].
        rewrite bpow_add, (bpow_Z 52) by lia.
        apply Qmult_le_compat_r; [| apply Qlt_le_weak, bpow_pos].
        rewrite <- Zle_Qle. apply Hx3. lia. }
      assert (H2 : inject_Z (Zpos my) * bpow ey < bpow (53 + ey)).
      { rewrite bpow_add, (bpow_Z 53) by lia.
        apply Qmult_lt_compat_r; [apply bpow_pos |]. rewrite <- Zlt_Qlt. exact Hy1. }
      lra.
Qed.

Lemma Prim2SF_hundred : Prim2SF 100%float = hundred.
Proof. vm_compute. reflexivity. Qed.

Lemma rounds_to_valid (v : Q) (n e : Z) :
  rounds_to v n e -> (e < 971)%Z -> valid_binary (float_of_mantissa n e) = true.
Proof.
  intros Hr He. pose proof Hr as (_ & Hn & Hmin & _).
  apply float_of_mantissa_valid; [lia | lia |].
  apply (rounds_to_normal v n e Hr).
Qed.

Lemma rounds_to_zero : rounds_to 0 0 (-1074).
Proof.
  assert (E : 0 / bpow (-1074) == 0).
  { field. apply Qnot_eq_sym, Qlt_not_eq, bpow_pos. }
  unfold rounds_to, nearest_even. rewrite E. change (inject_Z 0) with 0.
  repeat split; try lra; try lia.
Qed.

(** The two roundings of [(a / b) * 100]: the quotient of the integers
    is rounded to a float, and the product of this float with 100 is
    rounded again. *)
Lemma percent_rounding (a b : Z) :
  (0 <= a <= b)%Z -> (0 < b)%Z ->
  exists (q : float) (n e n' e' : Z),
    truediv a b = Some q
    /\ Prim2SF q = float_of_mantissa n e
    /\ rounds_to (inject_Z a / inject_Z b) n e
    /\ Prim2SF (q * 100)%float = float_of_mantissa n' e'
    /\ rounds_to (inject_Z n * bpow e * 100) n' e'
    /\ (e' < 971)%Z.
Proof.
  intros Hab Hb.
  assert (Hquot : exists n e : Z,
            truediv a b = Some (SF2Prim (float_of_mantissa n e))
            /\ rounds_to (inject_Z a / inject_Z b) n e /\ (e < 971)%Z).
  { unfold truediv. destruct (decide (b = 0%Z)) as [|_]; [lia |].
    replace (a <? 0)%Z with false by (symmetry; apply Z.ltb_ge; lia).
    replace (b <? 0)%Z with false by (symmetry; apply Z.ltb_ge; lia).
    cbn [xorb]. destruct b as [|pb|pb]; try lia. destruct a as [|pa|pa]; try lia.
    - exists 0%Z, (-1074)%Z. split; [reflexivity |]. split; [| lia].
      eapply rounds_to_ext; [| apply rounds_to_zero].
      change (inject_Z 0) with 0. field. discriminate.
    - change (Z.abs (Zpos pa)) with (Zpos pa).
      change (Z.abs (Zpos pb)) with (Zpos pb). cbv iota beta.
      destruct (int_quotient_spec pa pb) as (n & e & -> & Hr & He); [lia |].
      exists n, e. split; [| split; [| exact He]].
      + pose proof Hr as (_ & Hn & Hmin & _).
        destruct (float_of_mantissa_shape n e Hn Hmin) as [->|(m & e1 & -> & _)];
          reflexivity.
      + eapply rounds_to_ext; [| exact Hr]. apply Qmake_Qdiv. }
  destruct Hquot as (n & e & Hq & Hr & He).
  pose proof (rounds_to_valid _ n e Hr He) as Hvalid.
  assert (Hunit : 0 <= inject_Z a / inject_Z b <= 1).
  { assert (HB : 0 < inject_Z b) by (change 0 with (inject_Z 0); rewrite <- Zlt_Qlt; lia).
    split.
    - apply Qle_shift_div_l; [exact HB |]. rewrite Qmult_0_l.
      change 0 with (inject_Z 0). rewrite <- Zle_Qle. lia.
    - apply Qle_shift_div_r; [exact HB |]. rewrite Qmult_1_l.
      rewrite <- Zle_Qle. lia. }
  destruct (rounds_to_unit _ n e Hr Hunit) as (_ & He52 & _).
  destruct (mul_hundred_spec (float_of_mantissa n e) Hvalid) as (n' & e' & Hmul & Hr' & He').
  { pose proof Hr as (_ & Hn & Hmin & _).
    destruct (float_of_mantissa_shape n e Hn Hmin) as [->|(m & e1 & -> & He1)];
      [now left | right]. exists m, e1. split; [reflexivity | lia]. }
  exists (SF2Prim (float_of_mantissa n e)), n, e, n', e'.
  split; [exact Hq |]. split; [now apply Prim2SF_SF2Prim |].
  split; [exact Hr |]. split; [| split; [| exact He']].
  - rewrite mul_spec, Prim2SF_SF2Prim, Prim2SF_hundred by exact Hvalid. exact Hmul.
  - eapply rounds_to_ext; [| exact Hr'].
    pose proof Hr as (_ & Hn & _).
    rewrite float_of_mantissa_value by lia. reflexivity.
Qed.

Lemma float_of_mantissa_form (v : Q) (n e : Z) :
  rounds_to v n e ->
  float_of_mantissa n e = S754_zero false
  \/ exists (m : positive) (e' : Z), float_of_mantissa n e = S754_finite false m e'.
Proof.
  intros (_ & Hn & Hmin & _).
  destruct (float_of_mantissa_shape n e Hn Hmin) as [->|(m & e1 & -> & _)];
    [now left | right; now exists m, e1].
Qed.

Lemma rounds_to_leb (v1 v2 : Q) (n1 e1 n2 e2 : Z) :
  rounds_to v1 n1 e1 -> rounds_to v2 n2 e2 -> (e1 < 971)%Z -> (e2 < 971)%Z ->
  inject_Z n1 * bpow e1 <= inject_Z n2 * bpow e2 ->
  SFleb (float_of_mantissa n1 e1) (float_of_mantissa n2 e2) = true.
Proof.
  intros H1 H2 He1 He2 Hle.
  apply SFleb_value.
  - now apply (rounds_to_valid v1).
  - now apply (rounds_to_valid v2).
  - now apply (float_of_mantissa_form v1).
  - now apply (float_of_mantissa_form v2).
  - pose proof H1 as (_ & Hn1 & _). pose proof H2 as (_ & Hn2 & _).
    rewrite !float_of_mantissa_value by lia. exact Hle.
Qed.

Lemma Qdiv_unit (a b : Z) :
  (0 <= a <= b)%Z -> (0 < b)%Z -> 0 <= inject_Z a / inject_Z b <= 1.
Proof.
  intros Hab Hb.
  assert (HB : 0 < inject_Z b) by (change 0 with (inject_Z 0); rewrite <- Zlt_Qlt; lia).
  split.
  - apply Qle_shift_div_l; [exact HB |]. rewrite Qmult_0_l.
    change 0 with (inject_Z 0). rewrite <- Zle_Qle. lia.
  - apply Qle_shift_div_r; [exact HB |]. rewrite Qmult_1_l.
    rewrite <- Zle_Qle. lia.
Qed.

(** The percentage of [a] out of [b] items is a float between 0.0 and
    100.0, less than [2^-45] away from [100 * a / b]. *)
Lemma percent_in_range (a b : Z) :
  (0 <= a <= b)%Z -> (0 < b)%Z ->
  exists q : float,
    truediv a b = Some q
    /\ (0 <=? q * 100)%float = true
    /\ (q * 100 <=? 100)%float = true
    /\ 0 <= float_value (q * 100) <= 100
    /\ 100 * (inject_Z a / inject_Z b) - (1 # 35184372088832)
       <= float_value (q * 100)
    /\ float_value (q * 100)
       <= 100 * (inject_Z a / inject_Z b) + (1 # 35184372088832).
Proof.
  intros Hab Hb.
  destruct (percent_rounding a b Hab Hb)
    as (q & n & e & n' & e' & Hq & Hsf & Hr & Hsf' & Hr' & He').
  pose proof (Qdiv_unit a b Hab Hb) as Hunit.
  destruct (rounds_to_unit _ n e Hr Hunit) as (Hx & He & Hxlo & Hxhi).
  assert (Hw : 0 <= inject_Z n * bpow e * 100 <= 100) by lra.
  destruct (rounds_to_percent _ n' e' Hr' Hw) as (Hp & He46 & Hplo & Hphi).
  pose proof Hr' as (_ & Hn' & _).
  assert (Hval : float_value (q * 100) == inject_Z n' * bpow e').
  { unfold float_value. rewrite Hsf'. apply float_of_mantissa_value. lia. }
  exists q. split; [exact Hq |].
  split; [| split; [| split; [| split]]].
  - rewrite leb_spec, Hsf'.
    change (Prim2SF 0) with (float_of_mantissa 0 (-1074)).
    apply (rounds_to_leb 0 _ 0 (-1074) n' e' rounds_to_zero Hr'); [lia | exact He' |].
    change (inject_Z 0) with 0. lra.
  - rewrite leb_spec, Hsf', Prim2SF_hundred.
    apply SFleb_value.
    + now apply (rounds_to_valid _ n' e' Hr').
    + reflexivity.
    + now apply (float_of_mantissa_form _ n' e' Hr').
    + right. now exists 7036874417766400%positive, (-46)%Z.
    + rewrite float_of_mantissa_value by lia. rewrite hundred_value. lra.
  - rewrite Hval. exact Hp.
  - rewrite Hval. lra.
  - rewrite Hval. lra.
Qed.

(** All items out of all: the percentage is 100.0. *)
Lemma percent_full (b : Z) :
  (0 < b)%Z ->
  exists q : float, truediv b b = Some q /\ (q * 100)%float = 100%float.
Proof.
  intros Hb.
  destruct (percent_rounding b b ltac:(lia) Hb)
    as (q & n & e & n' & e' & Hq & Hsf & Hr & Hsf' & Hr' & He').
  exists q. split; [exact Hq |].
  assert (E1 : inject_Z b / inject_Z b == inject_Z 1 * bpow 0).
  { rewrite bpow_0. change (inject_Z 1) with 1. field.
    intros E. apply (inject_Z_injective b 0) in E. lia. }
  assert (He : e = (-52)%Z).
  { assert (Hlt : inject_Z b / inject_Z b < bpow 1)
      by (rewrite E1, bpow_0; reflexivity).
    assert (Hge : bpow 0 <= inject_Z b / inject_Z b)
      by (rewrite E1; change (inject_Z 1) with 1; lra).
    pose proof (rounds_to_exponent_le _ n e 1 Hr Hlt).
    pose proof (rounds_to_exponent_ge _ n e 0 Hr Hge). lia. }
  subst e.
  pose proof (rounds_to_exact _ n (-52) 1 0 Hr ltac:(lia) E1) as Hn.
  change (1 * 2 ^ (0 - -52))%Z with 4503599627370496%Z in Hn. subst n.
  assert (E2 : inject_Z 4503599627370496 * bpow (-52) * 100
               == inject_Z 7036874417766400 * bpow (-46)) by reflexivity.
  assert (He2 : e' = (-46)%Z).
  { assert (Hlt : inject_Z 4503599627370496 * bpow (-52) * 100 < bpow 7)
      by reflexivity.
    assert (Hge : bpow 6 <= inject_Z 4503599627370496 * bpow (-52) * 100)
      by (vm_compute; discriminate).
    pose proof (rounds_to_exponent_le _ n' e' 7 Hr' Hlt).
    pose proof (rounds_to_exponent_ge _ n' e' 6 Hr' Hge). lia. }
  subst e'.
  pose proof (rounds_to_exact _ n' (-46) 7036874417766400 (-46) Hr' ltac:(lia) E2) as Hn.
  change (7036874417766400 * 2 ^ (-46 - -46))%Z with 7036874417766400%Z in Hn.
  subst n'.
  apply Prim2SF_inj. rewrite Hsf'. vm_compute. reflexivity.
Qed.

(** None out of some: the percentage is 0.0. *)
Lemma percent_none (b : Z) :
  (0 < b)%Z ->
  exists q : float, truediv 0 b = Some q /\ (q * 100)%float = 0%float.
Proof.
  intros Hb. exists 0%float. split; [| vm_compute; reflexivity].
  unfold truediv. destruct (decide (b = 0%Z)) as [|_]; [lia |].
  destruct b as [|pb|pb]; try lia. reflexivity.
Qed.

(** Fewer than all out of at most [2^53] items: the percentage is below
    100.0. *)
Lemma percent_below_full (a b : Z) :
  (0 <= a < b)%Z -> (b <= 2 ^ 53)%Z ->
  exists q : float,
    truediv a b = Some q /\ float_value (q * 100) < 100.
Proof.
  intros Hab Hb.
  destruct (percent_rounding a b ltac:(lia) ltac:(lia))
    as (q & n & e & n' & e' & Hq & Hsf & Hr & Hsf' & Hr' & He').
  exists q. split; [exact Hq |].
  pose proof (Qdiv_unit a b ltac:(lia) ltac:(lia)) as Hunit.
  destruct (rounds_to_unit _ n e Hr Hunit) as (Hx & _).
  assert (HB : 0 < inject_Z b) by (change 0 with (inject_Z 0); rewrite <- Zlt_Qlt; lia).
  assert (HA : inject_Z a + 1 <= inject_Z b).
  { change 1 with (inject_Z 1). rewrite <- inject_Z_plus, <- Zle_Qle. lia. }
  assert (HB53 : inject_Z b <= 9007199254740992).
  { change 9007199254740992 with (inject_Z (2 ^ 53)). rewrite <- Zle_Qle. exact Hb. }
  assert (Hv : inject_Z a / inject_Z b
               <= inject_Z (2 ^ 53 - 1) * bpow (-53)).
  { apply Qle_shift_div_r; [exact HB |]. rewrite bpow_m53.
    change (inject_Z (2 ^ 53 - 1)) with 9007199254740991. lra. }
  assert (He : (e <= -53)%Z).
  { assert (Hlt : inject_Z a / inject_Z b < bpow 0).
    { rewrite bpow_0. apply Qlt_shift_div_r; [exact HB |]. lra. }
    pose proof (rounds_to_exponent_le _ n e 0 Hr Hlt). lia. }
  pose proof (rounds_to_le _ n e _ (-53) Hr He Hv) as Hxle.
  rewrite bpow_m53 in Hxle. change (inject_Z (2 ^ 53 - 1)) with 9007199254740991 in Hxle.
  assert (Hw : 0 <= inject_Z n * bpow e * 100 <= 100) by lra.
  destruct (rounds_to_percent _ n' e' Hr' Hw) as (_ & _ & Hplo & _).
  pose proof Hr' as (_ & Hn' & _).
  unfold float_value. rewrite Hsf', float_of_mantissa_value by lia. lra.
Qed.

(** Some out of at most [2^53] items: the percentage is above 0.0. *)
Lemma percent_above_none (a b : Z) :
  (0 < a <= b)%Z -> (b <= 2 ^ 53)%Z ->
  exists q : float,
    truediv a b = Some q /\ 0 < float_value (q * 100).
Proof.
  intros Hab Hb.
  destruct (percent_rounding a b ltac:(lia) ltac:(lia))
    as (q & n & e & n' & e' & Hq & Hsf & Hr & Hsf' & Hr' & He').
  exists q. split; [exact Hq |].
  assert (HB : 0 < inject_Z b) by (change 0 with (inject_Z 0); rewrite <- Zlt_Qlt; lia).
  assert (HA : 1 <= inject_Z a).
  { change 1 with (inject_Z 1). rewrite <- Zle_Qle. lia. }
  assert (HB53 : inject_Z b <= 9007199254740992).
  { change 9007199254740992 with (inject_Z (2 ^ 53)). rewrite <- Zle_Qle. exact Hb. }
  assert (Hv : bpow (-53) <= inject_Z a / inject_Z b).
  { apply Qle_shift_div_l; [exact HB |]. rewrite bpow_m53. lra. }
  pose proof (rounds_to_positive _ n e (-53) Hr ltac:(lia) Hv) as Hx.
  assert (Hw : bpow (-47) <= inject_Z n * bpow e * 100).
  { rewrite bpow_m53 in Hx.
    assert (E : bpow (-47) == 1 # 140737488355328) by reflexivity.
    rewrite E. lra. }
  pose proof (rounds_to_positive _ n' e' (-47) Hr' ltac:(lia) Hw) as Hp.
  pose proof Hr' as (_ & Hn' & _).
  unfold float_value. rewrite Hsf', float_of_mantissa_value by lia.
  pose proof (bpow_pos (-47)). lra.
Qed.

(** More items out of the same number: the percentage is not lower. *)
Lemma percent_monotone (a1 a2 b : Z) :
  (0 <= a1 <= a2)%Z -> (a2 <= b)%Z -> (0 < b)%Z ->
  exists q1 q2 : float,
    truediv a1 b = Some q1 /\ truediv a2 b = Some q2
    /\ (q1 * 100 <=? q2 * 100)%float = true
    /\ float_value (q1 * 100) <= float_value (q2 * 100).
Proof.
  intros Ha Hab Hb.
  destruct (percent_rounding a1 b ltac:(lia) Hb)
    as (q1 & n1 & e1 & n1' & e1' & Hq1 & Hsf1 & Hr1 & Hsf1' & Hr1' & He1').
  destruct (percent_rounding a2 b ltac:(lia) Hb)
    as (q2 & n2 & e2 & n2' & e2' & Hq2 & Hsf2 & Hr2 & Hsf2' & Hr2' & He2').
  exists q1, q2. split; [exact Hq1 |]. split; [exact Hq2 |].
  assert (HB : 0 < inject_Z b) by (change 0 with (inject_Z 0); rewrite <- Zlt_Qlt; lia).
  assert (Hv : inject_Z a1 / inject_Z b <= inject_Z a2 / inject_Z b).
  { apply Qmult_le_compat_r; [rewrite <- Zle_Qle; lia |].
    apply Qlt_le_weak, Qinv_lt_0_compat, HB. }
  pose proof (rounds_to_mono _ _ _ _ _ _ Hr1 Hr2 Hv) as Hx.
  assert (Hw : inject_Z n1 * bpow e1 * 100 <= inject_Z n2 * bpow e2 * 100) by lra.
  pose proof (rounds_to_mono _ _ _ _ _ _ Hr1' Hr2' Hw) as Hp.
  split.
  - rewrite leb_spec, Hsf1', Hsf2'.
    now apply (rounds_to_leb _ _ _ _ _ _ Hr1' Hr2').
  - pose proof Hr1' as (_ & Hn1 & _). pose proof Hr2' as (_ & Hn2 & _).
    unfold float_value. rewrite Hsf1', Hsf2', !float_of_mantissa_value by lia.
    exact Hp.
Qed.

End Binary64Facts.

(** ** The feedback *)

Section FeedbackFacts.
Context {rt : StrRuntime}.

Lemma match_count_le_total (resume_text job_description : str) :
  match_count resume_text job_description <= total job_description.
Proof. unfold match_count, total. apply subseteq_size, intersection_subseteq_l. Qed.

(** The two branches of [match_percent]. *)
Lemma match_percent_quotient (resume_text job_description : str) (q : float) :
  0 < total job_description ->
  truediv (Z.of_nat (match_count resume_text job_description))
          (Z.of_nat (total job_description)) = Some q ->
  match_percent resume_text job_description = Some (py_float (q * 100)%float).
Proof.
  intros Hpos Hq. unfold match_percent.
  destruct (decide (0 < total job_description)) as [_|Hzero]; [| contradiction].
  rewrite Hq. reflexivity.
Qed.

Lemma match_percent_zero (resume_text job_description : str) :
  total job_description = 0 ->
  match_percent resume_text job_description = Some (py_int 0).
Proof.
  intros Hz. unfold match_percent.
  destruct (decide (0 < total job_description)) as [Hpos|_]; [lia | reflexivity].
Qed.

(** With a reference token, [match_percent] is the float
    [(match_count / total) * 100], between 0.0 and 100.0 and less than
    [2^-45] away from the rational [100 * match_count / total]. *)
Lemma match_percent_float (resume_text job_description : str) :
  0 < total job_description ->
  exists q : float,
    truediv (Z.of_nat (match_count resume_text job_description))
            (Z.of_nat (total job_description)) = Some q
    /\ match_percent resume_text job_description = Some (py_float (q * 100)%float)
    /\ (0 <=? q * 100)%float = true
    /\ (q * 100 <=? 100)%float = true
    /\ (0 <= float_value (q * 100) <= 100)%Q
    /\ (100 * (inject_Z (Z.of_nat (match_count resume_text job_description))
               / inject_Z (Z.of_nat (total job_description)))
        - (1 # 35184372088832)
        <= float_value (q * 100))%Q
    /\ (float_value (q * 100)
        <= 100 * (inject_Z (Z.of_nat (match_count resume_text job_description))
                  / inject_Z (Z.of_nat (total job_description)))
           + (1 # 35184372088832))%Q.
Proof.
  intros Hpos.
  pose proof (match_count_le_total resume_text job_description) as Hle.
  destruct (percent_in_range
              (Z.of_nat (match_count resume_text job_description))
              (Z.of_nat (total job_description)))
    as (q & Hq & H0 & H100 & Hval & Hlo & Hhi); [lia | lia |].
  exists q. split; [exact Hq |].
  split; [now apply match_percent_quotient |]. tauto.
Qed.

(** [match_percent] never raises, and its value is a percentage. *)
Lemma match_percent_value (resume_text job_description : str) :
  exists p : pynum,
    match_percent resume_text job_description = Some p
    /\ (0 <= pynum_value p <= 100)%Q
    /\ match p with
       | py_int n => n = 0%Z
       | py_float x => (0 <=? x)%float = true /\ (x <=? 100)%float = true
       end.
Proof.
  destruct (decide (0 < total job_description)) as [Hpos|Hzero].
  - destruct (match_percent_float resume_text job_description Hpos)
      as (q & _ & Hp & H0 & H100 & Hval & _).
    exists (py_float (q * 100)%float). split; [exact Hp |].
    split; [exact Hval | now split].
  - exists (py_int 0). split; [apply match_percent_zero; lia |].
    split; [| reflexivity]. cbn [pynum_value]. split; discriminate.
Qed.

Lemma match_percent_some (resume_text job_description : str) :
  exists p : pynum, match_percent resume_text job_description = Some p.
Proof.
  destruct (match_percent_value resume_text job_description) as (p & Hp & _).
  now exists p.
Qed.

(** C3, amended. With a reference token the feedback computes
    [match_percent] as the float [(matched / total) * 100], where
    [matched] is the number of reference tokens found in the candidate
    and [total] the number of reference tokens: a float less than [2^-45]
    away from [100 * matched / total]; with no reference token it is the
    integer 0.  It always has a value (no division by zero), and the
    value lies between 0 and 100. *)
Theorem match_percent_spec (resume_text job_description : str) :
  (0 < size (jd_keywords job_description) ->
   exists q : float,
     truediv
       (Z.of_nat (size (jd_keywords job_description ∩ resume_words resume_text)))
       (Z.of_nat (size (jd_keywords job_description))) = Some q
     /\ match_percent resume_text job_description
        = Some (py_float (q * 100)%float)
     /\ (100 * (inject_Z (Z.of_nat
                  (size (jd_keywords job_description ∩ resume_words resume_text)))
                / inject_Z (Z.of_nat (size (jd_keywords job_description))))
         - (1 # 35184372088832)
         <= float_value (q * 100))%Q
     /\ (float_value (q * 100)
         <= 100 * (inject_Z (Z.of_nat
                     (size (jd_keywords job_description ∩ resume_words resume_text)))
                   / inject_Z (Z.of_nat (size (jd_keywords job_description))))
            + (1 # 35184372088832))%Q)
  /\ (size (jd_keywords job_description) = 0 ->
      match_percent resume_text job_description = Some (py_int 0))
  /\ exists p : pynum,
       match_percent resume_text job_description = Some p
       /\ (0 <= pynum_value p <= 100)%Q
       /\ match p with
          | py_int n => n = 0%Z
          | py_float x => (0 <=? x)%float = true /\ (x <=? 100)%float = true
          end.
Proof.
  split; [| split].
  - intros Hpos.
    destruct (match_percent_float resume_text job_description Hpos)
      as (q & Hq & Hp & _ & _ & _ & Hlo & Hhi).
    exists q. split; [exact Hq |]. split; [exact Hp |]. split; [exact Hlo | exact Hhi].
  - apply match_percent_zero.
  - apply match_percent_value.
Qed.

Lemma jd_keywords_empty (job_description : str) :
  jd_keywords job_description = ∅ <-> split (lower job_description) = [].
Proof.
  unfold jd_keywords. split.
  - intros He. destruct (split (lower job_description)) as [|kw kws]; [done |].
    exfalso. apply (not_elem_of_empty (C := gset str) kw).
    rewrite <- He. apply elem_of_list_to_set, elem_of_cons. now left.
  - now intros ->.
Qed.

Lemma missing_empty (resume_text job_description : str) :
  missing resume_text job_description = ∅
  <-> jd_keywords job_description ⊆ resume_words resume_text.
Proof.
  unfold missing. split.
  - intros He kw Hkw.
    destruct (decide (kw ∈ resume_words resume_text)) as [|Hout]; [done |].
    exfalso. apply (not_elem_of_empty (C := gset str) kw).
    rewrite <- He. now apply elem_of_difference.
  - intros Hsub. apply set_eq. intros kw. rewrite elem_of_difference.
    split; [intros [Hkw Hout]; now apply Hsub in Hkw |].
    intros Hkw. now apply not_elem_of_empty in Hkw.
Qed.

Lemma missing_same_text (text : str) : missing text text = ∅.
Proof. apply missing_empty. unfold jd_keywords, resume_words. done. Qed.

End FeedbackFacts.

Section FeedbackReport.
Context {rt : StrRuntime}.

(** The report has eight lines; only the second depends on the missing
    keywords. *)
Lemma lines_shape {order : SetOrder} (resume_text job_description : str)
  (percent : pynum) :
  match_percent resume_text job_description = Some percent ->
  lines resume_text job_description
  = Some [matches_prefix ++ str_of_round1 percent
            ++ lit "% of the job description keywords.";
          if decide (missing resume_text job_description ≠ ∅)
          then missing_prefix
               ++ join (lit ", ") (missing_listed resume_text job_description)
               ++ lit "."
          else all_present;
          lit "";
          lit "Suggestions:";
          lit "- Add relevant keywords from the job description.";
          lit "- Clearly highlight matching skills, tools, and achievements.";
          lit "- Use consistent formatting and standard section headers (e.g., Experience, Projects).";
          lit "- Keep it concise, clean, and professional."].
Proof.
  intros Hp. unfold lines. rewrite Hp. cbn [mbind option_bind].
  destruct (decide (missing resume_text job_description ≠ ∅)); reflexivity.
Qed.

(** C4. The list of missing keywords in the report has at most 20
    entries, however many reference tokens are absent from the candidate:
    it has 20 entries or all the missing ones, each of them a missing
    keyword, none twice. *)
Theorem missing_listed_at_most_20 {order : SetOrder}
  (resume_text job_description : str) :
  length (missing_listed resume_text job_description) <= 20
  /\ length (missing_listed resume_text job_description)
     = min 20 (size (missing resume_text job_description))
  /\ NoDup (missing_listed resume_text job_description)
  /\ forall kw, kw ∈ missing_listed resume_text job_description ->
                kw ∈ missing resume_text job_description.
Proof.
  unfold missing_listed.
  set (s := missing resume_text job_description).
  pose proof (set_list_perm s) as Hperm.
  assert (Hlen : length (set_list s) = size s)
    by (unfold size, set_size; simpl; now rewrite Hperm).
  split; [rewrite length_take; lia |].
  split; [rewrite length_take, Hlen; reflexivity |].
  split.
  - apply (sublist_NoDup _ (set_list s)); [| apply sublist_take].
    rewrite Hperm. apply NoDup_elements.
  - intros kw Hkw. apply elem_of_elements. rewrite <- Hperm.
    eapply subseteq_take. exact Hkw.
Qed.

(** C5, amended. For every text with at least one token, the feedback of
    the text against itself has [match_percent] 100.0 and lists no missing
    keyword. *)
Theorem feedback_same_text {order : SetOrder} (text : str) :
  split (lower text) <> [] ->
  match_percent text text = Some (py_float 100%float)
  /\ missing text text = ∅
  /\ missing_listed text text = [].
Proof.
  intros Htok.
  assert (Hmiss : missing text text = ∅) by apply missing_same_text.
  assert (Hpos : 0 < size (jd_keywords text)).
  { destruct (decide (size (jd_keywords text) = 0)) as [Hz|Hnz]; [| lia].
    apply size_empty_inv, leibniz_equiv, jd_keywords_empty in Hz. contradiction. }
  split; [| split; [exact Hmiss |]].
  - assert (Hall : match_count text text = total text).
    { unfold match_count, total. f_equal.
      unfold jd_keywords, resume_words. apply intersection_idemp_L. }
    destruct (percent_full (Z.of_nat (total text))) as (q & Hq & Hfull);
      [unfold total; lia |].
    rewrite <- Hfull. apply match_percent_quotient; [exact Hpos |].
    rewrite Hall. exact Hq.
  - unfold missing_listed. rewrite Hmiss.
    pose proof (set_list_perm (∅ : gset str)) as Hperm.
    rewrite elements_empty in Hperm. apply Permutation_nil_r in Hperm.
    now rewrite Hperm.
Qed.

(** For a text with no token the percentage is the integer 0, and there
    is still no missing keyword. *)
Lemma feedback_same_text_no_token (text : str) :
  split (lower text) = [] ->
  match_percent text text = Some (py_int 0) /\ missing text text = ∅.
Proof.
  intros Htok. split; [| apply missing_same_text].
  apply match_percent_zero. unfold total.
  apply jd_keywords_empty in Htok. rewrite Htok. apply size_empty.
Qed.

(** The line that reports that all keywords are present is none of the
    other lines of the report. *)
Lemma all_present_in_lines (percent : pynum) (second : str) :
  all_present
  ∈ [matches_prefix ++ str_of_round1 percent
       ++ lit "% of the job description keywords.";
     second;
     lit "";
     lit "Suggestions:";
     lit "- Add relevant keywords from the job description.";
     lit "- Clearly highlight matching skills, tools, and achievements.";
     lit "- Use consistent formatting and standard section headers (e.g., Experience, Projects).";
     lit "- Keep it concise, clean, and professional."]
  <-> second = all_present.
Proof.
  split.
  - intros Hin. repeat (apply elem_of_cons in Hin as [Hin|Hin]);
      try (discriminate Hin); [now symmetry |].
    now apply elem_of_nil in Hin.
  - intros ->. apply elem_of_cons. right. apply elem_of_cons. now left.
Qed.

(** C10. The feedback is a report, its lines joined by newlines, that
    holds the line saying that all keywords of the job description are
    present exactly when every reference token is a candidate token.  A
    reference text with no token is such a case: the report holds that
    line, and the percentage it reports is 0. *)
Theorem all_present_iff_subset {order : SetOrder}
  (resume_text job_description : str) :
  exists report : list str,
    lines resume_text job_description = Some report
    /\ get_resume_feedback resume_text job_description
       = Some (join [10%N] report)
    /\ (all_present ∈ report
        <-> jd_keywords job_description ⊆ resume_words resume_text)
    /\ (split (lower job_description) = [] ->
        all_present ∈ report
        /\ match_percent resume_text job_description = Some (py_int 0)).
Proof.
  destruct (match_percent_some resume_text job_description) as [percent Hp].
  eexists. split; [apply (lines_shape _ _ percent Hp) |].
  split; [unfold get_resume_feedback;
          now rewrite (lines_shape _ _ percent Hp) |].
  assert (Hiff : forall second,
    second = (if decide (missing resume_text job_description ≠ ∅)
              then missing_prefix
                   ++ join (lit ", ") (missing_listed resume_text job_description)
                   ++ lit "."
              else all_present) ->
    second = all_present
    <-> jd_keywords job_description ⊆ resume_words resume_text).
  { intros second ->. rewrite <- missing_empty.
    destruct (decide (missing resume_text job_description ≠ ∅)) as [Hne|He].
    - split; [intros Hd; discriminate Hd | intros He; contradiction].
    - split; [intros _ | reflexivity].
      destruct (decide (missing resume_text job_description = ∅)); [done |].
      contradiction. }
  split.
  - rewrite all_present_in_lines. now apply Hiff.
  - intros Htok. apply jd_keywords_empty in Htok. split.
    + rewrite all_present_in_lines. apply (Hiff _ eq_refl).
      rewrite Htok. apply empty_subseteq.
    + apply match_percent_zero. unfold total. rewrite Htok. apply size_empty.
Qed.

End FeedbackReport.

(** ** The feedback and the enumeration order of the missing keywords *)

Section FeedbackOrder.
Context {rt : StrRuntime}.

(** Two enumerations of a set with at most one element are equal. *)
Lemma set_list_small (order1 order2 : SetOrder) (s : gset str) :
  size s <= 1 -> @set_list order1 s = @set_list order2 s.
Proof.
  intros Hsize.
  pose proof (@set_list_perm order1 s) as H1.
  pose proof (@set_list_perm order2 s) as H2.
  unfold size, set_size in Hsize. simpl in Hsize.
  destruct (elements s) as [|x [|y l]]; simpl in Hsize; [| | lia].
  - apply Permutation_nil_r in H1, H2. congruence.
  - apply Permutation_singleton_r in H1, H2. congruence.
Qed.

(** C8, amended. The text of the feedback is determined by the two texts
    and by the order in which the set of missing keywords is enumerated.
    Two runs on the same texts produce the same text when they enumerate
    that set alike, which is always so when at most one keyword is
    missing; in every case their reports have the same lines except for
    the second, and when at most 20 keywords are missing they list the
    same keywords up to order. *)
Theorem get_resume_feedback_up_to_set_order
  (order1 order2 : SetOrder) (resume_text job_description : str) :
  (@set_list order1 (missing resume_text job_description)
   = @set_list order2 (missing resume_text job_description) ->
   @get_resume_feedback rt order1 resume_text job_description
   = @get_resume_feedback rt order2 resume_text job_description)
  /\ (size (missing resume_text job_description) <= 1 ->
      @get_resume_feedback rt order1 resume_text job_description
      = @get_resume_feedback rt order2 resume_text job_description)
  /\ (exists report1 report2 : list str,
        @lines rt order1 resume_text job_description = Some report1
        /\ @lines rt order2 resume_text job_description = Some report2
        /\ length report1 = length report2
        /\ forall i, i <> 1 -> report1 !! i = report2 !! i)
  /\ (size (missing resume_text job_description) <= 20 ->
      @missing_listed rt order1 resume_text job_description
      ≡ₚ @missing_listed rt order2 resume_text job_description).
Proof.
  destruct (match_percent_some resume_text job_description) as [percent Hp].
  assert (Hsame :
    @set_list order1 (missing resume_text job_description)
    = @set_list order2 (missing resume_text job_description) ->
    @get_resume_feedback rt order1 resume_text job_description
    = @get_resume_feedback rt order2 resume_text job_description).
  { intros Heq. unfold get_resume_feedback.
    rewrite (@lines_shape rt order1 _ _ percent Hp).
    rewrite (@lines_shape rt order2 _ _ percent Hp).
    unfold missing_listed. now rewrite Heq. }
  split; [exact Hsame |]. split; [| split].
  - intros Hsize. apply Hsame. now apply set_list_small.
  - do 2 eexists.
    split; [apply (@lines_shape rt order1 _ _ percent Hp) |].
    split; [apply (@lines_shape rt order2 _ _ percent Hp) |].
    split; [reflexivity |].
    intros [|[|i]] Hi; [reflexivity | contradiction | reflexivity].
  - intros Hsize. unfold missing_listed.
    pose proof (@set_list_perm order1 (missing resume_text job_description)) as H1.
    pose proof (@set_list_perm order2 (missing resume_text job_description)) as H2.
    rewrite !take_ge.
    + now rewrite H1, H2.
    + rewrite H2. exact Hsize.
    + rewrite H1. exact Hsize.
Qed.

End FeedbackOrder.

(** ** Examples *)

(** Candidate A has two of the five reference tokens, candidate B none. *)
Example match_percent_scenario :
  @match_percent Fixture.ascii_runtime
    (lit "experienced python developer") Fixture.reference
  = Some (py_float 40%float)
  /\ @match_percent Fixture.ascii_runtime
       (lit "java backend engineer") Fixture.reference
     = Some (py_float 0%float).
Proof. split; vm_compute; reflexivity. Qed.

(** The true division of [int]s agrees with the division of the floats
    of the two [int]s, and 7 out of 25 is a float above 28. *)
Remark binary64_percent_7_of_25 :
  truediv 7 25 = Some (7 / 25)%float
  /\ (7 / 25 * 100)%float = next_up 28%float.
Proof. split; vm_compute; reflexivity. Qed.

(** On the quotients of the numbers below 64, the true division of
    [int]s is the division of their floats. *)
Example truediv_float_division :
  forallb
    (fun a =>
       forallb
         (fun b =>
            match truediv a b with
            | Some q => PrimFloat.Leibniz.eqb q (Fixture.float_division a b)
            | None => false
            end)
         (Z.of_nat <$> seq 1 63))
    (Z.of_nat <$> seq 0 64)
  = true.
Proof. vm_compute. reflexivity. Qed.

(** The report for an empty job description: the percentage is printed as
    the integer 0, and the second line says that all keywords are present. *)
Example lines_empty_reference :
  @lines Fixture.ascii_runtime Fixture.forward_order
    (lit "experienced python developer") (lit "")
  = Some [matches_prefix ++ lit "0% of the job description keywords.";
          all_present;
          lit "";
          lit "Suggestions:";
          lit "- Add relevant keywords from the job description.";
          lit "- Clearly highlight matching skills, tools, and achievements.";
          lit "- Use consistent formatting and standard section headers (e.g., Experience, Projects).";
          lit "- Keep it concise, clean, and professional."].
Proof. vm_compute. reflexivity. Qed.

(** C5, amended, at the reference text of the fixture. *)
Lemma feedback_same_text_witness :
  @match_percent Fixture.ascii_runtime Fixture.reference Fixture.reference
  = Some (py_float 100%float)
  /\ @missing Fixture.ascii_runtime Fixture.reference Fixture.reference = ∅
  /\ @missing_listed Fixture.ascii_runtime Fixture.forward_order
       Fixture.reference Fixture.reference = [].
Proof.
  apply (@feedback_same_text Fixture.ascii_runtime Fixture.forward_order).
  vm_compute. discriminate.
Defined.

(** C5 as stated fails for the empty text: the feedback of the empty text
    against itself reports the integer 0, not 100.0. *)
Lemma feedback_same_text_empty :
  @match_percent Fixture.ascii_runtime (lit "") (lit "") = Some (py_int 0)
  /\ @match_percent Fixture.ascii_runtime (lit "") (lit "")
     <> Some (py_float 100%float).
Proof.
  assert (Hzero :
    @match_percent Fixture.ascii_runtime (lit "") (lit "") = Some (py_int 0)).
  { apply (@feedback_same_text_no_token Fixture.ascii_runtime). reflexivity. }
  split; [exact Hzero |]. rewrite Hzero. discriminate.
Qed.

(** C3 as stated fails in the last place: with 7 of the 25 reference
    tokens in the candidate, [match_percent] is the float next above 28,
    which is [2^-48] more than [100 * 7 / 25]. *)
Lemma match_percent_not_exact :
  let job_description :=
    lit "a b c d e f g h i j k l m n o p q r s t u v w x y" in
  let resume_text := lit "a b c d e f g" in
  size (@jd_keywords Fixture.ascii_runtime job_description) = 25
  /\ size (@jd_keywords Fixture.ascii_runtime job_description
           ∩ @resume_words Fixture.ascii_runtime resume_text) = 7
  /\ @match_percent Fixture.ascii_runtime resume_text job_description
     = Some (py_float (next_up 28))
  /\ (pynum_value (py_float (next_up 28))
      == 100 * (7 # 25) + (1 # 281474976710656))%Q
  /\ ~ (pynum_value (py_float (next_up 28)) == 100 * (7 # 25))%Q.
Proof.
  cbv zeta. split; [vm_compute; reflexivity |].
  split; [vm_compute; reflexivity |].
  split; [vm_compute; reflexivity |].
  split; [reflexivity | discriminate].
Qed.

(** C8 as stated fails: with the same two texts, two enumeration orders of
    the set of missing keywords give two different feedback texts. *)
Lemma feedback_depends_on_set_order :
  @get_resume_feedback Fixture.ascii_runtime Fixture.forward_order
    (lit "java") (lit "python sql")
  <> @get_resume_feedback Fixture.ascii_runtime Fixture.backward_order
       (lit "java") (lit "python sql").
Proof. vm_compute. intros E. discriminate E. Qed.

(** ** The timestamp *)

Section Timestamp.

Lemma digits_fuel_is_digit (fuel : nat) (n : N) (acc : str) :
  Forall (fun c => is_digit c = true) acc ->
  Forall (fun c => is_digit c = true) (digits_fuel fuel n acc).
Proof.
  revert n acc. induction fuel as [|fuel IH]; intros n acc Hacc; simpl; [done |].
  assert (Hhead : Forall (fun c => is_digit c = true) ((48 + n mod 10)%N :: acc)).
  { constructor; [| exact Hacc]. unfold is_digit.
    assert (Hlt : (n mod 10 < 10)%N) by (now apply N.mod_upper_bound).
    revert Hlt. generalize (n mod 10)%N. intros r Hlt.
    apply andb_true_intro. split; apply N.leb_le; lia. }
  destruct (n <? 10)%N; [exact Hhead | now apply IH].
Qed.

Lemma digits_fuel_length (k fuel : nat) (n : N) (acc : str) :
  (n < 10 ^ N.of_nat (S k))%N ->
  length (digits_fuel fuel n acc) <= S k + length acc.
Proof.
  revert k n acc. induction fuel as [|fuel IH]; intros k n acc Hn; simpl; [lia |].
  destruct (n <? 10)%N eqn:Hsmall; [simpl; lia |].
  apply N.ltb_ge in Hsmall. destruct k as [|k].
  - change (10 ^ N.of_nat 1)%N with 10%N in Hn. lia.
  - etransitivity; [apply (IH k) |]; [| simpl; lia].
    rewrite Nat2N.inj_succ, N.pow_succ_r' in Hn.
    apply N.Div0.div_lt_upper_bound. exact Hn.
Qed.

Lemma zero_pad_is_digit (width : nat) (n : N) :
  Forall (fun c => is_digit c = true) (zero_pad width n).
Proof.
  unfold zero_pad, digits. apply Forall_app. split.
  - apply Forall_replicate. reflexivity.
  - apply digits_fuel_is_digit. constructor.
Qed.

Lemma zero_pad_length (k : nat) (n : N) :
  (n < 10 ^ N.of_nat (S k))%N -> length (zero_pad (S k) n) = S k.
Proof.
  intros Hn.
  assert (Hlen : length (digits n) <= S k).
  { unfold digits. etransitivity; [now apply (digits_fuel_length k) |].
    simpl. lia. }
  unfold zero_pad. rewrite length_app, length_replicate.
  unfold char in *. lia.
Qed.

(** A number below 100 is padded to two digits, a number below 10000 to
    four. *)
Lemma zero_pad_2 (n : N) :
  (n < 100)%N ->
  exists a b, zero_pad 2 n = [a; b] /\ is_digit a = true /\ is_digit b = true.
Proof.
  intros Hn. pose proof (zero_pad_length 1 n Hn) as Hlen.
  pose proof (zero_pad_is_digit 2 n) as Hdig.
  destruct (zero_pad 2 n) as [|a [|b [|c l]]]; try discriminate Hlen.
  exists a, b. inversion Hdig as [|? ? Ha Hrest]; subst.
  inversion Hrest; subst. done.
Qed.

Lemma zero_pad_4 (n : N) :
  (n < 10000)%N ->
  exists a b c d,
    zero_pad 4 n = [a; b; c; d]
    /\ is_digit a = true /\ is_digit b = true
    /\ is_digit c = true /\ is_digit d = true.
Proof.
  intros Hn. pose proof (zero_pad_length 3 n Hn) as Hlen.
  pose proof (zero_pad_is_digit 4 n) as Hdig.
  destruct (zero_pad 4 n) as [|a [|b [|c [|d [|e l]]]]]; try discriminate Hlen.
  exists a, b, c, d.
  inversion Hdig as [|? ? Ha H1]; subst.
  inversion H1 as [|? ? Hb H2]; subst.
  inversion H2 as [|? ? Hc H3]; subst.
  inversion H3; subst. done.
Qed.

(** The text of a wall clock reading has the form [YYYY-MM-DD HH:MM:SS]. *)
Lemma strftime_format (t : datetime) :
  wall_clock t -> timestamp_format (strftime t).
Proof.
  intros (Hy & Hmo & Hd & Hh & Hmi & Hs).
  unfold timestamp_format, strftime.
  destruct (zero_pad_4 (year t)) as (y1 & y2 & y3 & y4 & -> & ? & ? & ? & ?); [lia |].
  destruct (zero_pad_2 (month t)) as (m1 & m2 & -> & ? & ?); [lia |].
  destruct (zero_pad_2 (day t)) as (d1 & d2 & -> & ? & ?); [lia |].
  destruct (zero_pad_2 (hour t)) as (h1 & h2 & -> & ? & ?); [lia |].
  destruct (zero_pad_2 (minute t)) as (i1 & i2 & -> & ? & ?); [lia |].
  destruct (zero_pad_2 (second t)) as (s1 & s2 & -> & ? & ?); [lia |].
  cbn. repeat match goal with Hd : is_digit _ = true |- _ => rewrite Hd; clear Hd end.
  reflexivity.
Qed.

End Timestamp.

(** ** The logger *)

Section LoggerFacts.
Context {env : Env}.

(** The loop appends one row per entry, stamped with successive readings
    of the clock, and changes nothing else. *)
Lemma for_each_append_rows (data : list (str * float)) (w : world) :
  (for_each data (fun row =>
     now ← datetime_now; append_row (logged_row row now)) w).2
  = {| sheet1 := sheet1 w
                 ++ imap (fun i entry =>
                            logged_row entry (now_at (clock_reads w + i))) data;
       clock_reads := clock_reads w + length data |}.
Proof.
  revert w. induction data as [|entry data IH]; intros [rows reads].
  - cbn. now rewrite app_nil_r, Nat.add_0_r.
  - cbn [for_each]. unfold mbind at 1, io_bind.
    unfold mbind at 1, io_bind. cbn [datetime_now append_row sheet1 clock_reads].
    rewrite IH. cbn [sheet1 clock_reads length imap].
    rewrite <- app_assoc. cbn [app]. rewrite Nat.add_0_r. f_equal.
    + do 2 f_equal. apply imap_ext. intros i e _. cbn.
      now rewrite Nat.add_succ_r.
    + lia.
Qed.

(** C9. For every ranking, the logger appends exactly one row per entry,
    in the order of the ranking, below the rows the sheet already has,
    which it leaves as they are; the row of an entry holds its name, its
    score rounded to four decimals, and, the clock being a wall clock, a
    timestamp of the form [YYYY-MM-DD HH:MM:SS]. *)
Theorem save_results_appends_rows (data : list (str * float)) (w : world) :
  (forall k, wall_clock (now_at k)) ->
  let w' := (save_results_to_gsheet data w).2 in
  sheet1 w'
  = sheet1 w ++ imap (fun i entry =>
                        logged_row entry (now_at (clock_reads w + i))) data
  /\ length (sheet1 w') = length (sheet1 w) + length data
  /\ (forall i r, sheet1 w !! i = Some r -> sheet1 w' !! i = Some r)
  /\ (forall i entry, data !! i = Some entry ->
        exists stamp : str,
          sheet1 w' !! (length (sheet1 w) + i)
          = Some [cell_str entry.1;
                  cell_num (round_ndigits entry.2 4);
                  cell_str stamp]
          /\ timestamp_format stamp).
Proof.
  intros Hclock. cbv zeta.
  assert (Hrows : sheet1 (save_results_to_gsheet data w).2
    = sheet1 w ++ imap (fun i entry =>
                          logged_row entry (now_at (clock_reads w + i))) data).
  { unfold save_results_to_gsheet, connect_to_gsheet.
    unfold mbind at 1, io_bind, mret, io_ret.
    now rewrite for_each_append_rows. }
  split; [exact Hrows |]. rewrite Hrows. split; [| split].
  - now rewrite length_app, length_imap.
  - intros i r Hi. now apply lookup_app_l_Some.
  - intros i entry Hi. exists (strftime (now_at (clock_reads w + i))). split.
    + rewrite lookup_app_r by apply Nat.le_add_r.
      rewrite (Nat.add_comm _ i), Nat.add_sub.
      rewrite list_lookup_imap, Hi. reflexivity.
    + apply strftime_format, Hclock.
Qed.

End LoggerFacts.

Lemma test_now_wall_clock (k : nat) : wall_clock (Fixture.test_now k).
Proof.
  unfold wall_clock, Fixture.test_now; simpl.
  assert (Hlt : (N.of_nat k mod 60 < 60)%N) by (now apply N.mod_upper_bound).
  revert Hlt. generalize (N.of_nat k mod 60)%N. intros r Hlt. lia.
Qed.

(** The two rows logged for a ranking of two entries in the test
    environment, below a row that was there before. *)
Example save_results_fixture :
  sheet1 (@save_results_to_gsheet Fixture.test_env
            [(lit "C", 1%float); (lit "A", 0.25%float)]
            {| sheet1 := [[cell_str (lit "header")]]; clock_reads := 7 |}).2
  = [[cell_str (lit "header")];
     [cell_str (lit "C"); cell_num 1%float; cell_str (lit "2024-05-17 09:30:07")];
     [cell_str (lit "A"); cell_num 0.25%float; cell_str (lit "2024-05-17 09:30:08")]].
Proof. vm_compute. reflexivity. Qed.

(** C9 at the ranking of the fixture, logged below one earlier row. *)
Lemma save_results_appends_rows_witness :
  let data := [(lit "C", 1%float); (lit "A", 0.25%float)] in
  let w := {| sheet1 := [[cell_str (lit "header")]]; clock_reads := 7 |} in
  let w' := (@save_results_to_gsheet Fixture.test_env data w).2 in
  sheet1 w'
  = sheet1 w ++ imap (fun i entry =>
                        @logged_row Fixture.test_env entry
                          (Fixture.test_now (clock_reads w + i))) data
  /\ length (sheet1 w') = length (sheet1 w) + length data
  /\ (forall i r, sheet1 w !! i = Some r -> sheet1 w' !! i = Some r)
  /\ (forall i entry, data !! i = Some entry ->
        exists stamp : str,
          sheet1 w' !! (length (sheet1 w) + i)
          = Some [cell_str entry.1; cell_num entry.2; cell_str stamp]
          /\ timestamp_format stamp).
Proof.
  exact (@save_results_appends_rows Fixture.test_env
           [(lit "C", 1%float); (lit "A", 0.25%float)]
           {| sheet1 := [[cell_str (lit "header")]]; clock_reads := 7 |}
           test_now_wall_clock).
Defined.

(** * Part III: facts about the rest of the program *)

(** ** The ranking does not depend on the insertion order, ties apart *)

Section FloatAntisym.

Ltac sf_cases :=
  repeat match goal with
  | |- context [Z.compare ?a ?b] => destruct (Z.compare_spec a b)
  | Hc : context [Z.compare ?a ?b] |- _ => destruct (Z.compare_spec a b)
  | |- context [Pos.compare_cont Eq ?a ?b] =>
      change (Pos.compare_cont Eq a b) with (Pos.compare a b);
      destruct (Pos.compare_spec a b)
  | Hc : context [Pos.compare_cont Eq ?a ?b] |- _ =>
      change (Pos.compare_cont Eq a b) with (Pos.compare a b) in Hc;
      destruct (Pos.compare_spec a b)
  end; simpl in *; try congruence; try lia.

Lemma SFleb_antisym (a b : spec_float) :
  SFleb a b = true -> SFleb b a = true -> SFeqb a b = true.
Proof.
  unfold SFleb, SFeqb, SFcompare.
  destruct a as [[]|[]| |[] ? ?], b as [[]|[]| |[] ? ?];
    simpl; try congruence; intros; sf_cases.
Qed.

Lemma float_ge_antisym (x y : float) :
  float_ge x y = true -> float_ge y x = true -> float_eq x y = true.
Proof.
  unfold float_ge, float_eq.
  rewrite !FloatAxioms.leb_spec, FloatAxioms.eqb_spec. intros Hxy Hyx.
  now apply SFleb_antisym.
Qed.

Lemma SFeqb_SFleb (a b : spec_float) : SFeqb a b = true -> SFleb b a = true.
Proof.
  unfold SFleb, SFeqb, SFcompare.
  destruct a as [[]|[]| |[] ? ?], b as [[]|[]| |[] ? ?];
    simpl; try congruence; intros; sf_cases.
Qed.

(** A float that is a number is at least itself. *)
Lemma float_ge_refl (x : float) : is_nan x = false -> float_ge x x = true.
Proof.
  unfold is_nan, float_ge. rewrite FloatAxioms.eqb_spec, FloatAxioms.leb_spec.
  intros Hx. apply SFeqb_SFleb. now destruct (SFeqb (Prim2SF x) (Prim2SF x)).
Qed.

End FloatAntisym.

Section SortUnique.
Context {A : Type} (key : A -> float).

Lemma descending_head_ge (x : A) (l : list A) (b : A) :
  descending key (x :: l) -> b ∈ l -> float_ge (key x) (key b) = true.
Proof.
  unfold descending. intros Hs Hb. apply StronglySorted_inv in Hs as [_ Hx].
  rewrite Forall_forall in Hx. now apply Hx.
Qed.

(** Two descending arrangements of the same elements are equal when no
    two different elements have equal keys. *)
Lemma descending_perm_unique (l1 l2 : list A) :
  descending key l1 -> descending key l2 -> l1 ≡ₚ l2 ->
  (forall a b, a ∈ l1 -> b ∈ l1 -> float_eq (key a) (key b) = true -> a = b) ->
  l1 = l2.
Proof.
  revert l2. induction l1 as [|x l1 IH]; intros l2 Hs1 Hs2 Hperm Hties.
  - now apply Permutation_nil_l in Hperm.
  - destruct l2 as [|y l2]; [now apply Permutation_nil_r in Hperm |].
    assert (Hxy : x = y).
    { assert (Hx : x ∈ y :: l2) by (rewrite <- Hperm; apply elem_of_cons; now left).
      assert (Hy : y ∈ x :: l1) by (rewrite Hperm; apply elem_of_cons; now left).
      apply elem_of_cons in Hx as [Hx|Hx]; [exact Hx |].
      apply elem_of_cons in Hy as [Hy|Hy]; [now symmetry |].
      apply Hties.
      - apply elem_of_cons. now left.
      - apply elem_of_cons. now right.
      - apply float_ge_antisym.
        + now apply (descending_head_ge x l1 y).
        + now apply (descending_head_ge y l2 x). }
    subst y. f_equal. apply IH.
    + unfold descending in *. now apply StronglySorted_inv in Hs1 as [Hs1 _].
    + unfold descending in *. now apply StronglySorted_inv in Hs2 as [Hs2 _].
    + now apply Permutation_cons_inv in Hperm.
    + intros a b Ha Hb. apply Hties; apply elem_of_cons; now right.
Qed.

End SortUnique.

Section RankerMore.
Context {provider : Embedder}.

Lemma rankings_perm (job_description : str) (texts1 texts2 : dict str str) :
  items texts1 ≡ₚ items texts2 ->
  rankings job_description texts1 ≡ₚ rankings job_description texts2.
Proof. intros Hperm. rewrite !rankings_fmap. now apply fmap_Permutation. Qed.

(** X1. Two mappings with the same items, inserted in different orders,
    get the same ranking when all scores are different numbers. *)
Theorem rank_resumes_insertion_order
  (job_description : str) (texts1 texts2 : dict str str) :
  items texts1 ≡ₚ items texts2 ->
  Forall (fun e => is_nan e.2 = false) (rankings job_description texts1) ->
  (forall e1 e2,
     e1 ∈ rankings job_description texts1 ->
     e2 ∈ rankings job_description texts1 ->
     float_eq e1.2 e2.2 = true -> e1 = e2) ->
  rank_resumes job_description texts1 = rank_resumes job_description texts2.
Proof.
  intros Hperm Hnan Hties.
  pose proof (rankings_perm job_description _ _ Hperm) as Hrk.
  apply (descending_perm_unique snd).
  - now apply sorted_reverse_descending.
  - apply sorted_reverse_descending. now rewrite <- Hrk.
  - now rewrite !rank_resumes_perm.
  - intros a b Ha Hb. rewrite rank_resumes_perm in Ha, Hb. now apply Hties.
Qed.

(** X2. When no score is a NaN, the first entry of the ranking is a best
    match: its score is at least the score of every candidate. *)
Theorem rank_resumes_head_is_best
  (job_description : str) (resume_texts : dict str str)
  (best : str * float) (rest : list (str * float)) :
  Forall (fun e => is_nan e.2 = false) (rankings job_description resume_texts) ->
  rank_resumes job_description resume_texts = best :: rest ->
  forall name text,
    (name, text) ∈ items resume_texts ->
    float_ge best.2 (cos_sim (encode job_description) (encode text)) = true.
Proof.
  intros Hnan Hrank name text Hin.
  assert (Hentry : (name, cos_sim (encode job_description) (encode text))
                   ∈ rank_resumes job_description resume_texts).
  { apply rank_resumes_entry. now exists text. }
  pose proof (sorted_reverse_descending snd _ Hnan) as Hdesc.
  fold (rank_resumes job_description resume_texts) in Hdesc.
  rewrite Hrank in Hentry, Hdesc.
  apply elem_of_cons in Hentry as [<-|Hentry].
  - simpl. apply float_ge_refl.
    rewrite Forall_forall in Hnan.
    apply (Hnan (name, cos_sim (encode job_description) (encode text))).
    rewrite rankings_fmap. apply list_elem_of_fmap. now exists (name, text).
  - exact (descending_head_ge snd best rest _ Hdesc Hentry).
Qed.

End RankerMore.

(** X1 at two candidates inserted in both orders. *)
Lemma rank_resumes_insertion_order_witness :
  @rank_resumes Fixture.word_count_embedder Fixture.reference Sample.two_candidates
  = @rank_resumes Fixture.word_count_embedder Fixture.reference
      Sample.two_candidates_swapped.
Proof.
  apply (@rank_resumes_insertion_order Fixture.word_count_embedder).
  - apply Permutation_swap.
  - vm_compute. repeat constructor.
  - intros e1 e2 H1 H2.
    assert (Hr : @rankings Fixture.word_count_embedder Fixture.reference
                   Sample.two_candidates
                 = [(lit "A", 0.25%float); (lit "C", 1%float)])
      by (vm_compute; reflexivity).
    rewrite Hr in H1, H2.
    repeat (apply elem_of_cons in H1 as [->|H1]);
      repeat (apply elem_of_cons in H2 as [->|H2]);
      try (now apply elem_of_nil in H1); try (now apply elem_of_nil in H2);
      try reflexivity; vm_compute; discriminate.
Defined.

(** X2 at the fixture: C, the first of the ranking, is at least as good as
    B. *)
Lemma rank_resumes_head_is_best_witness :
  float_ge 1%float
    (@cos_sim Fixture.word_count_embedder
       (@encode Fixture.word_count_embedder Fixture.reference)
       (@encode Fixture.word_count_embedder (lit "java backend engineer")))
  = true.
Proof.
  apply (@rank_resumes_head_is_best Fixture.word_count_embedder
           Fixture.reference Fixture.candidates
           (lit "C", 1%float)
           [(lit "A", 0.25%float); (lit "B", 0.25%float)])
    with (name := lit "B").
  - vm_compute. repeat constructor.
  - vm_compute. reflexivity.
  - unfold items, Fixture.candidates.
    apply elem_of_cons. right. apply elem_of_cons. now left.
Defined.

(** ** The feedback: matched and missing keywords *)

Section FeedbackMore.
Context {rt : StrRuntime}.

(** X3. Every reference token is either matched or missing: the number of
    matched tokens and the number of missing tokens add up to the number
    of reference tokens. *)
Theorem matched_plus_missing (resume_text job_description : str) :
  match_count resume_text job_description
  + size (missing resume_text job_description)
  = total job_description.
Proof.
  unfold match_count, missing, total.
  pose proof (size_difference_alt (jd_keywords job_description)
                (resume_words resume_text)) as Hdiff.
  rewrite Hdiff.
  pose proof (subseteq_size (jd_keywords job_description ∩ resume_words resume_text)
                (jd_keywords job_description) (intersection_subseteq_l _ _)).
  lia.
Qed.

Lemma py_float_inj (a b : float) : Some (py_float a) = Some (py_float b) -> a = b.
Proof. intros E. now injection E. Qed.

Lemma float_value_100 : (float_value 100 == 100)%Q.
Proof. reflexivity. Qed.

Lemma float_value_0 : (float_value 0 == 0)%Q.
Proof. reflexivity. Qed.

(** X4. When the job description has a token, and no more than [2^53] of
    them, the percentage is 100.0 exactly when every reference token is in
    the resume, and 0.0 exactly when none is. *)
Theorem match_percent_extremes (resume_text job_description : str) :
  0 < total job_description ->
  (Z.of_nat (total job_description) <= 2 ^ 53)%Z ->
  (match_percent resume_text job_description = Some (py_float 100%float)
   <-> jd_keywords job_description ⊆ resume_words resume_text)
  /\ (match_percent resume_text job_description = Some (py_float 0%float)
      <-> jd_keywords job_description ∩ resume_words resume_text = ∅).
Proof.
  intros Hpos Hsize.
  pose proof (match_count_le_total resume_text job_description) as Hle.
  split; split.
  - intros E.
    assert (Hall : match_count resume_text job_description = total job_description).
    { destruct (decide (match_count resume_text job_description
                        = total job_description)) as [|Hne]; [assumption |].
      exfalso.
      destruct (percent_below_full
                  (Z.of_nat (match_count resume_text job_description))
                  (Z.of_nat (total job_description)))
        as (q & Hq & Hlt); [lia | exact Hsize |].
      rewrite (match_percent_quotient _ _ q Hpos Hq) in E.
      apply py_float_inj in E. rewrite E, float_value_100 in Hlt.
      now apply Qlt_irrefl in Hlt. }
    unfold match_count, total in Hall.
    apply subseteq_intersection_2_L.
    apply set_subseteq_size_eq; [apply intersection_subseteq_l | lia].
  - intros Hsub.
    assert (Hall : match_count resume_text job_description = total job_description)
      by (unfold match_count, total;
          now rewrite (subseteq_intersection_1_L _ _ Hsub)).
    destruct (percent_full (Z.of_nat (total job_description))) as (q & Hq & Hfull);
      [lia |].
    rewrite <- Hfull. apply match_percent_quotient; [exact Hpos |].
    rewrite Hall. exact Hq.
  - intros E.
    assert (Hno : match_count resume_text job_description = 0).
    { destruct (decide (match_count resume_text job_description = 0))
        as [|Hne]; [assumption |].
      exfalso.
      destruct (percent_above_none
                  (Z.of_nat (match_count resume_text job_description))
                  (Z.of_nat (total job_description)))
        as (q & Hq & Hgt); [lia | exact Hsize |].
      rewrite (match_percent_quotient _ _ q Hpos Hq) in E.
      apply py_float_inj in E. rewrite E, float_value_0 in Hgt.
      now apply Qlt_irrefl in Hgt. }
    unfold match_count in Hno.
    apply leibniz_equiv, size_empty_inv. lia.
  - intros He.
    assert (Hno : match_count resume_text job_description = 0)
      by (unfold match_count; rewrite He; apply size_empty).
    destruct (percent_none (Z.of_nat (total job_description))) as (q & Hq & Hnone);
      [lia |].
    rewrite <- Hnone. apply match_percent_quotient; [exact Hpos |].
    rewrite Hno. exact Hq.
Qed.

(** X5. A resume that holds all the words of another resume, and maybe
    more, misses no more keywords and gets no lower a percentage. *)
Theorem more_words_no_lower_percent (resume1 resume2 job_description : str) :
  resume_words resume1 ⊆ resume_words resume2 ->
  missing resume2 job_description ⊆ missing resume1 job_description
  /\ exists p1 p2 : pynum,
       match_percent resume1 job_description = Some p1
       /\ match_percent resume2 job_description = Some p2
       /\ (pynum_value p1 <= pynum_value p2)%Q
       /\ match p1, p2 with
          | py_float x1, py_float x2 => (x1 <=? x2)%float = true
          | py_int n1, py_int n2 => n1 = n2
          | _, _ => False
          end.
Proof.
  intros Hsub. split.
  - unfold missing. intros kw Hkw. apply elem_of_difference in Hkw as [Hjd Hout].
    apply elem_of_difference. split; [exact Hjd |]. intros Hin. apply Hout.
    now apply Hsub.
  - assert (Hcount : match_count resume1 job_description
                     <= match_count resume2 job_description).
    { unfold match_count. apply subseteq_size. intros kw Hkw.
      apply elem_of_intersection in Hkw as [Hjd Hin].
      apply elem_of_intersection. split; [exact Hjd | now apply Hsub]. }
    pose proof (match_count_le_total resume2 job_description) as Hle.
    destruct (decide (0 < total job_description)) as [Hpos|Hzero].
    + destruct (percent_monotone
                  (Z.of_nat (match_count resume1 job_description))
                  (Z.of_nat (match_count resume2 job_description))
                  (Z.of_nat (total job_description)))
        as (q1 & q2 & Hq1 & Hq2 & Hleb & Hval); [lia | lia | lia |].
      exists (py_float (q1 * 100)%float), (py_float (q2 * 100)%float).
      split; [now apply match_percent_quotient |].
      split; [now apply match_percent_quotient |].
      split; [exact Hval | exact Hleb].
    + exists (py_int 0), (py_int 0).
      split; [apply match_percent_zero; lia |].
      split; [apply match_percent_zero; lia |].
      split; [apply Qle_refl | reflexivity].
Qed.

End FeedbackMore.

(** ** The keywords are words *)

Section Tokens.

Lemma split_from_words (cur s : str) :
  Forall (fun c => isspace c = false) cur ->
  Forall word (split_from cur s).
Proof.
  revert cur. induction s as [|c s IH]; intros cur Hcur; simpl.
  - destruct cur as [|c0 cur]; [constructor |].
    constructor; [| constructor]. split.
    + intros E. apply (f_equal (@length char)) in E.
      rewrite length_rev in E. discriminate.
    + now apply Forall_rev.
  - destruct (isspace c) eqn:Hc.
    + destruct cur as [|c0 cur]; [apply IH; constructor |].
      constructor; [| apply IH; constructor]. split.
      * intros E. apply (f_equal (@length char)) in E.
        rewrite length_rev in E. discriminate.
      * now apply Forall_rev.
    + apply IH. now constructor.
Qed.

Lemma jd_keywords_words {rt : StrRuntime} (job_description : str) (kw : str) :
  kw ∈ jd_keywords job_description -> word kw.
Proof.
  intros Hkw. unfold jd_keywords in Hkw. apply elem_of_list_to_set in Hkw.
  pose proof (split_from_words [] (lower job_description) (List.Forall_nil _)) as Hall.
  rewrite Forall_forall in Hall. now apply Hall.
Qed.

Lemma missing_listed_words {rt : StrRuntime} {order : SetOrder}
  (resume_text job_description : str) (kw : str) :
  kw ∈ missing_listed resume_text job_description -> word kw.
Proof.
  intros Hkw. apply (jd_keywords_words job_description). unfold missing_listed in Hkw.
  apply subseteq_take in Hkw. rewrite set_list_perm in Hkw.
  apply elem_of_elements in Hkw. unfold missing in Hkw.
  now apply elem_of_difference in Hkw as [Hkw _].
Qed.

(** X6. Every keyword of the job description, and so every missing
    keyword the report lists, is a word: it is not empty and holds no
    whitespace. *)
Theorem keywords_are_words {rt : StrRuntime} {order : SetOrder}
  (resume_text job_description : str) :
  (forall kw, kw ∈ jd_keywords job_description -> word kw)
  /\ (forall kw, kw ∈ missing_listed resume_text job_description -> word kw).
Proof.
  split; [apply jd_keywords_words | apply missing_listed_words].
Qed.

End Tokens.

(** X4 at the fixture: the reference text against itself. *)
Lemma match_percent_extremes_witness :
  (@match_percent Fixture.ascii_runtime Fixture.reference Fixture.reference
   = Some (py_float 100%float)
   <-> @jd_keywords Fixture.ascii_runtime Fixture.reference
       ⊆ @resume_words Fixture.ascii_runtime Fixture.reference)
  /\ (@match_percent Fixture.ascii_runtime Fixture.reference Fixture.reference
      = Some (py_float 0%float)
      <-> @jd_keywords Fixture.ascii_runtime Fixture.reference
          ∩ @resume_words Fixture.ascii_runtime Fixture.reference = ∅).
Proof.
  apply (@match_percent_extremes Fixture.ascii_runtime).
  - vm_compute. lia.
  - vm_compute. discriminate.
Defined.

(** X5 at two resumes of the fixture: the second adds a word to the
    first. *)
Lemma more_words_no_lower_percent_witness :
  @missing Fixture.ascii_runtime (lit "python developer sql") Fixture.reference
  ⊆ @missing Fixture.ascii_runtime (lit "python developer") Fixture.reference
  /\ exists p1 p2 : pynum,
       @match_percent Fixture.ascii_runtime (lit "python developer")
         Fixture.reference = Some p1
       /\ @match_percent Fixture.ascii_runtime (lit "python developer sql")
            Fixture.reference = Some p2
       /\ (pynum_value p1 <= pynum_value p2)%Q
       /\ match p1, p2 with
          | py_float x1, py_float x2 => (x1 <=? x2)%float = true
          | py_int n1, py_int n2 => n1 = n2
          | _, _ => False
          end.
Proof.
  apply (@more_words_no_lower_percent Fixture.ascii_runtime).
  refine (bool_decide_unpack _ _). vm_compute. exact I.
Defined.

(** ** Text extraction from a PDF *)

Section PdfText.
Context {readers : Readers}.

Lemma split_from_space (cur a b : str) (c : char) :
  isspace c = true ->
  split_from cur (a ++ c :: b) = split_from cur a ++ split b.
Proof.
  intros Hc. revert cur. induction a as [|x a IH]; intros cur; simpl.
  - rewrite Hc. now destruct cur.
  - destruct (isspace x).
    + destruct cur; [apply IH |]. simpl. f_equal. apply IH.
    + apply IH.
Qed.

(** The words of texts joined by single spaces are the words of the
    texts, in order. *)
Lemma split_join_space (texts : list str) :
  split (join (lit " ") texts) = concat (split <$> texts).
Proof.
  induction texts as [|p [|q texts] IH].
  - reflexivity.
  - simpl. now rewrite app_nil_r.
  - change (join (lit " ") (p :: q :: texts))
      with (p ++ 32%N :: join (lit " ") (q :: texts)).
    unfold split at 1. rewrite split_from_space by reflexivity.
    rewrite IH. reflexivity.
Qed.

Lemma extract_text_from_pdf_split (file : content) :
  split (extract_text_from_pdf file)
  = concat ((fun page => split (default [] page)) <$> pdf_page_texts file).
Proof.
  unfold extract_text_from_pdf, pages_with_text.
  rewrite split_join_space.
  induction (pdf_page_texts file) as [|page pages IH]; [reflexivity |].
  cbn [flat_map fmap list_fmap concat]. rewrite fmap_app, concat_app, IH.
  f_equal. destruct page as [[|c text]|]; simpl; [reflexivity | | reflexivity].
  now rewrite app_nil_r.
Qed.

Lemma extract_text_from_pdf_no_text (file : content) :
  Forall (fun page => page = None \/ page = Some []) (pdf_page_texts file) ->
  extract_text_from_pdf file = [].
Proof.
  unfold extract_text_from_pdf, pages_with_text. intros Hempty.
  induction Hempty as [|page pages [->| ->] _ IH]; [reflexivity | |];
    cbn [flat_map app str_truthy]; exact IH.
Qed.

(** X7. The words of the text extracted from a PDF are the words of its
    pages, in the order of the pages: a page without text adds nothing,
    and no word runs from one page into the next.  A PDF without any text
    gives the empty string. *)
Theorem extract_text_from_pdf_words (file : content) :
  split (extract_text_from_pdf file)
  = concat ((fun page => split (default [] page)) <$> pdf_page_texts file)
  /\ (Forall (fun page => page = None \/ page = Some []) (pdf_page_texts file) ->
      extract_text_from_pdf file = []).
Proof.
  split; [apply extract_text_from_pdf_split | apply extract_text_from_pdf_no_text].
Qed.

End PdfText.

(** ** Lines *)

Section Lines.

Lemma split_on_from_app (sep : char) (cur l rest : str) :
  sep ∉ l ->
  split_on_from sep cur (l ++ rest) = split_on_from sep (rev l ++ cur) rest.
Proof.
  revert cur. induction l as [|c l IH]; intros cur Hl; [reflexivity |].
  simpl. destruct (N.eqb_spec c sep) as [->|Hne].
  - exfalso. apply Hl. apply elem_of_cons. now left.
  - rewrite IH by (intros Hin; apply Hl; apply elem_of_cons; now right).
    now rewrite <- app_assoc.
Qed.

(** Splitting at the separator undoes the joining of lines that do not
    hold the separator. *)
Lemma split_on_join (sep : char) (lines : list str) :
  lines <> [] -> Forall (fun line => sep ∉ line) lines ->
  split_on sep (join [sep] lines) = lines.
Proof.
  intros Hne Hall. induction Hall as [|p lines Hp Hall IH]; [done |].
  destruct lines as [|q lines].
  - simpl. unfold split_on.
    rewrite <- (app_nil_r p) at 1. rewrite split_on_from_app by exact Hp.
    simpl. now rewrite app_nil_r, rev_involutive.
  - change (join [sep] (p :: q :: lines))
      with (p ++ sep :: join [sep] (q :: lines)).
    unfold split_on. rewrite split_on_from_app by exact Hp.
    simpl. rewrite N.eqb_refl, app_nil_r, rev_involutive. f_equal.
    now apply IH.
Qed.

(** The pieces of a split do not hold the separator, and joining them
    gives the text back. *)
Lemma split_on_from_pieces (sep : char) (cur s : str) :
  sep ∉ cur ->
  Forall (fun piece => sep ∉ piece) (split_on_from sep cur s)
  /\ join [sep] (split_on_from sep cur s) = rev cur ++ s.
Proof.
  revert cur. induction s as [|c s IH]; intros cur Hcur; simpl.
  - split; [| now rewrite app_nil_r].
    constructor; [| constructor]. intros Hin. apply Hcur.
    now apply list_elem_of_In, in_rev, list_elem_of_In in Hin.
  - destruct (N.eqb_spec c sep) as [->|Hne].
    + destruct (IH [] (not_elem_of_nil sep)) as [Hall Hjoin]. split.
      * constructor; [| exact Hall]. intros Hin. apply Hcur.
        now apply list_elem_of_In, in_rev, list_elem_of_In in Hin.
      * destruct (split_on_from sep [] s) as [|q pieces] eqn:Hs.
        { destruct s; simpl in Hs; [discriminate |].
          destruct (c =? sep)%N; discriminate. }
        change (join [sep] (rev cur :: q :: pieces))
          with (rev cur ++ sep :: join [sep] (q :: pieces)).
        now rewrite Hjoin.
    + destruct (IH (c :: cur)) as [Hall Hjoin].
      * intros Hin. apply elem_of_cons in Hin as [->|Hin]; [done | now apply Hcur].
      * split; [exact Hall |]. rewrite Hjoin. simpl. now rewrite <- app_assoc.
Qed.

End Lines.

(** ** Pagination *)

Section Pagination.

Lemma mod_succ_47 (m : nat) :
  S m mod 47 = if decide (m mod 47 = 46) then 0 else S (m mod 47).
Proof.
  pose proof (Nat.div_mod_eq m 47) as Hm.
  pose proof (Nat.mod_upper_bound m 47 ltac:(lia)) as Hr.
  destruct (decide (m mod 47 = 46)) as [He|Hne].
  - symmetry. apply (Nat.mod_unique (S m) 47 (S (m / 47)) 0); lia.
  - symmetry. apply (Nat.mod_unique (S m) 47 (m / 47) (S (m mod 47))); lia.
Qed.

Lemma div_succ_47 (m : nat) :
  S m / 47 = if decide (m mod 47 = 46) then S (m / 47) else m / 47.
Proof.
  pose proof (Nat.div_mod_eq m 47) as Hm.
  pose proof (Nat.mod_upper_bound m 47 ltac:(lia)) as Hr.
  destruct (decide (m mod 47 = 46)) as [He|Hne].
  - symmetry. apply (Nat.div_unique (S m) 47 (S (m / 47)) 0); lia.
  - symmetry. apply (Nat.div_unique (S m) 47 (m / 47) (S (m mod 47))); lia.
Qed.

(** One turn of the loop draws the next line where the closed form says. *)
Lemma draw_line_step (n : nat) (ops : list canvas_op) (line : str) :
  draw_line 742 (cursor_after n, ops) line
  = (cursor_after (S n), ops ++ line_ops n line).
Proof.
  unfold draw_line, line_ops. destruct n as [|m].
  - simpl. reflexivity.
  - cbn [cursor_after]. rewrite mod_succ_47.
    pose proof (Nat.mod_upper_bound m 47 ltac:(lia)) as Hr.
    destruct (decide (m mod 47 = 46)) as [He|Hne].
    + rewrite He. simpl. rewrite <- app_assoc. reflexivity.
    + destruct (decide (0 < S m /\ S (m mod 47) = 0)) as [[_ Hz]|_]; [lia |].
      destruct (742 - 15 * (Z.of_nat (m mod 47) + 1) <? 40)%Z eqn:Hlow.
      * apply Z.ltb_lt in Hlow. lia.
      * cbn [app]. f_equal; [lia |]. do 3 f_equal. lia.
Qed.

Lemma draw_lines_layout (lines : list str) (n : nat) (ops : list canvas_op) :
  fold_left (draw_line 742) lines (cursor_after n, ops)
  = (cursor_after (n + length lines),
     ops ++ concat (imap (fun i line => line_ops (n + i) line) lines)).
Proof.
  revert n ops. induction lines as [|line lines IH]; intros n ops.
  - simpl. now rewrite Nat.add_0_r, app_nil_r.
  - cbn [fold_left]. rewrite draw_line_step, IH. f_equal.
    + f_equal. simpl. lia.
    + rewrite imap_cons. cbn [concat]. rewrite Nat.add_0_r, <- app_assoc.
      do 3 f_equal. apply imap_ext. intros i l _. simpl. f_equal. lia.
Qed.

(** X8. [generate_pdf] lays the lines of the text out 47 to a page: line
    number [i] is drawn at x = 50 in row [i mod 47], that is at
    y = 742 - 15 * (i mod 47), with a page break before each line whose
    number is a positive multiple of 47, and the document is saved at the
    end. *)
Theorem generate_pdf_layout (feedback_text : str) :
  generate_pdf feedback_text
  = concat (imap line_ops (split_on 10%N feedback_text)) ++ [Save].
Proof.
  unfold generate_pdf. cbv zeta.
  change (height - 50)%Z with (cursor_after 0).
  change (cursor_after 0) with 742%Z at 1.
  rewrite draw_lines_layout. reflexivity.
Qed.

Lemma drawn_text_line_ops (i : nat) (line : str) :
  drawn_text (line_ops i line) = [line].
Proof. unfold line_ops, drawn_text. now destruct (decide _). Qed.

Lemma drawn_text_layout (lines : list str) (n : nat) :
  drawn_text (concat (imap (fun i line => line_ops (n + i) line) lines)) = lines.
Proof.
  revert n. induction lines as [|line lines IH]; intros n; [reflexivity |].
  rewrite imap_cons. cbn [concat]. unfold drawn_text in *.
  rewrite flat_map_app. fold (drawn_text (line_ops (n + 0) line)).
  rewrite drawn_text_line_ops. cbn [app]. f_equal.
  rewrite <- (IH (S n)) at 2. do 2 f_equal. apply imap_ext.
  intros i l _. simpl. f_equal. lia.
Qed.

Lemma page_breaks_layout (lines : list str) (n : nat) :
  length (List.filter is_show_page
            (concat (imap (fun i line => line_ops (n + i) line) lines)))
  + (n - 1) / 47
  = (n + length lines - 1) / 47.
Proof.
  revert n. induction lines as [|line lines IH]; intros n.
  - simpl. now rewrite Nat.add_0_r.
  - rewrite imap_cons. cbn [concat]. rewrite List.filter_app, length_app.
    assert (Hrest :
      imap ((fun i l => line_ops (n + i) l) ∘ S) lines
      = imap (fun i l => line_ops (S n + i) l) lines).
    { apply imap_ext. intros i l _. simpl. f_equal. lia. }
    rewrite Hrest. specialize (IH (S n)).
    replace (n + length (line :: lines) - 1) with (S n + length lines - 1)
      by (simpl; lia).
    rewrite <- IH. replace (S n - 1) with n by lia.
    rewrite Nat.add_0_r. unfold line_ops at 1.
    destruct n as [|m].
    + simpl. lia.
    + replace (S m - 1) with m by lia.
      rewrite mod_succ_47, div_succ_47.
      destruct (decide (m mod 47 = 46)) as [He|Hne].
      * destruct (decide (0 < S m /\ 0 = 0)) as [_|Hn]; [simpl; lia | lia].
      * destruct (decide (0 < S m /\ S (m mod 47) = 0)) as [[_ Hz]|_]; [lia |].
        simpl. lia.
Qed.

Lemma line_ops_draw (i : nat) (line : str) (x y : Z) (text : str) :
  In (DrawString x y text) (line_ops i line) ->
  x = 50%Z /\ (52 <= y <= 742)%Z.
Proof.
  unfold line_ops. pose proof (Nat.mod_upper_bound i 47 ltac:(lia)) as Hr.
  revert Hr. generalize (i mod 47). intros r Hr Hin.
  apply in_app_or in Hin. destruct Hin as [Hin|Hin].
  - destruct (decide _); [destruct Hin as [Hin|[]]; discriminate Hin | destruct Hin].
  - destruct Hin as [Hin|[]]. injection Hin as <- <- _. lia.
Qed.

(** X9. The document of [generate_pdf] shows every line of the text once,
    in order; every line is drawn at x = 50 with 52 <= y <= 742, so none
    below the bottom margin of 40; and for [n] lines there are
    [(n - 1) / 47] page breaks. *)
Theorem generate_pdf_pages (feedback_text : str) :
  drawn_text (generate_pdf feedback_text) = split_on 10%N feedback_text
  /\ (forall x y text,
        DrawString x y text ∈ generate_pdf feedback_text ->
        x = 50%Z /\ (52 <= y <= 742)%Z)
  /\ length (List.filter is_show_page (generate_pdf feedback_text))
     = (length (split_on 10%N feedback_text) - 1) / 47.
Proof.
  unfold generate_pdf. cbv zeta.
  change (height - 50)%Z with (cursor_after 0).
  change (cursor_after 0) with 742%Z at 1 3 5.
  rewrite draw_lines_layout. cbn [app].
  split; [| split].
  - unfold drawn_text. rewrite flat_map_app. cbn [flat_map app].
    rewrite app_nil_r. apply (drawn_text_layout _ 0).
  - intros x y text Hin. apply list_elem_of_In, in_app_or in Hin.
    destruct Hin as [Hin|Hin]; [| destruct Hin as [Hin|[]]; discriminate Hin].
    apply in_concat in Hin as (piece & Hpiece & Hin).
    apply list_elem_of_In, elem_of_lookup_imap in Hpiece
      as (i & line & -> & _).
    now apply line_ops_draw in Hin.
  - rewrite List.filter_app, length_app. cbn [List.filter is_show_page length].
    pose proof (page_breaks_layout (split_on 10%N feedback_text) 0) as Hb.
    change (0 - 1) with 0 in Hb. change (0 / 47) with 0 in Hb.
    cbn [Nat.add] in Hb. rewrite Nat.add_0_r in Hb. rewrite Nat.add_0_r.
    exact Hb.
Qed.

End Pagination.

(** ** The report on paper *)

Section ReportPages.

(** A text of at most 47 lines fits on one page. *)
Lemma layout_one_page (lines : list str) (n : nat) :
  n + length lines <= 47 ->
  concat (imap (fun i line => line_ops (n + i) line) lines)
  = imap (fun i line => DrawString 50 (742 - 15 * Z.of_nat (n + i)) line) lines.
Proof.
  revert n. induction lines as [|line lines IH]; intros n Hlen; [reflexivity |].
  rewrite !imap_cons. cbn [concat]. simpl in Hlen.
  assert (Hrest : forall (f : nat -> str -> list canvas_op),
            imap ((fun i l => f (n + i) l) ∘ S) lines
            = imap (fun i l => f (S n + i) l) lines).
  { intros f. apply imap_ext. intros i l _. simpl. f_equal. lia. }
  rewrite (Hrest line_ops), IH by lia.
  assert (Hrest' :
            imap ((fun i l => DrawString 50 (742 - 15 * Z.of_nat (n + i)) l) ∘ S) lines
            = imap (fun i l => DrawString 50 (742 - 15 * Z.of_nat (S n + i)) l) lines).
  { apply imap_ext. intros i l _. simpl. do 3 f_equal. lia. }
  rewrite Hrest'. rewrite Nat.add_0_r. unfold line_ops.
  rewrite (Nat.mod_small n 47) by lia.
  destruct (decide (0 < n /\ n = 0)) as [[? ?]|_]; [lia | reflexivity].
Qed.

Lemma generate_pdf_one_page (lines : list str) :
  lines <> [] -> length lines <= 47 ->
  Forall (fun line => 10%N ∉ line) lines ->
  generate_pdf (join [10%N] lines)
  = imap (fun i line => DrawString 50 (742 - 15 * Z.of_nat i) line) lines
    ++ [Save].
Proof.
  intros Hne Hlen Hall. unfold generate_pdf. cbv zeta.
  rewrite split_on_join by assumption.
  change (height - 50)%Z with (cursor_after 0).
  change (cursor_after 0) with 742%Z at 1.
  rewrite draw_lines_layout. cbn [app].
  now rewrite (layout_one_page lines 0) by (simpl; lia).
Qed.

Lemma digits_no_newline (n : N) : 10%N ∉ digits n.
Proof.
  intros Hin.
  pose proof (digits_fuel_is_digit (S (N.to_nat (N.log2 n))) n []
                (List.Forall_nil _)) as Hd.
  rewrite Forall_forall in Hd. apply Hd in Hin. discriminate Hin.
Qed.

Lemma str_of_int_no_newline (n : Z) : 10%N ∉ str_of_int n.
Proof.
  unfold str_of_int. destruct (n <? 0)%Z; [| apply digits_no_newline].
  intros Hin. apply elem_of_cons in Hin as [Hin|Hin]; [discriminate Hin |].
  now apply digits_no_newline in Hin.
Qed.

Lemma join_not_elem (c : char) (sep : str) (parts : list str) :
  c ∉ sep -> Forall (fun part => c ∉ part) parts -> c ∉ join sep parts.
Proof.
  intros Hsep Hall. induction Hall as [|p parts Hp Hall IH]; [apply not_elem_of_nil |].
  destruct parts as [|q parts]; [exact Hp |].
  change (join sep (p :: q :: parts)) with (p ++ sep ++ join sep (q :: parts)).
  intros Hin. apply elem_of_app in Hin as [Hin|Hin]; [now apply Hp |].
  apply elem_of_app in Hin as [Hin|Hin]; [now apply Hsep | now apply IH].
Qed.

Lemma word_no_newline (kw : str) : word kw -> 10%N ∉ kw.
Proof.
  intros [_ Hkw] Hin. rewrite Forall_forall in Hkw. apply Hkw in Hin.
  discriminate Hin.
Qed.

Lemma lit_no_newline (s : str) : bool_decide (10%N ∈ s) = false -> 10%N ∉ s.
Proof. intros Hb Hin. apply bool_decide_eq_false in Hb. contradiction. Qed.

(** The report has eight lines, none of which holds a newline when the
    text of a rounded float holds none. *)
Lemma report_lines {rt : StrRuntime} {order : SetOrder}
  (resume_text job_description : str) :
  (forall x, 10%N ∉ str_round1 x) ->
  exists report : list str,
    lines resume_text job_description = Some report
    /\ length report = 8
    /\ Forall (fun line => 10%N ∉ line) report.
Proof.
  intros Hnum.
  destruct (match_percent_some resume_text job_description) as [percent Hp].
  eexists. split; [apply (lines_shape _ _ percent Hp) |].
  split; [reflexivity |].
  assert (Hpercent : 10%N ∉ str_of_round1 percent).
  { destruct percent; [apply str_of_int_no_newline | apply Hnum]. }
  repeat constructor; try (apply lit_no_newline; vm_compute; reflexivity).
  - intros Hin. apply elem_of_app in Hin as [Hin|Hin];
      [revert Hin; apply lit_no_newline; vm_compute; reflexivity |].
    apply elem_of_app in Hin as [Hin|Hin]; [now apply Hpercent |].
    revert Hin. apply lit_no_newline. vm_compute. reflexivity.
  - destruct (decide (missing resume_text job_description ≠ ∅));
      [| apply lit_no_newline; vm_compute; reflexivity].
    intros Hin. apply elem_of_app in Hin as [Hin|Hin];
      [revert Hin; apply lit_no_newline; vm_compute; reflexivity |].
    apply elem_of_app in Hin as [Hin|Hin];
      [| revert Hin; apply lit_no_newline; vm_compute; reflexivity].
    revert Hin. apply join_not_elem.
    + apply lit_no_newline. vm_compute. reflexivity.
    + apply Forall_forall. intros kw Hkw. apply word_no_newline.
      now apply (missing_listed_words resume_text job_description).
Qed.

(** X10. The document generated from a feedback is one page: its eight
    lines are drawn from y = 742 down in steps of 15, without a page
    break, provided the text of a rounded float holds no newline. *)
Theorem feedback_pdf_one_page {rt : StrRuntime} {order : SetOrder}
  (resume_text job_description : str) :
  (forall x, 10%N ∉ str_round1 x) ->
  exists (report : list str) (feedback : str),
    lines resume_text job_description = Some report
    /\ get_resume_feedback resume_text job_description = Some feedback
    /\ length report = 8
    /\ generate_pdf feedback
       = imap (fun i line => DrawString 50 (742 - 15 * Z.of_nat i) line) report
         ++ [Save].
Proof.
  intros Hnum.
  destruct (report_lines resume_text job_description Hnum)
    as (report & Hlines & Hlen & Hall).
  exists report, (join [10%N] report).
  split; [exact Hlines |]. split; [unfold get_resume_feedback; now rewrite Hlines |].
  split; [exact Hlen |].
  apply generate_pdf_one_page; [| lia | exact Hall].
  intros ->. discriminate Hlen.
Qed.

(** The section of a feedback of at most 46 lines is one page. *)
Lemma draw_lines_below_heading (lines : list str) (y : Z) (ops : list canvas_op) :
  (40 <= y - 15 * (Z.of_nat (length lines) - 1))%Z ->
  fold_left (draw_line 742) lines (y, ops)
  = ((y - 15 * Z.of_nat (length lines))%Z,
     ops ++ imap (fun i line => DrawString 50 (y - 15 * Z.of_nat i) line) lines).
Proof.
  revert y ops. induction lines as [|line lines IH]; intros y ops Hfit.
  - simpl. rewrite app_nil_r. f_equal. lia.
  - cbn [fold_left]. unfold draw_line at 2. cbn [length] in Hfit.
    destruct (y <? 40)%Z eqn:Hlow; [apply Z.ltb_lt in Hlow; lia |].
    rewrite IH by lia. rewrite imap_cons, <- app_assoc. cbn [app length].
    f_equal; [lia |]. f_equal. f_equal.
    + f_equal. lia.
    + apply imap_ext. intros i l _. simpl. f_equal. lia.
Qed.

Lemma feedback_section_one_page (ops : list canvas_op) (name feedback : str) :
  length (split_on 10%N feedback) <= 46 ->
  feedback_section ops name feedback
  = ops ++ section_ops name (split_on 10%N feedback).
Proof.
  intros Hlen. unfold feedback_section, section_ops. cbv zeta.
  change (height - 50)%Z with 742%Z. change (742 - 20)%Z with 722%Z.
  rewrite draw_lines_below_heading by lia.
  rewrite <- !app_assoc. reflexivity.
Qed.

End ReportPages.

(** ** The script: uploads and the walk over the ranking *)

Section DictLookup.
Context {K V : Type} `{EqDecision K}.

Lemma getitem_setitem (k k' : K) (v : V) (d : dict K V) :
  getitem k (setitem k' v d) = if decide (k = k') then Some v else getitem k d.
Proof.
  induction d as [|[k0 v0] d IH]; simpl.
  - destruct (decide (k = k')); reflexivity.
  - destruct (decide (k' = k0)) as [->|Hne]; simpl.
    + destruct (decide (k = k0)); reflexivity.
    + destruct (decide (k = k0)) as [->|Hne'].
      * destruct (decide (k0 = k')); [congruence | reflexivity].
      * exact IH.
Qed.

Lemma getitem_key (k : K) (d : dict K V) :
  k ∈ keys d <-> exists v, getitem k d = Some v.
Proof.
  unfold keys. induction d as [|[k0 v0] d IH]; csimpl.
  - split; [intros Hin; now apply elem_of_nil in Hin | intros [v Hv]; discriminate].
  - destruct (decide (k = k0)) as [->|Hne].
    + split; [intros _; now exists v0 | intros _; apply elem_of_cons; now left].
    + rewrite elem_of_cons, IH. split; [intros [?|?]; [contradiction | done] |].
      intros Hv. now right.
Qed.

Lemma getitem_item (k : K) (v : V) (d : dict K V) :
  dict_wf d -> (k, v) ∈ items d -> getitem k d = Some v.
Proof.
  unfold dict_wf, items. induction d as [|[k0 v0] d IH]; csimpl; intros Hwf Hin.
  - now apply elem_of_nil in Hin.
  - apply NoDup_cons in Hwf as [Hk0 Hwf].
    apply elem_of_cons in Hin as [Heq|Hin].
    + injection Heq as -> ->. now rewrite decide_True.
    + destruct (decide (k = k0)) as [->|Hne]; [| now apply IH].
      exfalso. apply Hk0. apply list_elem_of_fmap. now exists (k0, v).
Qed.

Lemma mapM_each {A B : Type} (f : A -> option B) (P : A -> B -> Prop)
  (l : list A) :
  (forall x, x ∈ l -> exists y, f x = Some y /\ P x y) ->
  exists k, mapM f l = Some k /\ Forall2 P l k.
Proof.
  induction l as [|x l IH]; intros Hall.
  - exists []. split; [reflexivity | constructor].
  - destruct (Hall x) as (y & Hy & HP); [apply elem_of_cons; now left |].
    destruct IH as (k & Hk & HF).
    { intros x' Hx'. apply Hall. apply elem_of_cons. now right. }
    exists (y :: k). split; [| now constructor].
    apply mapM_Some_2. constructor; [exact Hy | now apply mapM_Some_1].
Qed.

End DictLookup.

Section ScriptFacts.
Context {readers : Readers} {rt : StrRuntime} {order : SetOrder}
  {provider : Embedder}.

Lemma get_resume_feedback_some (resume_text job_description : str) :
  exists feedback, get_resume_feedback resume_text job_description = Some feedback.
Proof.
  destruct (match_percent_some resume_text job_description) as [percent Hp].
  unfold get_resume_feedback. rewrite (lines_shape _ _ percent Hp).
  eexists. reflexivity.
Qed.

(** X11. The walk over the ranking raises nothing: every name of the
    ranking is a key of the mapping, so the lookup of its text succeeds,
    and the feedback of an entry is computed from the very text that gave
    the entry its score. *)
Theorem feedbacks_of_ranking
  (job_description : str) (resume_texts : dict str str) :
  dict_wf resume_texts ->
  exists named_feedbacks : list (str * str),
    App.feedbacks job_description resume_texts
      (rank_resumes job_description resume_texts)
    = Some named_feedbacks
    /\ Forall2
         (fun (entry : str * float) (named : str * str) =>
            named.1 = entry.1
            /\ exists text,
                 (entry.1, text) ∈ items resume_texts
                 /\ entry.2 = cos_sim (encode job_description) (encode text)
                 /\ get_resume_feedback text job_description = Some named.2)
         (rank_resumes job_description resume_texts) named_feedbacks.
Proof.
  intros Hwf. unfold App.feedbacks. apply mapM_each.
  intros [name score] Hin.
  apply rank_resumes_entry in Hin as (text & Hitem & Hscore).
  destruct (get_resume_feedback_some text job_description) as [feedback Hfb].
  exists (name, feedback). split.
  - rewrite (getitem_item name text resume_texts Hwf Hitem). simpl.
    rewrite Hfb. reflexivity.
  - split; [reflexivity |]. now exists text.
Qed.

Lemma resume_texts_snoc (files : list App.upload) (file : App.upload) :
  App.resume_texts (files ++ [file])
  = setitem (App.file_name file) (App.resume_text file) (App.resume_texts files).
Proof. unfold App.resume_texts. now rewrite fold_left_app. Qed.

Lemma resume_texts_lookup (files : list App.upload) (name : str) :
  getitem name (App.resume_texts files)
  = App.resume_text <$> last (filter (fun file => App.file_name file = name) files).
Proof.
  induction files as [|file files IH] using rev_ind; [reflexivity |].
  rewrite resume_texts_snoc, getitem_setitem, filter_app.
  destruct (decide (name = App.file_name file)) as [->|Hne].
  - rewrite filter_cons_True by reflexivity. rewrite filter_nil, last_snoc.
    reflexivity.
  - rewrite filter_cons_False by congruence. rewrite filter_nil, app_nil_r.
    exact IH.
Qed.

Lemma resume_texts_wf (files : list App.upload) :
  dict_wf (App.resume_texts files).
Proof.
  unfold App.resume_texts.
  assert (Hgen : forall d : dict str str, dict_wf d ->
    dict_wf (fold_left (fun resume_texts file =>
                          setitem (App.file_name file) (App.resume_text file)
                            resume_texts) files d)).
  { induction files as [|file files IH]; intros d Hd; [exact Hd |].
    simpl. apply IH. now apply setitem_wf. }
  apply Hgen. constructor.
Qed.

Lemma resume_texts_keys (files : list App.upload) (name : str) :
  name ∈ keys (App.resume_texts files) <-> name ∈ App.file_name <$> files.
Proof.
  rewrite getitem_key, resume_texts_lookup. split.
  - intros [text Htext]. apply fmap_Some in Htext as (file & Hlast & _).
    apply last_Some_elem_of, list_elem_of_filter in Hlast as [<- Hin].
    apply list_elem_of_fmap. now exists file.
  - intros Hin. apply list_elem_of_fmap in Hin as (file & -> & Hin).
    destruct (last (filter (fun f => App.file_name f = App.file_name file) files))
      as [file'|] eqn:Hlast; [now eexists |].
    apply last_None in Hlast.
    exfalso. now apply (filter_nil_not_elem_of _ _ file Hlast).
Qed.

(** X12. In the dictionary built from the uploads every file name is a key
    once, and its text is the text of the last upload of that name: a
    resume uploaded again replaces the earlier one.  A name that was not
    uploaded is no key. *)
Theorem resume_texts_last_upload (files : list App.upload) :
  dict_wf (App.resume_texts files)
  /\ (forall name,
        getitem name (App.resume_texts files)
        = App.resume_text
            <$> last (filter (fun file => App.file_name file = name) files))
  /\ (forall name,
        name ∈ keys (App.resume_texts files)
        <-> name ∈ App.file_name <$> files).
Proof.
  split; [apply resume_texts_wf |].
  split; [apply resume_texts_lookup | apply resume_texts_keys].
Qed.

Lemma show_pages_section (name : str) (lines : list str) :
  length (List.filter is_show_page (section_ops name lines)) = 1.
Proof.
  unfold section_ops. cbn [app List.filter is_show_page].
  rewrite List.filter_app. cbn [List.filter is_show_page]. rewrite length_app.
  assert (Hdraw : forall (f : nat -> Z),
            List.filter is_show_page
              (imap (fun i line => DrawString 50 (f i) line) lines) = []).
  { induction lines as [|line lines IH]; intros f; [reflexivity |].
    rewrite imap_cons. cbn [List.filter is_show_page]. apply (IH (f ∘ S)). }
  now rewrite Hdraw.
Qed.

Lemma combined_sections (named_feedbacks : list (str * str))
  (ops : list canvas_op) :
  Forall (fun named => length (split_on 10%N named.2) <= 46) named_feedbacks ->
  fold_left (fun ops '(name, feedback) => feedback_section ops name feedback)
    named_feedbacks ops
  = ops ++ concat ((fun named => section_ops named.1 (split_on 10%N named.2))
                     <$> named_feedbacks).
Proof.
  intros Hall. revert ops.
  induction Hall as [|[name feedback] named_feedbacks Hlen Hall IH]; intros ops.
  - simpl. now rewrite app_nil_r.
  - cbn [fold_left]. rewrite IH, feedback_section_one_page by exact Hlen.
    rewrite <- app_assoc. reflexivity.
Qed.

(** X13. The combined document has one page for each candidate of the
    ranking, in the order of the ranking: a section is a heading in bold
    at y = 742, the eight lines of the feedback from y = 722 down in steps
    of 15, and a page break; provided the text of a rounded float holds no
    newline. *)
Theorem combined_feedback_pages
  (job_description : str) (resume_texts : dict str str)
  (ranked : list (str * float)) (named_feedbacks : list (str * str)) :
  (forall x, 10%N ∉ str_round1 x) ->
  App.feedbacks job_description resume_texts ranked = Some named_feedbacks ->
  App.combined_feedback named_feedbacks
  = concat ((fun named => section_ops named.1 (split_on 10%N named.2))
              <$> named_feedbacks)
    ++ [Save]
  /\ named_feedbacks.*1 = ranked.*1
  /\ Forall (fun named => length (split_on 10%N named.2) = 8) named_feedbacks
  /\ length (List.filter is_show_page (App.combined_feedback named_feedbacks))
     = length ranked.
Proof.
  intros Hnum Hfb. unfold App.feedbacks in Hfb. apply mapM_Some_1 in Hfb.
  assert (Hnames : named_feedbacks.*1 = ranked.*1).
  { induction Hfb as [|[name score] [name' feedback] ranked fbs Hf _ IH];
      [reflexivity |].
    csimpl. rewrite IH. f_equal.
    destruct (getitem name resume_texts) as [text|]; [| discriminate Hf].
    simpl in Hf.
    destruct (get_resume_feedback text job_description); [| discriminate Hf].
    simpl in Hf. now injection Hf as <- _. }
  assert (Height :
    Forall (fun named => length (split_on 10%N named.2) = 8) named_feedbacks).
  { induction Hfb as [|[name score] [name' feedback] ranked fbs Hf _ IH];
      constructor; [| now apply IH; inversion Hnames].
    destruct (getitem name resume_texts) as [text|]; [| discriminate Hf].
    simpl in Hf.
    destruct (report_lines text job_description Hnum)
      as (report & Hlines & Hlen & Hall).
    unfold get_resume_feedback in Hf. rewrite Hlines in Hf. simpl in Hf.
    injection Hf as _ <-. simpl.
    rewrite split_on_join; [exact Hlen | | exact Hall].
    intros ->. discriminate Hlen. }
  assert (Hclosed :
    App.combined_feedback named_feedbacks
    = concat ((fun named => section_ops named.1 (split_on 10%N named.2))
                <$> named_feedbacks) ++ [Save]).
  { unfold App.combined_feedback. rewrite combined_sections; [reflexivity |].
    eapply Forall_impl; [exact Height |]. simpl. intros named ->. lia. }
  split; [exact Hclosed |]. split; [exact Hnames |]. split; [exact Height |].
  rewrite Hclosed, List.filter_app, length_app.
  cbn [List.filter is_show_page length]. rewrite Nat.add_0_r.
  rewrite <- (length_fmap fst ranked), <- Hnames, length_fmap.
  clear. induction named_feedbacks as [|named fbs IH]; [reflexivity |].
  cbn [fmap list_fmap concat]. rewrite List.filter_app, length_app.
  rewrite show_pages_section. cbn [length]. f_equal. exact IH.
Qed.

End ScriptFacts.

(** ** The log of a ranking *)

Section LoggerMore.
Context {env : Env}.

Lemma save_results_world (data : list (str * float)) (w : world) :
  (save_results_to_gsheet data w).2
  = {| sheet1 := sheet1 w
                 ++ imap (fun i entry =>
                            logged_row entry (now_at (clock_reads w + i))) data;
       clock_reads := clock_reads w + length data |}.
Proof.
  unfold save_results_to_gsheet, connect_to_gsheet.
  unfold mbind at 1, io_bind, mret, io_ret.
  apply for_each_append_rows.
Qed.

(** X14. Logging a ranking in two calls, its first entries and then the
    rest, leaves the sheet and the clock as one call with the whole
    ranking does; the clock is read once per entry, and logging an empty
    ranking changes nothing. *)
Theorem save_results_in_two_calls (first rest : list (str * float)) (w : world) :
  (save_results_to_gsheet (first ++ rest) w).2
  = (save_results_to_gsheet rest (save_results_to_gsheet first w).2).2
  /\ clock_reads (save_results_to_gsheet first w).2
     = clock_reads w + length first
  /\ (save_results_to_gsheet [] w).2 = w.
Proof.
  rewrite !save_results_world. cbn [sheet1 clock_reads].
  split; [| split].
  - rewrite imap_app, length_app, <- app_assoc, Nat.add_assoc.
    do 3 f_equal. apply imap_ext. intros i entry _. cbn.
    now rewrite Nat.add_assoc.
  - reflexivity.
  - destruct w as [rows reads]. cbn. now rewrite app_nil_r, Nat.add_0_r.
Qed.

Context {readers : Readers} {rt : StrRuntime} {provider : Embedder}.

(** X15. From the uploads to the sheet: the rows logged for the ranking of
    the uploaded resumes are one row per entry of the ranking, in its
    order, and the ranking names every uploaded file name exactly once,
    also when a name was uploaded more than once. *)
Theorem uploads_logged_once
  (job_description : str) (files : list App.upload) (w : world) :
  let ranked := rank_resumes job_description (App.resume_texts files) in
  exists rows : list row,
    sheet1 (save_results_to_gsheet ranked w).2 = sheet1 w ++ rows
    /\ Forall2 (fun (entry : str * float) (r : row) =>
                  exists stamp : str,
                    r = [cell_str entry.1;
                         cell_num (round_ndigits entry.2 4);
                         cell_str stamp])
               ranked rows
    /\ NoDup ranked.*1
    /\ forall name, name ∈ ranked.*1 <-> name ∈ App.file_name <$> files.
Proof.
  cbv zeta.
  set (ranked := rank_resumes job_description (App.resume_texts files)).
  assert (Hnames : ranked.*1 ≡ₚ keys (App.resume_texts files)).
  { unfold ranked. rewrite rank_resumes_perm. now rewrite rankings_names. }
  eexists. split; [rewrite save_results_world; reflexivity |].
  split; [| split].
  - generalize (clock_reads w). clearbody ranked. clear Hnames.
    induction ranked as [|entry ranked IH]; intros reads; [constructor |].
    rewrite imap_cons. constructor.
    + eexists. reflexivity.
    + erewrite imap_ext; [apply (IH (S reads)) |].
      intros i e _. cbn. now rewrite Nat.add_succ_r.
  - rewrite Hnames. apply resume_texts_wf.
  - intros name. rewrite Hnames. apply resume_texts_keys.
Qed.

End LoggerMore.

(** ** Instances of the facts of this part *)

Lemma round1_text_no_newline (x : float) : 10%N ∉ Fixture.round1_text x.
Proof.
  unfold Fixture.round1_text. cbv zeta. intros Hin.
  apply elem_of_app in Hin as [Hin|Hin]; [now apply digits_no_newline in Hin |].
  apply elem_of_app in Hin as [Hin|Hin]; [| now apply digits_no_newline in Hin].
  revert Hin. apply lit_no_newline. vm_compute. reflexivity.
Qed.

(** X10 for candidate C of the fixture. *)
Lemma feedback_pdf_one_page_witness :
  exists (report : list str) (feedback : str),
    @lines Fixture.ascii_runtime Fixture.forward_order
      (lit "python developer with sql skills") Fixture.reference = Some report
    /\ @get_resume_feedback Fixture.ascii_runtime Fixture.forward_order
         (lit "python developer with sql skills") Fixture.reference
       = Some feedback
    /\ length report = 8
    /\ generate_pdf feedback
       = imap (fun i line => DrawString 50 (742 - 15 * Z.of_nat i) line) report
         ++ [Save].
Proof.
  exact (@feedback_pdf_one_page Fixture.ascii_runtime Fixture.forward_order
           (lit "python developer with sql skills") Fixture.reference
           round1_text_no_newline).
Defined.

(** X11 for the candidates of the fixture. *)
Lemma feedbacks_of_ranking_witness :
  exists named_feedbacks : list (str * str),
    @App.feedbacks Fixture.ascii_runtime Fixture.forward_order
      Fixture.reference Fixture.candidates
      (@rank_resumes Fixture.word_count_embedder
         Fixture.reference Fixture.candidates)
    = Some named_feedbacks
    /\ Forall2
         (fun (entry : str * float) (named : str * str) =>
            named.1 = entry.1
            /\ exists text,
                 (entry.1, text) ∈ items Fixture.candidates
                 /\ entry.2
                    = @cos_sim Fixture.word_count_embedder
                        (@encode Fixture.word_count_embedder Fixture.reference)
                        (@encode Fixture.word_count_embedder text)
                 /\ @get_resume_feedback Fixture.ascii_runtime
                      Fixture.forward_order text Fixture.reference
                    = Some named.2)
         (@rank_resumes Fixture.word_count_embedder
            Fixture.reference Fixture.candidates)
         named_feedbacks.
Proof.
  apply (@feedbacks_of_ranking Fixture.ascii_runtime Fixture.forward_order
           Fixture.word_count_embedder Fixture.reference Fixture.candidates).
  unfold dict_wf. refine (bool_decide_unpack _ _). vm_compute. exact I.
Defined.

(** X13 for two candidates. *)
Lemma combined_feedback_pages_witness :
  let ranked :=
    @rank_resumes Fixture.word_count_embedder
      Fixture.reference Sample.two_candidates in
  let named_feedbacks :=
    default [] (@App.feedbacks Fixture.ascii_runtime Fixture.forward_order
                  Fixture.reference Sample.two_candidates ranked) in
  App.combined_feedback named_feedbacks
  = concat ((fun named => section_ops named.1 (split_on 10%N named.2))
              <$> named_feedbacks)
    ++ [Save]
  /\ named_feedbacks.*1 = ranked.*1
  /\ Forall (fun named => length (split_on 10%N named.2) = 8) named_feedbacks
  /\ length (List.filter is_show_page (App.combined_feedback named_feedbacks))
     = length ranked.
Proof.
  cbv zeta.
  apply (@combined_feedback_pages Fixture.ascii_runtime Fixture.forward_order
           Fixture.reference Sample.two_candidates).
  - exact round1_text_no_newline.
  - vm_compute. reflexivity.
Defined.

(** ** The suffix of a file name *)

Section Suffix.

Lemma startswith_spec (s prefix : str) :
  startswith s prefix = true <-> exists rest, s = prefix ++ rest.
Proof.
  revert s. induction prefix as [|p prefix IH]; intros s.
  - split; [intros _; now exists s | intros _; now destruct s].
  - destruct s as [|c s]; simpl.
    + split; [discriminate | intros [rest Hrest]; discriminate Hrest].
    + rewrite andb_true_iff, N.eqb_eq, IH. split.
      * intros [-> [rest ->]]. now exists rest.
      * intros [rest Hrest]. injection Hrest as -> ->. split; [reflexivity |].
        now exists rest.
Qed.

Lemma endswith_spec (s suffix : str) :
  endswith s suffix = true <-> exists front, s = front ++ suffix.
Proof.
  unfold endswith. rewrite startswith_spec. split.
  - intros [rest Hrest]. exists (rev rest).
    rewrite <- (rev_involutive s), Hrest, rev_app_distr, rev_involutive.
    reflexivity.
  - intros [front ->]. exists (rev front). apply rev_app_distr.
Qed.

(** A name has one suffix of a given length. *)
Lemma endswith_exclusive (s a b : str) :
  length a = length b -> a <> b -> endswith s a = true -> endswith s b = false.
Proof.
  intros Hlen Hne Ha. destruct (endswith s b) eqn:Hb; [| reflexivity].
  apply endswith_spec in Ha as [fa ->]. apply endswith_spec in Hb as [fb Hb].
  exfalso. apply Hne. unfold char in *.
  apply (f_equal (@rev N)) in Hb. rewrite !rev_app_distr in Hb.
  apply app_inj_1 in Hb as [Hb _]; [| now rewrite !length_rev].
  rewrite <- (rev_involutive a), <- (rev_involutive b). now f_equal.
Qed.

End Suffix.

Section Inputs.
Context {readers : Readers} {rt : StrRuntime} {order : SetOrder}
  {provider : Embedder}.

Lemma getitem_in_items {K V : Type} `{EqDecision K}
  (k : K) (v : V) (d : dict K V) :
  getitem k d = Some v -> (k, v) ∈ items d.
Proof.
  unfold items. induction d as [|[k0 v0] d IH]; simpl; [discriminate |].
  destruct (decide (k = k0)) as [->|Hne].
  - intros Hv. injection Hv as ->. apply elem_of_cons. now left.
  - intros Hv. apply elem_of_cons. right. now apply IH.
Qed.

(** X16. An uploaded resume whose name ends neither in [.pdf] nor in
    [.docx] is not left out: its name is a key with the empty text, and
    the ranking holds it with the score of the empty text. *)
Theorem other_suffix_ranked_as_empty
  (job_description : str) (files : list App.upload) (name : str) :
  name ∈ App.file_name <$> files ->
  endswith name (lit ".pdf") = false ->
  endswith name (lit ".docx") = false ->
  getitem name (App.resume_texts files) = Some (lit "")
  /\ (name, cos_sim (encode job_description) (encode (lit "")))
     ∈ rank_resumes job_description (App.resume_texts files).
Proof.
  intros Hin Hpdf Hdocx.
  assert (Htext : getitem name (App.resume_texts files) = Some (lit "")).
  { rewrite resume_texts_lookup.
    destruct (last (filter (fun file => App.file_name file = name) files))
      as [file|] eqn:Hlast.
    - apply last_Some_elem_of, list_elem_of_filter in Hlast as [Hname _].
      cbn [fmap option_fmap option_map]. f_equal.
      unfold App.resume_text. now rewrite Hname, Hpdf, Hdocx.
    - apply last_None in Hlast.
      apply list_elem_of_fmap in Hin as (file & Hname & Hin).
      exfalso. now apply (filter_nil_not_elem_of _ _ file Hlast). }
  split; [exact Htext |].
  apply rank_resumes_entry. exists (lit ""). split; [| reflexivity].
  now apply getitem_in_items.
Qed.

(** X17. With an uploaded job description the pasted text is not read.
    When the name of the file has none of the three suffixes, or when it
    ends in [.pdf] and no page of the file has text, the job description
    is the empty string, and the guard of the ranking fails for every
    dictionary of resumes. *)
Theorem job_description_without_text
  (jd_file : App.upload) (pasted : str) (resume_texts : dict str str) :
  (endswith (App.file_name jd_file) (lit ".txt") = false
   /\ endswith (App.file_name jd_file) (lit ".pdf") = false
   /\ endswith (App.file_name jd_file) (lit ".docx") = false)
  \/ (endswith (App.file_name jd_file) (lit ".pdf") = true
      /\ Forall (fun page => page = None \/ page = Some [])
           (pdf_page_texts (App.file_content jd_file))) ->
  App.job_description_text (Some jd_file) pasted = lit ""
  /\ App.ready (App.job_description_text (Some jd_file) pasted) resume_texts
     = false.
Proof.
  intros Hcase.
  assert (Htext : App.job_description_text (Some jd_file) pasted = lit "").
  { unfold App.job_description_text. cbv zeta.
    destruct Hcase as [(Htxt & Hpdf & Hdocx) | [Hpdf Hpages]].
    - now rewrite Htxt, Hpdf, Hdocx.
    - rewrite (endswith_exclusive _ (lit ".pdf") (lit ".txt")), Hpdf;
        [| reflexivity | discriminate | exact Hpdf].
      now apply extract_text_from_pdf_no_text. }
  split; [exact Htext |]. now rewrite Htext.
Qed.

End Inputs.

(** X16 for a file named [c.PDF]. *)
Lemma other_suffix_ranked_as_empty_witness :
  let files :=
    [ @App.mk_upload Sample.page_readers (lit "a.pdf") [Some (lit "java")];
      @App.mk_upload Sample.page_readers (lit "c.PDF")
        [Some (lit "python developer")] ] in
  getitem (lit "c.PDF") (App.resume_texts files) = Some (lit "")
  /\ (lit "c.PDF",
      @cos_sim Fixture.word_count_embedder
        (@encode Fixture.word_count_embedder Fixture.reference)
        (@encode Fixture.word_count_embedder (lit "")))
     ∈ @rank_resumes Fixture.word_count_embedder Fixture.reference
         (App.resume_texts files).
Proof.
  cbv zeta.
  apply (@other_suffix_ranked_as_empty Sample.page_readers
           Fixture.word_count_embedder).
  - apply elem_of_cons. right. apply elem_of_cons. now left.
  - vm_compute. reflexivity.
  - vm_compute. reflexivity.
Defined.

(** X17 for a scanned job description: a PDF of two pages without text. *)
Lemma job_description_without_text_witness :
  let jd_file :=
    @App.mk_upload Sample.page_readers (lit "job.pdf") [None; Some (lit "")] in
  App.job_description_text (Some jd_file) (lit "python developer") = lit ""
  /\ App.ready (App.job_description_text (Some jd_file) (lit "python developer"))
       Fixture.candidates
     = false.
Proof.
  cbv zeta.
  apply (@job_description_without_text Sample.page_readers).
  right. split; [vm_compute; reflexivity |].
  apply List.Forall_cons; [now left |].
  apply List.Forall_cons; [now right | apply List.Forall_nil].
Defined.
